(** * The query scope tree of the EdgeQL compiler

    A shallow embedding of [edb/ir/scopetree.py] and of the path-scope
    helpers of [edb/edgeql/compiler/pathctx.py], followed by the
    properties of the scope-resolution engine.

    Scope-tree nodes are mutable Python objects that refer to each other
    (a node holds the set of its children and a weak reference to its
    parent), so the embedding keeps them in a store indexed by node
    identity and every operation threads that store.  Loops that walk the
    parent chain or descend into children are written with a fuel
    argument; running out of fuel is a distinct outcome, never a value. *)

From stdpp Require Import base option list gmap sets strings.

(** ** Path identifiers *)

Module pathid.

(** Modelled from the spec: the module [edb/ir/pathid.py] that defines
    [PathId] is not among the sources.  A path is a starting type followed
    by navigation steps (pointer name and target type); it carries a set of
    namespaces, a flag telling that the final step is a link property and a
    flag telling that the path denotes the pointer itself rather than its
    target.  Equality is structural, hence namespace-sensitive. *)
Record PathId := mkPathId {
  path_root : string;
  path_steps : list (string * string);
  path_linkprop : bool;
  path_ptr : bool;
  namespace : gset string
}.

#[global] Instance PathId_eq_dec : EqDecision PathId.
Proof. solve_decision. Defined.

(** Modelled from the spec: [strip_namespace] returns a new value whose
    namespace set has lost the given namespaces. *)
Definition strip_namespace (p : PathId) (ns : gset string) : PathId :=
  mkPathId (path_root p) (path_steps p) (path_linkprop p) (path_ptr p)
           (namespace p ∖ ns).

(** Modelled from the spec: [replace_namespace(None)] drops the namespace
    set altogether. *)
Definition replace_namespace_none (p : PathId) : PathId :=
  mkPathId (path_root p) (path_steps p) (path_linkprop p) (path_ptr p) ∅.

Definition is_ptr_path (p : PathId) : bool := path_ptr p.
Definition is_linkprop_path (p : PathId) : bool := path_linkprop p.

(** The prefix of [p] made of its first [k] steps. *)
Definition prefix_at (p : PathId) (k : nat) : PathId :=
  mkPathId (path_root p) (take k (path_steps p)) false false (namespace p).

Definition ptr_path (p : PathId) : PathId :=
  mkPathId (path_root p) (path_steps p) (path_linkprop p) true (namespace p).

(** Modelled from the spec: [iter_prefixes] runs from the full path to the
    root, which comes last (callers reverse the result).  With
    [include_ptr], a path ending in a link property also yields the
    pointer-only form of the link that owns the property, placed so that
    the reversed enumeration meets it just before that link. *)
Definition iter_prefixes (include_ptr : bool) (p : PathId) : list PathId :=
  let shorter := prefix_at p <$> reverse (seq 0 (length (path_steps p))) in
  p :: match shorter with
       | owner :: rest =>
           if include_ptr && path_linkprop p
           then owner :: ptr_path owner :: rest
           else shorter
       | [] => []
       end.

(** Modelled from the spec: the table of banned paths is keyed on the
    fully-namespace-stripped path; this is the stripping the spec's words
    describe for [strip_weak_namespaces]. *)
Definition strip_all_namespaces (p : PathId) : PathId :=
  replace_namespace_none p.

End pathid.
Export pathid.

(** ** Scope tree nodes, the store and the effect monad *)

Module scopetree.

(** Node identities are the indices of the store. *)
Abbreviation NodeId := nat.

(** The attributes of [ScopeTreeNode].  [children] is a Python set: it is
    kept as a duplicate-free list whose order stands for the iteration
    order of the set.  [parent] is what the weak reference [_parent]
    resolves to; the store keeps every node alive, so a reference never
    dies while an operation runs. *)
Record ScopeTreeNode := mkNode {
  unique_id : option Z;
  path_id : option PathId;
  fenced : bool;
  protect_parent : bool;
  unnest_fence : bool;
  optional : bool;
  children : list NodeId;
  namespaces : gset string;
  parent : option NodeId
}.

(** [ScopeTreeNode.__init__] *)
Definition init (path : option PathId) (is_fenced : bool) (uid : option Z)
  : ScopeTreeNode :=
  mkNode uid path is_fenced false false false [] ∅ None.

Definition with_parent (p : option NodeId) (n : ScopeTreeNode) :=
  mkNode (unique_id n) (path_id n) (fenced n) (protect_parent n)
         (unnest_fence n) (optional n) (children n) (namespaces n) p.
Definition with_children (f : list NodeId → list NodeId) (n : ScopeTreeNode) :=
  mkNode (unique_id n) (path_id n) (fenced n) (protect_parent n)
         (unnest_fence n) (optional n) (f (children n)) (namespaces n)
         (parent n).
Definition with_path_id (p : option PathId) (n : ScopeTreeNode) :=
  mkNode (unique_id n) p (fenced n) (protect_parent n)
         (unnest_fence n) (optional n) (children n) (namespaces n) (parent n).
Definition with_optional (b : bool) (n : ScopeTreeNode) :=
  mkNode (unique_id n) (path_id n) (fenced n) (protect_parent n)
         (unnest_fence n) b (children n) (namespaces n) (parent n).

(** [set.add] and [set.remove] on the children of a node. *)
Definition set_add (x : NodeId) (l : list NodeId) : list NodeId :=
  if bool_decide (x ∈ l) then l else l ++ [x].
Definition set_remove (x : NodeId) (l : list NodeId) : list NodeId :=
  filter (λ y, y ≠ x) l.

(** The store holds every node ever created, indexed by identity. *)
Abbreviation Store := (list ScopeTreeNode).

Inductive Exception :=
  | InvalidScopeConfiguration (offending_node existing_node : NodeId)
  | TypeError
  | KeyError
  | AttributeError.

(** The outcome of running an operation: it returns a value and the new
    store, raises, or has no outcome within the fuel (this also covers a
    reference to a node that was never allocated, which no run shows).
    The store an exception leaves behind is not recorded: nothing below
    looks at a tree after a failed operation. *)
Inductive Outcome (A : Type) :=
  | Returns (a : A) (st : Store)
  | Raises (e : Exception)
  | Diverges.
Arguments Returns {A} a st.
Arguments Raises {A} e.
Arguments Diverges {A}.

Definition M (A : Type) : Type := Store → Outcome A.

#[global] Instance M_ret : MRet M := λ A a st, Returns a st.
#[global] Instance M_bind : MBind M := λ A B k m st,
  match m st with
  | Returns a st' => k a st'
  | Raises e => Raises e
  | Diverges => Diverges
  end.

Definition raise {A} (e : Exception) : M A := λ _, Raises e.
Definition diverge {A} : M A := λ _, Diverges.

(** A read-only computation over the store. *)
Definition query {A} (q : Store → option A) : M A := λ st,
  match q st with Some a => Returns a st | None => Diverges end.

Definition get (n : NodeId) : M ScopeTreeNode := query (λ st, st !! n).

Definition update (n : NodeId) (f : ScopeTreeNode → ScopeTreeNode) : M unit :=
  λ st, match st !! n with
        | Some nd => Returns () (<[n := f nd]> st)
        | None => Diverges
        end.

(** Object creation: the new node gets the next free identity. *)
Definition new_node (nd : ScopeTreeNode) : M NodeId :=
  λ st, Returns (length st) (st ++ [nd]).

(** [for x in xs: body(x)] *)
Fixpoint for_each {A} (body : A → M unit) (xs : list A) : M unit :=
  match xs with
  | [] => mret ()
  | x :: xs => body x ;; for_each body xs
  end.

(** ** Path comparison *)

(** [_paths_equal] *)
Definition _paths_equal (path_id_1 path_id_2 : option PathId)
    (nss : gset string) : bool :=
  match path_id_1, path_id_2 with
  | Some p1, Some p2 =>
      if bool_decide (nss ≠ ∅)
      then bool_decide (strip_namespace p1 nss = strip_namespace p2 nss)
      else bool_decide (p1 = p2)
  | _, _ => false
  end.

(** [_paths_equal_to_shortest_ns] *)
Definition _paths_equal_to_shortest_ns (path_id_1 path_id_2 : option PathId)
  : bool :=
  match path_id_1, path_id_2 with
  | Some p1, Some p2 =>
      let ns1 := namespace p1 in
      let ns2 := namespace p2 in
      if bool_decide (ns1 = ∅) && bool_decide (ns2 = ∅)
      then bool_decide (p1 = p2)
      else
        let extra_in_1 := ns1 ∖ ns2 in
        let extra_in_2 := ns2 ∖ ns1 in
        if bool_decide (extra_in_1 ≠ ∅) && bool_decide (extra_in_2 ≠ ∅)
        then false
        else bool_decide (replace_namespace_none p1 = replace_namespace_none p2)
  | _, _ => false
  end.

(** The first node of [cs], in iteration order, that passes [test]. *)
Fixpoint find_first (st : Store) (test : ScopeTreeNode → bool)
    (cs : list NodeId) : option (option NodeId) :=
  match cs with
  | [] => Some None
  | c :: cs =>
      nd ← st !! c;
      if test nd then Some (Some c) else find_first st test cs
  end.

(** ** Walking up: ancestors *)

(** The loop of [parent_fence] over [strict_ancestors], started at
    [node]: the first fenced node of the parent chain. *)
Fixpoint first_fenced (fuel : nat) (st : Store) (node : option NodeId)
  : option (option NodeId) :=
  match node with
  | None => Some None
  | Some n =>
      match fuel with
      | 0 => None
      | S fuel =>
          nd ← st !! n;
          if fenced nd then Some (Some n) else first_fenced fuel st (parent nd)
      end
  end.

(** [parent_fence] *)
Definition parent_fence (fuel : nat) (st : Store) (n : NodeId)
  : option (option NodeId) :=
  nd ← st !! n; first_fenced fuel st (parent nd).

(** [fence] *)
Definition fence (fuel : nat) (st : Store) (n : NodeId)
  : option (option NodeId) :=
  nd ← st !! n;
  if fenced nd then Some (Some n) else parent_fence fuel st n.

(** [ancestors]: the node itself, then its parent chain. *)
Fixpoint ancestors_from (fuel : nat) (st : Store) (node : option NodeId)
  : option (list NodeId) :=
  match node with
  | None => Some []
  | Some n =>
      match fuel with
      | 0 => None
      | S fuel =>
          nd ← st !! n;
          rest ← ancestors_from fuel st (parent nd);
          Some (n :: rest)
      end
  end.
Definition ancestors (fuel : nat) (st : Store) (n : NodeId) :=
  ancestors_from fuel st (Some n).

(** [find_visible].  The loop runs over [ancestors_and_namespaces], whose
    generator keeps the union [ans] of the namespaces met so far (the
    current node included); [nss] is the loop's own set, which lags one
    node behind.  The generator is consumed lazily, so a match ends the
    walk. *)
Fixpoint find_visible_from (fuel : nat) (st : Store) (path : PathId)
    (nss ans : gset string) (node : option NodeId)
  : option (option NodeId) :=
  match node with
  | None => Some None
  | Some n =>
      match fuel with
      | 0 => None
      | S fuel =>
          nd ← st !! n;
          let ans := ans ∪ namespaces nd in
          if _paths_equal (path_id nd) (Some path) nss then Some (Some n)
          else
            child ← find_first st
              (λ c, _paths_equal (path_id c) (Some path) nss) (children nd);
            match child with
            | Some c => Some (Some c)
            | None =>
                find_visible_from fuel st path (nss ∪ ans) ans (parent nd)
            end
      end
  end.

Definition find_visible (fuel : nat) (st : Store) (self : NodeId)
    (path : PathId) : option (option NodeId) :=
  find_visible_from fuel st path ∅ ∅ (Some self).

(** [is_visible] *)
Definition is_visible (fuel : nat) (st : Store) (self : NodeId)
    (path : PathId) : option bool :=
  v ← find_visible fuel st self path; Some (bool_decide (v ≠ None)).

(** [is_optional] *)
Definition is_optional (fuel : nat) (st : Store) (self : NodeId)
    (path : PathId) : option bool :=
  node ← find_visible fuel st self path;
  match node with
  | Some n => nd ← st !! n; Some (optional nd)
  | None => Some false
  end.

(** ** Walking down: descendants *)

(** [strict_descendants]: depth first, a node before its subtree. *)
Fixpoint strict_descendants (fuel : nat) (st : Store) (n : NodeId)
  : option (list NodeId) :=
  match fuel with
  | 0 => None
  | S fuel =>
      nd ← st !! n;
      foldr (λ child rest,
               ds ← strict_descendants fuel st child;
               r ← rest;
               Some (child :: ds ++ r))
            (Some []) (children nd)
  end.

(** [descendants] *)
Definition descendants (fuel : nat) (st : Store) (n : NodeId)
  : option (list NodeId) :=
  ds ← strict_descendants fuel st n; Some (n :: ds).

Definition has_path (st : Store) (n : NodeId) : bool :=
  match st !! n with
  | Some nd => bool_decide (path_id nd ≠ None)
  | None => false
  end.

(** [path_descendants] *)
Definition path_descendants (fuel : nat) (st : Store) (n : NodeId)
  : option (list NodeId) :=
  ds ← descendants fuel st n; Some (filter (λ d, has_path st d) ds).

Definition namespaces_of (st : Store) (n : NodeId) : gset string :=
  match st !! n with Some nd => namespaces nd | None => ∅ end.

(** [descendant_namespaces] *)
Definition descendant_namespaces (fuel : nat) (st : Store) (n : NodeId)
  : option (gset string) :=
  ds ← descendants fuel st n;
  Some (foldl (λ acc child, acc ∪ namespaces_of st child) ∅ ds).

(** [strict_descendants_and_namespaces]: every strict descendant with the
    namespaces declared on the way down to it, itself included. *)
Fixpoint strict_descendants_and_namespaces (fuel : nat) (st : Store)
    (n : NodeId) : option (list (NodeId * gset string)) :=
  match fuel with
  | 0 => None
  | S fuel =>
      nd ← st !! n;
      foldr (λ child rest,
               cn ← st !! child;
               ds ← strict_descendants_and_namespaces fuel st child;
               r ← rest;
               Some ((child, namespaces cn)
                     :: (prod_map id (λ dns, namespaces cn ∪ dns) <$> ds)
                     ++ r))
            (Some []) (children nd)
  end.

(** The loop shared by [find_descendant] and [find_descendant_and_ns]. *)
Fixpoint first_descendant (st : Store) (path : PathId)
    (ds : list (NodeId * gset string))
  : option (option NodeId * gset string) :=
  match ds with
  | [] => Some (None, ∅)
  | (d, dns) :: ds =>
      nd ← st !! d;
      if _paths_equal (path_id nd) (Some path) dns then Some (Some d, dns)
      else first_descendant st path ds
  end.

(** [find_descendant_and_ns].  The source stops consuming the generator
    at the first match; listing the descendants first gives the same
    answer whenever the tree below [self] is finite. *)
Definition find_descendant_and_ns (fuel : nat) (st : Store) (self : NodeId)
    (path : PathId) : option (option NodeId * gset string) :=
  ds ← strict_descendants_and_namespaces fuel st self;
  first_descendant st path ds.

(** [unfenced_descendants]: the node, then the subtrees of its unfenced
    children. *)
Fixpoint unfenced_descendants (fuel : nat) (st : Store) (n : NodeId)
  : option (list NodeId) :=
  match fuel with
  | 0 => None
  | S fuel =>
      nd ← st !! n;
      rest ← foldr (λ child rest,
                      cn ← st !! child;
                      r ← rest;
                      if fenced cn then Some r
                      else ds ← unfenced_descendants fuel st child;
                           Some (ds ++ r))
                   (Some []) (children nd);
      Some (n :: rest)
  end.

(** [find_unfenced]: the walk up of [find_visible], searching at each
    ancestor the whole of its unfenced descendants and recording whether
    a node marked [unnest_fence] has been left behind. *)
Fixpoint find_unfenced_from (fuel : nat) (st : Store) (path : PathId)
    (nss ans : gset string) (unnest_fence_seen : bool)
    (node : option NodeId) : option (option NodeId * bool) :=
  match node with
  | None => Some (None, unnest_fence_seen)
  | Some n =>
      match fuel with
      | 0 => None
      | S fuel =>
          nd ← st !! n;
          let ans := ans ∪ namespaces nd in
          ds ← unfenced_descendants fuel st n;
          found ← find_first st
            (λ d, _paths_equal (path_id d) (Some path) nss) ds;
          match found with
          | Some d => Some (Some d, unnest_fence_seen)
          | None =>
              find_unfenced_from fuel st path (nss ∪ ans) ans
                (unnest_fence_seen || unnest_fence nd) (parent nd)
          end
      end
  end.

Definition find_unfenced (fuel : nat) (st : Store) (self : NodeId)
    (path : PathId) : option (option NodeId * bool) :=
  find_unfenced_from fuel st path ∅ ∅ false (Some self).

(** The loop of [find_child] over the children [cs]; [deeper] is the
    recursive call into a branch. *)
Fixpoint find_child_in (deeper : NodeId → option (option NodeId))
    (st : Store) (path : PathId) (in_branches : bool) (cs : list NodeId)
  : option (option NodeId) :=
  match cs with
  | [] => Some None
  | c :: cs =>
      cn ← st !! c;
      if bool_decide (path_id cn = Some path) then Some (Some c)
      else if in_branches && bool_decide (path_id cn = None)
                 && negb (fenced cn)
      then
        desc ← deeper c;
        match desc with
        | Some d => Some (Some d)
        | None => find_child_in deeper st path in_branches cs
        end
      else find_child_in deeper st path in_branches cs
  end.

(** [find_child] *)
Fixpoint find_child (fuel : nat) (st : Store) (self : NodeId)
    (path : PathId) (in_branches : bool) : option (option NodeId) :=
  match fuel with
  | 0 => None
  | S fuel =>
      nd ← st !! self;
      find_child_in (λ c, find_child fuel st c path true) st path
                    in_branches (children nd)
  end.

(** ** Structural edits *)

(** [_set_parent] *)
Definition _set_parent (self : NodeId) (new_parent : option NodeId) : M unit :=
  nd ← get self;
  let current_parent := parent nd in
  if bool_decide (new_parent = current_parent) then mret ()
  else
    match current_parent with
    | Some cp =>
        cpn ← get cp;
        if bool_decide (self ∈ children cpn)
        then update cp (with_children (set_remove self))
        else raise KeyError
    | None => mret ()
    end ;;
    match new_parent with
    | Some p =>
        update self (with_parent (Some p)) ;;
        update p (with_children (set_add self))
    | None => update self (with_parent None)
    end.

(** [attach_child].  On a path collision the source evaluates
    [InvalidScopeConfiguration(msg)] with the message alone, while the
    constructor requires the keyword-only arguments [offending_node] and
    [existing_node]: the call itself fails with [TypeError], and that is
    what the statement raises. *)
Definition attach_child (self node : NodeId) : M unit :=
  nd ← get node;
  sn ← get self;
  clash ← match path_id nd with
          | Some _ =>
              query (λ st, find_first st
                (λ c, bool_decide (path_id c = path_id nd)) (children sn))
          | None => mret None
          end;
  match clash with
  | Some _ => raise TypeError
  | None =>
      same ← match unique_id nd with
             | Some _ =>
                 query (λ st, find_first st
                   (λ c, bool_decide (unique_id c = unique_id nd))
                   (children sn))
             | None => mret None
             end;
      match same with
      | Some _ => mret ()
      | None => _set_parent node (Some self)
      end
  end.

(** [attach_fence] *)
Definition attach_fence (self : NodeId) : M NodeId :=
  f ← new_node (init None true None);
  attach_child self f ;;
  mret f.

(** [attach_branch] *)
Definition attach_branch (self : NodeId) : M NodeId :=
  f ← new_node (init None false None);
  attach_child self f ;;
  mret f.

(** [remove_subtree] *)
Definition remove_subtree (self node : NodeId) : M unit :=
  sn ← get self;
  if bool_decide (node ∈ children sn) then _set_parent node None
  else raise KeyError.

(** [remove] *)
Definition remove (self : NodeId) : M unit :=
  nd ← get self;
  match parent nd with
  | Some p => remove_subtree p self
  | None => mret ()
  end.

(** The test of [remove_descendants] on one node. *)
Definition matches_shortest_ns (st : Store) (path : PathId) (d : NodeId)
  : bool :=
  match st !! d with
  | Some nd => _paths_equal_to_shortest_ns (path_id nd) (Some path)
  | None => false
  end.

(** [remove_descendants]: the matching nodes are collected first, then
    removed one by one. *)
Definition remove_descendants (fuel : nat) (self : NodeId) (path : PathId)
  : M unit :=
  matching ← query (λ st,
    ds ← descendants fuel st self;
    Some (filter (λ d, matches_shortest_ns st path d) ds));
  for_each remove matching.

(** [mark_as_optional] *)
Definition mark_as_optional (fuel : nat) (self : NodeId) (path : PathId)
  : M unit :=
  node ← query (λ st, find_visible fuel st self path);
  match node with
  | Some n => update n (with_optional true)
  | None => mret ()
  end.

(** ** Merging a subtree *)

(** [fuse_subtree], with the call back into [attach_subtree] abstracted
    as [attach]. *)
Definition fuse_subtree_with (attach : NodeId → NodeId → M unit)
    (self node : NodeId) : M unit :=
  remove node ;;
  nd ← get node;
  match path_id nd with
  | Some _ =>
      (if optional nd then update self (with_optional true) else mret ()) ;;
      subtree ← new_node (init None true None);
      for_each (attach_child subtree) (children nd) ;;
      attach self subtree
  | None => attach self node
  end.

(** The search for an existing node in the first loop of
    [attach_subtree]: a descendant of [self] first, an unfenced node seen
    from the ancestors of [self] otherwise.  It yields [existing],
    [existing_ns], [unnest_fence] and [parent_fence]. *)
Definition find_existing (fuel : nat) (self : NodeId) (path : PathId)
  : M (option NodeId * gset string * bool * option NodeId) :=
  '(found, existing_ns) ←
    query (λ st, find_descendant_and_ns fuel st self path);
  match found with
  | None =>
      '(existing, unnest) ← query (λ st, find_unfenced fuel st self path);
      match existing with
      | Some e =>
          pf ← query (λ st, parent_fence fuel st e);
          mret (existing, existing_ns, unnest, pf)
      | None => mret (existing, existing_ns, unnest, None)
      end
  | Some _ =>
      pf ← query (λ st, fence fuel st self);
      mret (found, existing_ns, false, pf)
  end.

(** The block guarded by [parent_fence.find_child(path_id) is None]: the
    ambiguity check, then the move of [existing] under [parent_fence]. *)
Definition hoist_existing (fuel : nat) (descendant : NodeId) (path : PathId)
    (existing : NodeId) (existing_ns : gset string) (unnest : bool)
    (pf : NodeId) : M unit :=
  ambiguous ←
    (if unnest
     then local ← query (λ st, find_child fuel st pf path true);
          mret (bool_decide (local = None))
     else mret false);
  if (ambiguous : bool) then
    dn ← get descendant;
    match parent dn with
    | None => raise AttributeError
    | Some dp =>
        dpn ← get dp;
        let offending_node :=
          if bool_decide (path_id dpn ≠ None) then dp else descendant in
        raise (InvalidScopeConfiguration offending_node existing)
    end
  else
    remove_descendants fuel pf path ;;
    en ← get existing;
    match path_id en with
    | None => raise AttributeError
    | Some epath =>
        update existing
          (with_path_id (Some (strip_namespace epath existing_ns)))
    end ;;
    attach_child pf existing.

(** The body of the first loop of [attach_subtree] for one path
    descendant of the incoming subtree rooted at [node]. *)
Definition merge_descendant (fuse : NodeId → NodeId → M unit) (fuel : nat)
    (self node : NodeId) (dns : gset string) (descendant : NodeId) : M unit :=
  dn ← get descendant;
  match path_id dn with
  | None => mret ()
  | Some dpath =>
      let path := strip_namespace dpath dns in
      visible ← query (λ st, find_visible fuel st self path);
      match visible with
      | Some v =>
          remove descendant ;;
          if optional dn then update v (with_optional true) else mret ()
      | None =>
          dfence ← query (λ st, parent_fence fuel st descendant);
          if bool_decide (dfence = Some node) then
            '(existing, existing_ns, unnest, target) ←
              find_existing fuel self path;
            match existing with
            | None => mret ()
            | Some e =>
                match target with
                | None => raise AttributeError
                | Some pf =>
                    direct ← query (λ st, find_child fuel st pf path false);
                    match direct with
                    | Some _ => mret ()
                    | None =>
                        hoist_existing fuel descendant path e existing_ns
                                       unnest pf
                    end ;;
                    fuse e descendant
                end
            end
          else mret ()
      end
  end.

(** The first loop of [attach_subtree].  [path_descendants] is a lazy
    depth-first generator: the children of a node are read (and
    snapshotted) only after the loop body has run for that node, whereas
    the siblings still to come were snapshotted before.  [pending] holds
    the nodes the generator is still to yield. *)
Fixpoint merge_descendants (fuse : NodeId → NodeId → M unit) (qfuel : nat)
    (fuel : nat) (self node : NodeId) (dns : gset string)
    (pending : list NodeId) : M unit :=
  match pending with
  | [] => mret ()
  | descendant :: rest =>
      match fuel with
      | 0 => diverge
      | S fuel =>
          merge_descendant fuse qfuel self node dns descendant ;;
          dn ← get descendant;
          merge_descendants fuse qfuel fuel self node dns (children dn ++ rest)
      end
  end.

(** The second loop of [attach_subtree]: whatever remains under [node] is
    stripped of the namespaces [node] declares and attached to [self]. *)
Definition attach_remaining (fuel : nat) (self node : NodeId) : M unit :=
  rn ← get node;
  for_each (λ descendant,
    pds ← query (λ st, path_descendants fuel st descendant);
    for_each (λ pd,
      pn ← get pd;
      match path_id pn with
      | Some ppath =>
          if bool_decide (namespace ppath ≠ ∅)
          then update pd (with_path_id
                 (Some (strip_namespace ppath
                          (namespace ppath ∩ namespaces rn))))
          else mret ()
      | None => mret ()
      end) pds ;;
    attach_child self descendant) (children rn).

(** The wrapping step of [attach_subtree]: a path node is put under a
    fresh fence, which then stands for the incoming subtree. *)
Definition wrap_path_node (node : NodeId) : M NodeId :=
  nd ← get node;
  match path_id nd with
  | Some _ =>
      wrapper_node ← new_node (init None true None);
      attach_child wrapper_node node ;;
      mret wrapper_node
  | None => mret node
  end.

(** The set [dns] of [attach_subtree], with the root it is computed on. *)
Definition attach_subtree_dns (fuel : nat) (node : NodeId)
  : M (NodeId * gset string) :=
  root ← wrap_path_node node;
  dns ← query (λ st, descendant_namespaces fuel st root);
  mret (root, dns).

(** [attach_subtree] from the point where the generator of the first
    loop is about to yield the nodes of [pending]: the rest of that loop,
    then the second loop. *)
Definition attach_subtree_from (fuse : NodeId → NodeId → M unit)
    (qfuel fuel : nat) (self root : NodeId) (dns : gset string)
    (pending : list NodeId) : M unit :=
  merge_descendants fuse qfuel fuel self root dns pending ;;
  attach_remaining qfuel self root.

(** [attach_subtree] *)
Fixpoint attach_subtree (fuel : nat) (self node : NodeId) : M unit :=
  match fuel with
  | 0 => diverge
  | S fuel =>
      '(root, dns) ← attach_subtree_dns fuel node;
      rn ← get root;
      attach_subtree_from (fuse_subtree_with (attach_subtree fuel)) fuel fuel
                          self root dns (children rn)
  end.

(** [fuse_subtree] *)
Definition fuse_subtree (fuel : nat) (self node : NodeId) : M unit :=
  fuse_subtree_with (attach_subtree fuel) self node.

(** The loop of [attach_path] over the reversed prefixes: [parent] is the
    node the next prefix is attached to. *)
Fixpoint attach_prefixes (parent : NodeId) (is_lprop : bool)
    (prefixes : list PathId) : M unit :=
  match prefixes with
  | [] => mret ()
  | prefix :: prefixes =>
      if is_ptr_path prefix then attach_prefixes parent true prefixes
      else
        new_child ← new_node (init (Some prefix) false None);
        attach_child parent new_child ;;
        attach_prefixes
          (if negb (is_lprop || is_linkprop_path prefix)
           then new_child else parent)
          false prefixes
  end.

(** [attach_path], from the point where the prefixes have been
    enumerated and reversed. *)
Definition attach_chain (fuel : nat) (self : NodeId) (prefixes : list PathId)
  : M unit :=
  subtree ← new_node (init None true None);
  attach_prefixes subtree false prefixes ;;
  attach_subtree fuel self subtree.

(** [attach_path] *)
Definition attach_path (fuel : nat) (self : NodeId) (path : PathId) : M unit :=
  attach_chain fuel self (reverse (iter_prefixes true path)).

End scopetree.
Export scopetree.

(** ** The compiler's path context *)

Module pathctx.

(** The part of [ContextLevel] the path helpers use.  [banned_paths] is a
    Python set of path ids; only membership is ever asked of it. *)
Record ContextLevel := mkContext {
  banned_paths : list PathId;
  path_scope : NodeId
}.

Section with_weak_namespaces.

(** [PathId.strip_weak_namespaces] belongs to the missing path-id module;
    the helpers are parametric in it. *)
Variable strip_weak_namespaces : PathId → PathId.

(** [ban_path] *)
Definition ban_path (path : PathId) (ctx : ContextLevel) : ContextLevel :=
  mkContext (strip_weak_namespaces path :: banned_paths ctx) (path_scope ctx).

(** [path_is_banned]; [and] does not evaluate its right operand when the
    left one is false. *)
Definition path_is_banned (fuel : nat) (st : Store) (path : PathId)
    (ctx : ContextLevel) : option bool :=
  let s_path_id := strip_weak_namespaces path in
  if bool_decide (s_path_id ∈ banned_paths ctx)
  then is_visible fuel st (path_scope ctx) path
  else Some false.

End with_weak_namespaces.

(** [mark_path_as_optional] *)
Definition mark_path_as_optional (fuel : nat) (path : PathId)
    (ctx : ContextLevel) : M unit :=
  mark_as_optional fuel (path_scope ctx) path.

End pathctx.
Export pathctx.

(** ** Observing a tree *)

Module observe.

#[local] Set Warnings "-register-all".

(** The labelled tree hanging from a node of the store. *)
Inductive Tree := TNode (label : option PathId) (subtrees : list Tree).

Fixpoint snapshot (fuel : nat) (st : Store) (n : NodeId) : option Tree :=
  match fuel with
  | 0 => None
  | S fuel =>
      nd ← st !! n;
      ts ← mapM (snapshot fuel st) (children nd);
      Some (TNode (path_id nd) ts)
  end.

Definition label_is (p : PathId) (t : Tree) : bool :=
  match t with TNode l _ => bool_decide (l = Some p) end.

(** Some node of the tree is labelled [p]. *)
Fixpoint has_label (p : PathId) (t : Tree) : bool :=
  match t with
  | TNode l ts => bool_decide (l = Some p) || existsb (has_label p) ts
  end.

(** Some node labelled [p] has a child labelled [q]. *)
Fixpoint has_edge (p q : PathId) (t : Tree) : bool :=
  match t with
  | TNode l ts =>
      (bool_decide (l = Some p) && existsb (label_is q) ts)
      || existsb (has_edge p q) ts
  end.

(** The tree under [root] once the operation has returned. *)
Definition tree_after (fuel : nat) (root : NodeId) (o : Outcome unit)
  : option Tree :=
  match o with
  | Returns _ st => snapshot fuel st root
  | _ => None
  end.

(** The links of the store are consistent: the children of a node are
    allocated and point back to it, and a node is among the children of
    its parent. *)
Definition child_links_ok (st : Store) (x : NodeId) (nd : ScopeTreeNode)
  : bool :=
  forallb (λ c, match st !! c with
                | Some cn => bool_decide (parent cn = Some x)
                | None => false
                end) (children nd).

Definition parent_link_ok (st : Store) (x : NodeId) (nd : ScopeTreeNode)
  : bool :=
  match parent nd with
  | None => true
  | Some p => match st !! p with
              | Some pn => bool_decide (x ∈ children pn)
              | None => false
              end
  end.

Definition consistent (st : Store) : bool :=
  forallb (λ '(x, nd), child_links_ok st x nd && parent_link_ok st x nd)
          (imap pair st).

(** [d] reaches [n] by following [k] parent links. *)
Inductive reaches (st : Store) : nat → NodeId → NodeId → Prop :=
  | reaches_here n : reaches st 0 n n
  | reaches_up k d nd p n :
      st !! d = Some nd → parent nd = Some p → reaches st k p n →
      reaches st (S k) d n.

(** The set the specification describes for [dns]: the union of the
    namespaces declared by the strict descendants of the root of the
    attached subtree, the root's own namespaces left out. *)
Definition strict_descendant_namespaces (fuel : nat) (st : Store)
    (root : NodeId) : option (gset string) :=
  ds ← strict_descendants fuel st root;
  Some (⋃ (namespaces_of st <$> ds)).

(** The optional flag of a node, false for an identity never allocated. *)
Definition optional_at (st : Store) (x : NodeId) : bool :=
  match st !! x with Some nd => optional nd | None => false end.

(** No optional flag set in [st] is cleared in [st']. *)
Definition keeps_optional (st st' : Store) : Prop :=
  ∀ x, optional_at st x = true → optional_at st' x = true.

End observe.
Export observe.

(** ** Relating the store before and after an operation *)

Module frames.

(** Every node of [st] is still there in [st'], with contents related to
    the old ones by [R]. *)
Definition related (R : ScopeTreeNode → ScopeTreeNode → Prop)
    (st st' : Store) : Prop :=
  ∀ x nd, st !! x = Some nd → ∃ nd', st' !! x = Some nd' ∧ R nd nd'.

(** Whenever the operation returns, the stores are related. *)
Definition preserves (R : ScopeTreeNode → ScopeTreeNode → Prop) {A}
    (m : M A) : Prop :=
  ∀ st a st', m st = Returns a st' → related R st st'.

(** A set optional flag stays set. *)
Definition flag_kept (nd nd' : ScopeTreeNode) : Prop :=
  optional nd = true → optional nd' = true.

(** The label and the optional flag are unchanged. *)
Definition label_kept (nd nd' : ScopeTreeNode) : Prop :=
  path_id nd' = path_id nd ∧ optional nd' = optional nd.

(** The first half of [_set_parent]: the node leaves its current parent.
    [st2] is the store it yields. *)
Definition unlinked (st1 : Store) (node : NodeId) (nd : ScopeTreeNode)
    (st2 : Store) : Prop :=
  match parent nd with
  | None => st2 = st1
  | Some cp =>
      ∃ cpn, st1 !! cp = Some cpn ∧ node ∈ children cpn
             ∧ st2 = <[cp := with_children (set_remove node) cpn]> st1
  end.

End frames.
Export frames.

(** ** Sample paths *)

Module samples.

Definition path_A : PathId := mkPathId "A" [] false false ∅.
Definition path_A_b : PathId := mkPathId "A" [("b", "B")] false false ∅.
Definition path_A_b_c : PathId :=
  mkPathId "A" [("b", "B"); ("c", "C")] false false ∅.

(** A single root fence with nothing in scope. *)
Definition empty_root : Store := [init None true None].

End samples.
Export samples.

(** ** Sample stores *)

Module collision.

(** A fence with one child labelled [A]; node 2 is a fresh node labelled
    [A] as well, to be attached to the fence. *)
Definition siblings (uid : option Z) : Store :=
  [ mkNode None None true false false false [1] ∅ None;
    mkNode uid (Some path_A) false false false false [] ∅ (Some 0);
    mkNode uid (Some path_A) false false false false [] ∅ None ].

End collision.

Module reattach.

(** A fence whose only child is labelled [A.b] and has unique id 7; node 2
    is labelled [A] and has the same unique id. *)
Definition store : Store :=
  [ mkNode None None true false false false [1] ∅ None;
    mkNode (Some 7%Z) (Some path_A_b) false false false false [] ∅ (Some 0);
    mkNode (Some 7%Z) (Some path_A) false false false false [] ∅ None ].

End reattach.

Module scenario_C.

(** The root fence 0 holds the path node [A] (1), under which [A.b] (2)
    is bound, and an empty branch (3) marked [unnest_fence].  Nodes 4 and
    5 are an incoming subtree: a fence over an unfenced reference to
    [A.b], to be merged at the branch. *)
Definition store : Store :=
  [ mkNode None None true false false false [1; 3] ∅ None;
    mkNode None (Some path_A) false false false false [2] ∅ (Some 0);
    mkNode None (Some path_A_b) false false false false [] ∅ (Some 1);
    mkNode None None false false true false [] ∅ (Some 0);
    mkNode None None true false false false [5] ∅ None;
    mkNode None (Some path_A_b) false false false false [] ∅ (Some 4) ].

End scenario_C.

Module banned.

(** A context with an empty ban table whose scope is the root of
    [empty_root]. *)
Definition ctx : ContextLevel := mkContext [] 0.

End banned.

Module fenced_scope.

(** Two sibling fences under the root 0, each binding [A] on its own: the
    fence 1 holds node 3 and the fence 4 holds node 6.  Nodes 2 and 5 are
    the emptied fences [attach_path] built its chains under. *)
Definition store : Store :=
  [ mkNode None None true false false false [1; 4] ∅ None;
    mkNode None None true false false false [3] ∅ (Some 0);
    mkNode None None true false false false [] ∅ None;
    mkNode None (Some path_A) false false false false [] ∅ (Some 1);
    mkNode None None true false false false [6] ∅ (Some 0);
    mkNode None None true false false false [] ∅ None;
    mkNode None (Some path_A) false false false false [] ∅ (Some 4) ].

(** The calls that build it from a root alone. *)
Definition build : M unit :=
  f1 ← attach_fence 0;
  attach_path 5 f1 path_A ;;
  f2 ← attach_fence 0;
  attach_path 5 f2 path_A.

End fenced_scope.

Module optional_merge.

(** The root 0 binds [A] (node 1); the incoming fence 2 holds a reference
    to [A] marked optional (node 3). *)
Definition store : Store :=
  [ mkNode None None true false false false [1] ∅ None;
    mkNode None (Some path_A) false false false false [] ∅ (Some 0);
    mkNode None None true false false false [3] ∅ None;
    mkNode None (Some path_A) false false false true [] ∅ (Some 2) ].

(** The store an operation leaves behind, when it returns. *)
Definition final (o : Outcome unit) : Store :=
  match o with Returns _ st => st | _ => [] end.

Definition after_attach : Store :=
  Eval vm_compute in final (attach_subtree 5 0 2 store).
Definition after_fuse : Store :=
  Eval vm_compute in final (fuse_subtree 5 1 3 store).
Definition after_loop : Store :=
  Eval vm_compute in
    final (attach_subtree_from (fuse_subtree 5) 5 5 0 2 ∅ [3] store).

End optional_merge.

Module optional_lost.

(** The path [A] qualified by the namespace [n1]. *)
Definition path_A_n1 : PathId := mkPathId "A" [] false false {["n1"]}.

(** The root 0 binds [A] (node 1) and holds the fence 2, which declares
    [n1] and binds the qualified [A] (node 3).  The incoming fence 4
    holds a reference to [A] marked optional (node 5) and a reference to
    the qualified [A] (node 6). *)
Definition store : Store :=
  [ mkNode None None true false false false [1; 2] ∅ None;
    mkNode None (Some path_A) false false false false [] ∅ (Some 0);
    mkNode None None true false false false [3] {["n1"]} (Some 0);
    mkNode None (Some path_A_n1) false false false false [] ∅ (Some 2);
    mkNode None None true false false false [5; 6] ∅ None;
    mkNode None (Some path_A) false false false true [] ∅ (Some 4);
    mkNode None (Some path_A_n1) false false false false [] ∅ (Some 4) ].

Definition after_merge : Store :=
  Eval vm_compute in optional_merge.final (attach_subtree 5 0 4 store).

(** The same tree with nothing incoming and [A] (node 1) already marked
    optional. *)
Definition marked : Store :=
  [ mkNode None None true false false false [1; 2] ∅ None;
    mkNode None (Some path_A) false false false true [] ∅ (Some 0);
    mkNode None None true false false false [3] {["n1"]} (Some 0);
    mkNode None (Some path_A_n1) false false false false [] ∅ (Some 2) ].

Definition after_path : Store :=
  Eval vm_compute in optional_merge.final (attach_path 5 0 path_A_n1 marked).

End optional_lost.

Module aliased.

(** The root 0 and an incoming fence 1 that declares the namespace [ns]
    and has no children. *)
Definition store : Store :=
  [ mkNode None None true false false false [] ∅ None;
    mkNode None None true false false false [] {["ns"]} None ].

(** An incoming path node [A] (1) that declares [ns] and holds [A.b] (2),
    which declares [inner]. *)
Definition path_store : Store :=
  [ mkNode None None true false false false [] ∅ None;
    mkNode None (Some path_A) false false false false [2] {["ns"]} None;
    mkNode None (Some path_A_b) false false false false [] {["inner"]}
           (Some 1) ].

End aliased.

(** ** Describing what an edit does to the store *)

Module edits.

(** Every node of [st] is in [st'] with the contents [f] gives it, and
    no node was created. *)
Definition edited (f : NodeId → ScopeTreeNode → ScopeTreeNode)
    (st st' : Store) : Prop :=
  length st' = length st ∧ ∀ x xn, st !! x = Some xn → st' !! x = Some (f x xn).

(** What [_set_parent] does to the node [x] when it moves [n] from
    [current_parent] to [new_parent]. *)
Definition set_parent_edit (n : NodeId) (new_parent current_parent : option NodeId)
    (x : NodeId) (xn : ScopeTreeNode) : ScopeTreeNode :=
  if decide (new_parent = current_parent) then xn
  else
    let xn1 := if decide (current_parent = Some x)
               then with_children (set_remove n) xn else xn in
    let xn2 := if decide (x = n) then with_parent new_parent xn1 else xn1 in
    if decide (new_parent = Some x)
    then with_children (set_add n) xn2 else xn2.

(** The attributes that no structural edit touches. *)
Definition same_attributes (nd nd' : ScopeTreeNode) : Prop :=
  unique_id nd' = unique_id nd ∧ path_id nd' = path_id nd
  ∧ fenced nd' = fenced nd ∧ protect_parent nd' = protect_parent nd
  ∧ unnest_fence nd' = unnest_fence nd ∧ optional nd' = optional nd
  ∧ namespaces nd' = namespaces nd.

(** The attributes that neither a structural edit nor a merge touches:
    merging may strip namespaces off a path id and set the optional flag. *)
Definition structure_kept (nd nd' : ScopeTreeNode) : Prop :=
  unique_id nd' = unique_id nd ∧ fenced nd' = fenced nd
  ∧ protect_parent nd' = protect_parent nd
  ∧ unnest_fence nd' = unnest_fence nd ∧ namespaces nd' = namespaces nd.

(** What a search for a path reads of a node: its label, its namespaces
    and its links. *)
Definition same_scope (nd nd' : ScopeTreeNode) : Prop :=
  path_id nd' = path_id nd ∧ namespaces nd' = namespaces nd
  ∧ parent nd' = parent nd ∧ children nd' = children nd.

(** [d] is a child of [self], or a child of a node reached from [self]
    through unfenced children without a path. *)
Inductive under_branches (st : Store) : NodeId → NodeId → Prop :=
  | under_here self sn d :
      st !! self = Some sn → d ∈ children sn → under_branches st self d
  | under_branch self sn c cn d :
      st !! self = Some sn → c ∈ children sn →
      st !! c = Some cn → path_id cn = None → fenced cn = false →
      under_branches st c d → under_branches st self d.

(** The links of the store as a proposition: children point back to their
    parent and a node is listed by its parent. *)
Definition links_ok (st : Store) : Prop :=
  (∀ x nd c, st !! x = Some nd → c ∈ children nd →
             ∃ cn, st !! c = Some cn ∧ parent cn = Some x)
  ∧ (∀ x nd p, st !! x = Some nd → parent nd = Some p →
               ∃ pn, st !! p = Some pn ∧ x ∈ children pn).

(** The operation keeps the property [I] of the store whenever it
    returns. *)
Definition keeps (I : Store → Prop) {A} (m : M A) : Prop :=
  ∀ st a st', I st → m st = Returns a st' → I st'.

End edits.
Export edits.

(** ** More sample stores *)

Module family.

(** The root fence 0 holds the path node [A] (1) and the branch 2; the
    branch holds [A.b] (3), whose unique id is 7.  Node 4 is a detached
    path node [A.b.c]. *)
Definition store : Store :=
  [ mkNode None None true false false false [1; 2] ∅ None;
    mkNode None (Some path_A) false false false false [] ∅ (Some 0);
    mkNode None None false false false false [3] ∅ (Some 0);
    mkNode (Some 7%Z) (Some path_A_b) false false false false [] ∅ (Some 2);
    mkNode None (Some path_A_b_c) false false false false [] ∅ None ].

(** The same tree once the descendants of the root that match [A.b] have
    been removed. *)
Definition pruned : Store :=
  Eval vm_compute in
    optional_merge.final (remove_descendants 5 0 path_A_b store).

End family.

(** ** More queries on the scope tree *)

Module navigation.

(** [root] *)
Fixpoint root (fuel : nat) (st : Store) (n : NodeId) : option NodeId :=
  match fuel with
  | 0 => None
  | S fuel =>
      nd ← st !! n;
      match parent nd with
      | None => Some n
      | Some p => root fuel st p
      end
  end.

(** [path_children] *)
Definition path_children (st : Store) (n : NodeId) : option (list NodeId) :=
  nd ← st !! n; Some (filter (λ c, has_path st c) (children nd)).

(** [ancestors_and_namespaces]: every ancestor, the node first, with the
    union of the namespaces declared from the node up to it. *)
Fixpoint ancestors_and_namespaces_from (fuel : nat) (st : Store)
    (nss : gset string) (node : option NodeId)
  : option (list (NodeId * gset string)) :=
  match node with
  | None => Some []
  | Some n =>
      match fuel with
      | 0 => None
      | S fuel =>
          nd ← st !! n;
          let nss := nss ∪ namespaces nd in
          rest ← ancestors_and_namespaces_from fuel st nss (parent nd);
          Some ((n, nss) :: rest)
      end
  end.
Definition ancestors_and_namespaces (fuel : nat) (st : Store) (n : NodeId) :=
  ancestors_and_namespaces_from fuel st ∅ (Some n).

(** [get_effective_namespaces] *)
Definition get_effective_namespaces (fuel : nat) (st : Store) (self : NodeId)
  : option (gset string) :=
  ans ← ancestors_and_namespaces fuel st self;
  Some (foldl (λ nss '(_, a), nss ∪ a) ∅ ans).

(** [is_empty]; [all] stops at the first child that is not empty. *)
Fixpoint is_empty (fuel : nat) (st : Store) (n : NodeId) : option bool :=
  match fuel with
  | 0 => None
  | S fuel =>
      nd ← st !! n;
      if bool_decide (path_id nd ≠ None) then Some false
      else
        foldr (λ c rest,
                 e ← is_empty fuel st c;
                 if (e : bool) then rest else Some false)
              (Some true) (children nd)
  end.

(** [find_descendant] *)
Definition find_descendant (fuel : nat) (st : Store) (self : NodeId)
    (path : PathId) : option (option NodeId) :=
  ds ← strict_descendants_and_namespaces fuel st self;
  r ← first_descendant st path ds;
  Some r.1.

(** [find_by_unique_id] *)
Definition find_by_unique_id (fuel : nat) (st : Store) (self : NodeId)
    (uid : Z) : option (option NodeId) :=
  ds ← descendants fuel st self;
  find_first st (λ nd, bool_decide (unique_id nd = Some uid)) ds.

(** [strict_unfenced_descendants] *)
Definition strict_unfenced_descendants (fuel : nat) (st : Store) (n : NodeId)
  : option (list NodeId) :=
  nd ← st !! n;
  foldr (λ child rest,
           cn ← st !! child;
           r ← rest;
           if fenced cn then Some r
           else ds ← unfenced_descendants fuel st child;
                Some (ds ++ r))
        (Some []) (children nd).

(** [is_any_prefix_visible], from the point where the prefixes have been
    enumerated and reversed. *)
Fixpoint any_visible (fuel : nat) (st : Store) (self : NodeId)
    (prefixes : list PathId) : option bool :=
  match prefixes with
  | [] => Some false
  | prefix :: prefixes =>
      v ← find_visible fuel st self prefix;
      if bool_decide (v ≠ None) then Some true
      else any_visible fuel st self prefixes
  end.

Definition is_any_prefix_visible (fuel : nat) (st : Store) (self : NodeId)
    (path : PathId) : option bool :=
  any_visible fuel st self (reverse (iter_prefixes false path)).

Section with_truth_value.

(** [get_all_paths] and [get_all_visible] test a path id for truth
    ([if node.path_id:]); the truth value of a [PathId] is decided by the
    missing path-id module, so the two are parametric in it.  [None] is
    false. *)
Variable truth_value : PathId → bool.

Definition is_true (p : option PathId) : bool :=
  match p with Some p => truth_value p | None => false end.

(** The paths of the nodes [cs] that pass [keep]. *)
Definition paths_of (st : Store) (keep : option PathId → bool)
    (cs : list NodeId) : option (list PathId) :=
  foldr (λ c rest,
           cn ← st !! c;
           r ← rest;
           match path_id cn with
           | Some p => if keep (Some p) then Some (p :: r) else Some r
           | None => Some r
           end)
        (Some []) cs.

(** [get_all_paths]; the result is a set, kept as a list. *)
Definition get_all_paths (st : Store) (self : NodeId)
  : option (list PathId) :=
  nd ← st !! self;
  match path_id nd with
  | Some p =>
      if truth_value p then Some [p]
      else cs ← path_children st self; paths_of st (λ _, true) cs
  | None => cs ← path_children st self; paths_of st (λ _, true) cs
  end.

(** [get_all_visible]; the result is a set, kept as a list. *)
Definition get_all_visible (fuel : nat) (st : Store) (self : NodeId)
  : option (list PathId) :=
  ans ← ancestors fuel st self;
  foldr (λ a rest,
           nd ← st !! a;
           r ← rest;
           match path_id nd with
           | Some p =>
               if truth_value p then Some (p :: r)
               else ps ← paths_of st is_true (children nd); Some (ps ++ r)
           | None => ps ← paths_of st is_true (children nd); Some (ps ++ r)
           end)
        (Some []) ans.

End with_truth_value.

End navigation.
Export navigation.

(** ** More edits of the scope tree *)

Module restructuring.

Definition with_namespaces (f : gset string → gset string)
    (n : ScopeTreeNode) :=
  mkNode (unique_id n) (path_id n) (fenced n) (protect_parent n)
         (unnest_fence n) (optional n) (children n) (f (namespaces n))
         (parent n).

(** [add_namespaces] *)
Definition add_namespaces (fuel : nat) (self : NodeId) (nss : gset string)
  : M unit :=
  effective ← query (λ st, get_effective_namespaces fuel st self);
  update self (with_namespaces (λ own, own ∪ (nss ∖ effective))).

(** The attribute assignments of [_copy] on the fresh node [cp]. *)
Definition copy_attributes (sn cp : ScopeTreeNode) : ScopeTreeNode :=
  mkNode (unique_id sn) (path_id cp) (fenced cp) (protect_parent cp)
         (unnest_fence sn) (optional sn) (children cp) (namespaces sn)
         (parent cp).

(** [_copy] *)
Fixpoint _copy (fuel : nat) (self : NodeId) (new_parent : option NodeId)
  : M NodeId :=
  match fuel with
  | 0 => diverge
  | S fuel =>
      sn ← get self;
      cp ← new_node (init (path_id sn) (fenced sn) None);
      update cp (copy_attributes sn) ;;
      _set_parent cp new_parent ;;
      sn ← get self;
      for_each (λ child, _copy fuel child (Some cp) ;; mret ()) (children sn) ;;
      mret cp
  end.

(** [copy] *)
Definition copy (fuel : nat) (self : NodeId) : M NodeId :=
  _copy fuel self None.

#[local] Set Warnings "-register-all".

(** The subtree hanging from a node, with the attributes [_copy] carries
    over: unique id, path id, [fenced], [unnest_fence], [optional] and
    the namespaces. *)
Inductive Shape :=
  SNode (uid : option Z) (label : option PathId)
        (is_fenced is_unnest_fence is_optional : bool)
        (declared : gset string) (subtrees : list Shape).

Fixpoint shape (fuel : nat) (st : Store) (n : NodeId) : option Shape :=
  match fuel with
  | 0 => None
  | S fuel =>
      nd ← st !! n;
      ts ← mapM (shape fuel st) (children nd);
      Some (SNode (unique_id nd) (path_id nd) (fenced nd) (unnest_fence nd)
                  (optional nd) (namespaces nd) ts)
  end.

(** The failures of the operations below: those of the scope tree, and
    the built-in [ValueError] and [RuntimeError]. *)
Inductive Failure :=
  | ScopeTreeError (e : Exception)
  | ValueError
  | RuntimeError.

Inductive Result (A : Type) :=
  | Done (a : A) (st : Store)
  | Fails (e : Failure)
  | Unfinished.
Arguments Done {A} a st.
Arguments Fails {A} e.
Arguments Unfinished {A}.

Definition X (A : Type) : Type := Store → Result A.

#[global] Instance X_ret : MRet X := λ A a st, Done a st.
#[global] Instance X_bind : MBind X := λ A B k m st,
  match m st with
  | Done a st' => k a st'
  | Fails e => Fails e
  | Unfinished => Unfinished
  end.

Definition fail {A} (e : Failure) : X A := λ _, Fails e.

(** An operation of the scope tree, run where more can fail. *)
Definition lift {A} (m : M A) : X A := λ st,
  match m st with
  | Returns a st' => Done a st'
  | Raises e => Fails (ScopeTreeError e)
  | Diverges => Unfinished
  end.

(** [for child in self.children: body(child)] on the live set.  The set
    iterator remembers the size of the set it was created on and raises
    [RuntimeError] when it is asked for an element, or for the end, of a
    set whose size has changed. *)
Fixpoint for_each_child (self : NodeId) (size : nat)
    (body : NodeId → X unit) (cs : list NodeId) : X unit :=
  λ st,
    match st !! self with
    | None => Unfinished
    | Some sn =>
        if bool_decide (length (children sn) = size) then
          match cs with
          | [] => Done () st
          | c :: cs => (body c ;; for_each_child self size body cs) st
          end
        else Fails RuntimeError
    end.

(** [collapse] *)
Definition collapse (fuel : nat) (self : NodeId) : X unit :=
  sn ← lift (get self);
  match parent sn with
  | None => fail ValueError
  | Some p =>
      subtree ←
        match path_id sn with
        | Some _ =>
            subtree ← lift (new_node (init None false None));
            for_each_child self (length (children sn))
              (λ child, lift (attach_child subtree child)) (children sn) ;;
            mret subtree
        | None => mret self
        end;
      lift (remove self) ;;
      lift (attach_subtree fuel p subtree)
  end.

(** [unfence] *)
Definition unfence (fuel : nat) (self : NodeId) : X NodeId :=
  sn ← lift (get self);
  match parent sn with
  | None => fail ValueError
  | Some p =>
      subtree ← lift (new_node (init None false None));
      lift (for_each (attach_child subtree) (children sn)) ;;
      lift (remove self) ;;
      parent_subtree ← lift (new_node (init None true None));
      lift (attach_child parent_subtree subtree) ;;
      lift (attach_subtree fuel p parent_subtree) ;;
      mret subtree
  end.

End restructuring.
Export restructuring.

(** ** Scopes recorded on sets *)

Module set_scopes.

(** The part of [irast.Set] the scope helpers use. *)
Record IrSet := mkSet {
  set_path_id : PathId;
  path_scope_id : option Z
}.

Definition with_unique_id (u : option Z) (n : ScopeTreeNode) :=
  mkNode u (path_id n) (fenced n) (protect_parent n)
         (unnest_fence n) (optional n) (children n) (namespaces n) (parent n).

(** [assign_set_scope].  [nextval] is what [ctx.scope_id_ctr.nextval()]
    returns when it is called; the counter belongs to the missing context
    module.  A node object is always true, so the test on [find_child]
    asks whether a child was found. *)
Definition assign_set_scope (fuel : nat) (ir_set : IrSet)
    (scope : option NodeId) (nextval : Z) : X IrSet :=
  match scope with
  | None => mret (mkSet (set_path_id ir_set) None)
  | Some s =>
      sn ← lift (get s);
      (if bool_decide (unique_id sn = None)
       then lift (update s (with_unique_id (Some nextval)))
       else mret ()) ;;
      sn ← lift (get s);
      found ← lift (query (λ st,
                 find_child fuel st s (set_path_id ir_set) false));
      match found with
      | Some _ => fail RuntimeError
      | None => mret (mkSet (set_path_id ir_set) (unique_id sn))
      end
  end.

(** [get_set_scope] *)
Definition get_set_scope (fuel : nat) (st : Store) (ir_set : IrSet)
    (ctx : ContextLevel) : option (option NodeId) :=
  match path_scope_id ir_set with
  | None => Some None
  | Some uid =>
      r ← root fuel st (path_scope ctx);
      find_by_unique_id fuel st r uid
  end.

End set_scopes.
Export set_scopes.
(** * Properties *)

(** ** Running operations *)

Lemma run_bind {A B} (m : M A) (k : A → M B) (st : Store) (a : A)
    (st1 : Store) :
  m st = Returns a st1 → (m ≫= k) st = k a st1.
Proof. intros H. unfold mbind, M_bind. by rewrite H. Qed.

Lemma bind_returns {A B} (m : M A) (k : A → M B) (st : Store) (b : B)
    (st' : Store) :
  (m ≫= k) st = Returns b st' →
  ∃ a st1, m st = Returns a st1 ∧ k a st1 = Returns b st'.
Proof.
  unfold mbind, M_bind. destruct (m st) as [a st1| |]; [|done..]. eauto.
Qed.

Lemma run_bind_raises {A B} (m : M A) (k : A → M B) (st : Store)
    (e : Exception) :
  m st = Raises e → (m ≫= k) st = Raises e.
Proof. intros H. unfold mbind, M_bind. by rewrite H. Qed.

Lemma merge_descendants_cons (fuse : NodeId → NodeId → M unit)
    (qfuel fuel : nat) (self node : NodeId) (dns : gset string)
    (d : NodeId) (rest : list NodeId) :
  merge_descendants fuse qfuel (S fuel) self node dns (d :: rest)
  = (merge_descendant fuse qfuel self node dns d ;;
     dn ← get d;
     merge_descendants fuse qfuel fuel self node dns (children dn ++ rest)).
Proof. reflexivity. Qed.

Lemma get_returns (st : Store) (n : NodeId) (nd : ScopeTreeNode) :
  st !! n = Some nd → get n st = Returns nd st.
Proof. intros H. unfold get, query. by rewrite H. Qed.

Lemma update_returns (st : Store) (n : NodeId) (nd : ScopeTreeNode)
    (f : ScopeTreeNode → ScopeTreeNode) :
  st !! n = Some nd → update n f st = Returns () (<[n := f nd]> st).
Proof. intros H. unfold update. by rewrite H. Qed.

(** ** Optionality queries on an invisible path *)

Section invisible_paths.

Variables (fuel : nat) (st : Store) (n : NodeId) (p : PathId).
Hypothesis not_visible : find_visible fuel st n p = Some None.

Lemma is_optional_invisible : is_optional fuel st n p = Some false.
Proof. unfold is_optional. by rewrite not_visible. Qed.

Lemma mark_as_optional_invisible :
  mark_as_optional fuel n p st = Returns () st.
Proof.
  unfold mark_as_optional, query, mbind, M_bind. by rewrite not_visible.
Qed.

End invisible_paths.

(** C10: when [find_visible] finds nothing for [p] from [n], [is_optional]
    answers false and [mark_as_optional] returns without raising and
    leaves the whole store, hence every node and every flag, as it was. *)
Theorem invisible_path_optionality (fuel : nat) (st : Store) (n : NodeId)
    (p : PathId) :
  find_visible fuel st n p = Some None →
  is_optional fuel st n p = Some false
  ∧ mark_as_optional fuel n p st = Returns () st.
Proof.
  intros H. split.
  - by apply is_optional_invisible.
  - by apply mark_as_optional_invisible.
Qed.

Lemma invisible_path_optionality_witness :
  find_visible 3 empty_root 0 path_A = Some None
  ∧ is_optional 3 empty_root 0 path_A = Some false
  ∧ mark_as_optional 3 0 path_A empty_root = Returns () empty_root.
Proof.
  split; [reflexivity|].
  apply (invisible_path_optionality 3 empty_root 0 path_A). reflexivity.
Defined.

(** ** Searching a list of children *)

Section find_first_facts.

Variables (st : Store) (test : ScopeTreeNode → bool).

Lemma find_first_found (cs : list NodeId) (c : NodeId) :
  find_first st test cs = Some (Some c) →
  c ∈ cs ∧ ∃ nd, st !! c = Some nd ∧ test nd = true.
Proof.
  induction cs as [|x cs IH]; simpl; [done|].
  destruct (st !! x) as [xn|] eqn:Hx; simpl; [|done].
  destruct (test xn) eqn:Ht.
  - intros [= <-]. split; [left|eauto].
  - intros H. destruct (IH H) as [Hin Hnd]. split; [by right|done].
Qed.

Lemma find_first_none (cs : list NodeId) :
  find_first st test cs = Some None ↔
  ∀ c, c ∈ cs → ∃ nd, st !! c = Some nd ∧ test nd = false.
Proof.
  induction cs as [|x cs IH]; simpl.
  - split; [|done]. intros _ c Hc. by apply elem_of_nil in Hc.
  - destruct (st !! x) as [xn|] eqn:Hx; simpl.
    + destruct (test xn) eqn:Ht.
      * split; [done|]. intros H. destruct (H x) as (nd & Hnd & Hf); [left|].
        congruence.
      * rewrite IH. split.
        -- intros H c [->|Hc]%elem_of_cons; eauto.
        -- intros H c Hc. apply H. by right.
    + split; [done|]. intros H. destruct (H x) as (nd & Hnd & _); [left|].
      congruence.
Qed.

Lemma find_first_total (cs : list NodeId) :
  (∀ c, c ∈ cs → is_Some (st !! c)) → is_Some (find_first st test cs).
Proof.
  induction cs as [|x cs IH]; simpl; intros Hall; [eauto|].
  destruct (Hall x) as [xn Hx]; [left|]. rewrite Hx. simpl.
  destruct (test xn); [eauto|]. apply IH. intros c Hc. apply Hall. by right.
Qed.

Lemma find_first_hit (cs : list NodeId) (c : NodeId) (nd : ScopeTreeNode) :
  (∀ x, x ∈ cs → is_Some (st !! x)) →
  c ∈ cs → st !! c = Some nd → test nd = true →
  ∃ c', find_first st test cs = Some (Some c').
Proof.
  intros Hall Hc Hnd Ht.
  destruct (find_first_total cs Hall) as [[c'|] Hr]; [eauto|].
  rewrite find_first_none in Hr. destruct (Hr c Hc) as (nd' & Hnd' & Hf).
  congruence.
Qed.

End find_first_facts.

(** ** Attaching a child *)

Section attach_child_facts.

Variables (st : Store) (P n : NodeId) (pn nd : ScopeTreeNode).
Hypothesis parent_node : st !! P = Some pn.
Hypothesis new_node : st !! n = Some nd.
Hypothesis children_allocated : ∀ x, x ∈ children pn → is_Some (st !! x).

(** A child of [P] labelled like [n] makes the attachment fail, and what
    is raised is the [TypeError] of the ill-formed constructor call. *)
Lemma attach_child_path_clash (c : NodeId) (cn : ScopeTreeNode) :
  c ∈ children pn → st !! c = Some cn →
  path_id nd ≠ None → path_id cn = path_id nd →
  attach_child P n st = Raises TypeError.
Proof.
  intros Hc Hcn Hp Heq.
  unfold attach_child, get, query, mbind, M_bind.
  rewrite new_node, parent_node.
  destruct (path_id nd) as [pid|] eqn:Hpid; [|done].
  destruct (find_first_hit st (λ c0, bool_decide (path_id c0 = Some pid))
              (children pn) c cn) as [c' Hc']; auto.
  { by apply bool_decide_eq_true. }
  by rewrite Hc'.
Qed.

Lemma attach_child_known_unique_id (u : Z) (c : NodeId) (cn : ScopeTreeNode) :
  unique_id nd = Some u →
  c ∈ children pn → st !! c = Some cn → unique_id cn = Some u →
  (path_id nd = None
   ∨ ∀ x xn, x ∈ children pn → st !! x = Some xn → path_id xn ≠ path_id nd) →
  attach_child P n st = Returns () st.
Proof.
  intros Hu Hc Hcn Hcu Hfree.
  unfold attach_child, get, query, mbind, M_bind.
  rewrite new_node, parent_node, Hu.
  assert (find_first st (λ c0, bool_decide (unique_id c0 = Some u))
            (children pn) ≠ Some None) as Hsame.
  { rewrite find_first_none. intros H.
    destruct (H c Hc) as (cn' & Hcn' & Hf).
    apply bool_decide_eq_false in Hf. congruence. }
  destruct (find_first_total st (λ c0, bool_decide (unique_id c0 = Some u))
              (children pn) children_allocated) as [[c'|] Hr]; [|done].
  destruct (path_id nd) as [pid|] eqn:Hpid.
  - destruct Hfree as [|Hfree]; [done|].
    assert (find_first st (λ c0, bool_decide (path_id c0 = Some pid))
              (children pn) = Some None) as ->.
    { apply find_first_none. intros x Hx.
      destruct (children_allocated x Hx) as [xn Hxn].
      exists xn. split; [done|]. apply bool_decide_eq_false. eauto. }
    simpl. by rewrite Hr.
  - simpl. by rewrite Hr.
Qed.

End attach_child_facts.

(** C3: attaching a node whose path a direct child already carries is
    meant to raise the invalid-scope-configuration error with both nodes;
    on the fence of [collision.siblings] the attachment raises, but the
    exception is the [TypeError] of the constructor call, so no
    invalid-scope-configuration error and no node reaches the caller. *)
Theorem attach_child_collision_type_error :
  attach_child 0 2 (collision.siblings None) = Raises TypeError
  ∧ ∀ offending existing,
      attach_child 0 2 (collision.siblings None)
      ≠ Raises (InvalidScopeConfiguration offending existing).
Proof. split; [reflexivity|]. intros offending existing. discriminate. Qed.

(** C4 (amended): when [n] carries a unique id that a child of [P]
    already has, and [n] has no path or no direct child of [P] carries
    [n]'s path, [attach_child] returns without raising and leaves the
    store unchanged. *)
Theorem attach_child_same_unique_id_noop (st : Store) (P n : NodeId)
    (pn nd : ScopeTreeNode) (u : Z) (c : NodeId) (cn : ScopeTreeNode) :
  st !! P = Some pn → st !! n = Some nd →
  (∀ x, x ∈ children pn → is_Some (st !! x)) →
  unique_id nd = Some u →
  c ∈ children pn → st !! c = Some cn → unique_id cn = Some u →
  (path_id nd = None
   ∨ ∀ x xn, x ∈ children pn → st !! x = Some xn → path_id xn ≠ path_id nd) →
  attach_child P n st = Returns () st.
Proof. intros. by eapply attach_child_known_unique_id. Qed.

Lemma attach_child_same_unique_id_noop_witness :
  attach_child 0 2 reattach.store = Returns () reattach.store.
Proof.
  apply (attach_child_same_unique_id_noop reattach.store 0 2
           (mkNode None None true false false false [1] ∅ None)
           (mkNode (Some 7%Z) (Some path_A) false false false false [] ∅ None)
           7%Z 1
           (mkNode (Some 7%Z) (Some path_A_b) false false false false [] ∅
                   (Some 0))).
  - reflexivity.
  - reflexivity.
  - intros x Hx. apply list_elem_of_singleton in Hx. subst x. by eexists.
  - reflexivity.
  - by left.
  - reflexivity.
  - reflexivity.
  - right. intros x xn Hx. apply list_elem_of_singleton in Hx. subst x.
    intros [= <-]. discriminate.
Defined.

(** C4 as stated fails: with equal unique ids and equal paths the path
    check comes first and the attachment raises. *)
Lemma attach_child_same_unique_id_collision :
  ¬ (∀ (st : Store) (P n : NodeId) (pn nd : ScopeTreeNode) (u : Z)
       (c : NodeId) (cn : ScopeTreeNode),
       st !! P = Some pn → st !! n = Some nd →
       unique_id nd = Some u →
       c ∈ children pn → st !! c = Some cn → unique_id cn = Some u →
       attach_child P n st = Returns () st).
Proof.
  intros H.
  specialize (H (collision.siblings (Some 7%Z)) 0 2
    (mkNode None None true false false false [1] ∅ None)
    (mkNode (Some 7%Z) (Some path_A) false false false false [] ∅ None)
    7%Z 1
    (mkNode (Some 7%Z) (Some path_A) false false false false [] ∅ (Some 0))
    eq_refl eq_refl eq_refl).
  specialize (H ltac:(by left) eq_refl eq_refl).
  discriminate H.
Qed.

(** ** Banned paths *)

(** C9 (amended): after [ban_path p], [path_is_banned q] is true exactly
    when the stripped form of [q] is that of [p] or of a path banned
    before, and [q] is moreover visible from the current path scope of
    the context; the check reads the scope tree besides the table. *)
Theorem path_is_banned_after_ban (strip : PathId → PathId) (fuel : nat)
    (st : Store) (p q : PathId) (ctx : ContextLevel) (v : option NodeId) :
  find_visible fuel st (path_scope ctx) q = Some v →
  path_is_banned strip fuel st q (ban_path strip p ctx)
  = Some (bool_decide (strip q = strip p ∨ strip q ∈ banned_paths ctx)
          && bool_decide (v ≠ None)).
Proof.
  intros Hv. unfold path_is_banned, ban_path, is_visible. simpl.
  rewrite Hv. simpl.
  destruct (decide (strip q = strip p ∨ strip q ∈ banned_paths ctx)) as [H|H].
  - rewrite (bool_decide_eq_true_2 (strip q ∈ strip p :: banned_paths ctx)).
    + by rewrite (bool_decide_eq_true_2 _ H).
    + apply elem_of_cons. done.
  - rewrite (bool_decide_eq_false_2 (strip q ∈ strip p :: banned_paths ctx)).
    + by rewrite (bool_decide_eq_false_2 _ H).
    + rewrite elem_of_cons. done.
Qed.

Lemma path_is_banned_after_ban_witness :
  path_is_banned strip_all_namespaces 3 empty_root path_A
    (ban_path strip_all_namespaces path_A banned.ctx)
  = Some (bool_decide
            (strip_all_namespaces path_A = strip_all_namespaces path_A
             ∨ strip_all_namespaces path_A ∈ banned_paths banned.ctx)
          && bool_decide (@None NodeId ≠ None)).
Proof.
  apply (path_is_banned_after_ban strip_all_namespaces 3 empty_root
           path_A path_A banned.ctx None).
  reflexivity.
Defined.

(** C9 as stated fails: a banned path that is not visible from the
    current scope is not reported as banned. *)
Lemma path_is_banned_needs_visibility :
  ¬ (∀ (fuel : nat) (st : Store) (p q : PathId) (ctx : ContextLevel),
       path_is_banned strip_all_namespaces fuel st q
         (ban_path strip_all_namespaces p ctx) = Some true
       ↔ strip_all_namespaces q = strip_all_namespaces p).
Proof.
  intros H.
  destruct (H 3 empty_root path_A path_A banned.ctx) as [_ H2].
  specialize (H2 eq_refl). discriminate H2.
Qed.

(** ** Ambiguous correlation *)

Lemma find_child_in_local_none (deeper deeper' : NodeId → option (option NodeId))
    (st : Store) (path : PathId) (cs : list NodeId) :
  find_child_in deeper st path true cs = Some None →
  find_child_in deeper' st path false cs = Some None.
Proof.
  induction cs as [|c cs IH]; simpl; [done|].
  destruct (st !! c) as [cn|]; simpl; [|done].
  destruct (bool_decide (path_id cn = Some path)); [done|].
  destruct (bool_decide (path_id cn = None) && negb (fenced cn)); [|done].
  destruct (deeper c) as [[d|]|]; simpl; done.
Qed.

(** Nothing in the branches means nothing among the direct children. *)
Lemma find_child_local_none (fuel : nat) (st : Store) (n : NodeId)
    (path : PathId) :
  find_child fuel st n path true = Some None →
  find_child fuel st n path false = Some None.
Proof.
  destruct fuel as [|fuel]; simpl; [done|].
  destruct (st !! n) as [nd|]; simpl; [|done].
  apply find_child_in_local_none.
Qed.

Lemma parent_fence_has_parent (fuel : nat) (st : Store) (d : NodeId)
    (dn : ScopeTreeNode) (f : NodeId) :
  st !! d = Some dn → parent_fence fuel st d = Some (Some f) →
  ∃ dp dpn, parent dn = Some dp ∧ st !! dp = Some dpn.
Proof.
  intros Hd. unfold parent_fence. rewrite Hd. simpl.
  destruct (parent dn) as [dp|]; [|by destruct fuel].
  destruct fuel as [|fuel]; simpl; [done|].
  destruct (st !! dp) as [dpn|] eqn:Hdp; [|done]. eauto.
Qed.

(** The loop body for a descendant whose correlation is ambiguous. *)
Lemma merge_descendant_ambiguous (fuse : NodeId → NodeId → M unit)
    (qfuel : nat) (st : Store) (self node : NodeId) (dns : gset string)
    (descendant : NodeId) (dn : ScopeTreeNode) (dpath : PathId)
    (ns : gset string) (existing pf : NodeId) :
  st !! descendant = Some dn → path_id dn = Some dpath →
  find_visible qfuel st self (strip_namespace dpath dns) = Some None →
  parent_fence qfuel st descendant = Some (Some node) →
  find_descendant_and_ns qfuel st self (strip_namespace dpath dns)
    = Some (None, ns) →
  find_unfenced qfuel st self (strip_namespace dpath dns)
    = Some (Some existing, true) →
  parent_fence qfuel st existing = Some (Some pf) →
  find_child qfuel st pf (strip_namespace dpath dns) true = Some None →
  ∃ dp dpn,
    parent dn = Some dp ∧ st !! dp = Some dpn
    ∧ merge_descendant fuse qfuel self node dns descendant st
      = Raises (InvalidScopeConfiguration
                  (if bool_decide (path_id dpn ≠ None) then dp else descendant)
                  existing).
Proof.
  intros Hd Hpath Hvis Hfence Hdesc Hunf Hpf Hlocal.
  destruct (parent_fence_has_parent _ _ _ _ _ Hd Hfence)
    as (dp & dpn & Hdp & Hdpn).
  exists dp, dpn. split; [done|]. split; [done|].
  pose proof (find_child_local_none _ _ _ _ Hlocal) as Hdirect.
  unfold merge_descendant, find_existing, hoist_existing, get, query,
    mbind, M_bind, mret, M_ret.
  rewrite Hd, Hpath. simpl. rewrite Hvis, Hfence.
  rewrite (bool_decide_eq_true_2 _ eq_refl).
  rewrite Hdesc. simpl. rewrite Hunf. simpl. rewrite Hpf. simpl.
  rewrite Hdirect, Hlocal. simpl. rewrite Hd, Hdp, Hdpn. done.
Qed.

(** C2: in [attach_subtree], when the first loop comes to an unfenced
    path descendant that is not visible from [self], is matched by no
    descendant of [self], and whose only match is an unfenced node met
    after an [unnest_fence] ancestor was crossed, while the fence of that
    match has no child with the path, not even inside its branches, the
    merge raises the invalid-scope-configuration error; the error carries
    the pre-existing match and the offending node (the parent of the
    descendant if it is a path node, the descendant otherwise). *)
Theorem ambiguous_correlation_raises (fuse : NodeId → NodeId → M unit)
    (qfuel fuel : nat) (st : Store) (self node : NodeId) (dns : gset string)
    (descendant : NodeId) (rest : list NodeId) (dn : ScopeTreeNode)
    (dpath : PathId) (ns : gset string) (existing pf : NodeId) :
  st !! descendant = Some dn → path_id dn = Some dpath →
  find_visible qfuel st self (strip_namespace dpath dns) = Some None →
  parent_fence qfuel st descendant = Some (Some node) →
  find_descendant_and_ns qfuel st self (strip_namespace dpath dns)
    = Some (None, ns) →
  find_unfenced qfuel st self (strip_namespace dpath dns)
    = Some (Some existing, true) →
  parent_fence qfuel st existing = Some (Some pf) →
  find_child qfuel st pf (strip_namespace dpath dns) true = Some None →
  ∃ dp dpn,
    parent dn = Some dp ∧ st !! dp = Some dpn
    ∧ attach_subtree_from fuse qfuel (S fuel) self node dns
        (descendant :: rest) st
      = Raises (InvalidScopeConfiguration
                  (if bool_decide (path_id dpn ≠ None) then dp else descendant)
                  existing).
Proof.
  intros Hd Hpath Hvis Hfence Hdesc Hunf Hpf Hlocal.
  destruct (merge_descendant_ambiguous fuse qfuel st self node dns descendant
              dn dpath ns existing pf) as (dp & dpn & Hdp & Hdpn & Hstep);
    try done.
  exists dp, dpn. split; [done|]. split; [done|].
  unfold attach_subtree_from. rewrite merge_descendants_cons.
  by do 2 apply run_bind_raises.
Qed.

Lemma ambiguous_correlation_raises_witness :
  ∃ dp dpn,
    parent (mkNode None (Some path_A_b) false false false false [] ∅ (Some 4))
      = Some dp
    ∧ scenario_C.store !! dp = Some dpn
    ∧ attach_subtree_from (fuse_subtree 5) 5 1 3 4 ∅ [5] scenario_C.store
      = Raises (InvalidScopeConfiguration
                  (if bool_decide (path_id dpn ≠ None) then dp else 5) 2).
Proof.
  apply (ambiguous_correlation_raises (fuse_subtree 5) 5 0 scenario_C.store
           3 4 ∅ 5 [] _ path_A_b ∅ 2 0); reflexivity.
Defined.

(** The same at the level of [attach_subtree], when the descendant is the
    first node of a structural incoming subtree. *)
Corollary attach_subtree_ambiguous_correlation (fuel : nat) (st : Store)
    (self node : NodeId) (rn : ScopeTreeNode) (dns : gset string)
    (descendant : NodeId) (rest : list NodeId) (dn : ScopeTreeNode)
    (dpath : PathId) (ns : gset string) (existing pf : NodeId) :
  st !! node = Some rn → path_id rn = None →
  children rn = descendant :: rest →
  descendant_namespaces fuel st node = Some dns →
  st !! descendant = Some dn → path_id dn = Some dpath →
  find_visible fuel st self (strip_namespace dpath dns) = Some None →
  parent_fence fuel st descendant = Some (Some node) →
  find_descendant_and_ns fuel st self (strip_namespace dpath dns)
    = Some (None, ns) →
  find_unfenced fuel st self (strip_namespace dpath dns)
    = Some (Some existing, true) →
  parent_fence fuel st existing = Some (Some pf) →
  find_child fuel st pf (strip_namespace dpath dns) true = Some None →
  ∃ offending,
    attach_subtree (S fuel) self node st
    = Raises (InvalidScopeConfiguration offending existing).
Proof.
  intros Hnode Hstruct Hkids Hdns Hd Hpath Hvis Hfence Hdesc Hunf Hpf Hlocal.
  destruct (merge_descendant_ambiguous
              (fuse_subtree_with (attach_subtree fuel)) fuel st self node dns
              descendant dn dpath ns existing pf)
    as (dp & dpn & Hdp & Hdpn & Hstep); try done.
  exists (if bool_decide (path_id dpn ≠ None) then dp else descendant).
  destruct fuel as [|fuel]; [done|].
  change (attach_subtree (S (S fuel)) self node st) with
    (('(root, dns) ← attach_subtree_dns (S fuel) node;
      rn ← get root;
      attach_subtree_from (fuse_subtree_with (attach_subtree (S fuel)))
        (S fuel) (S fuel) self root dns (children rn)) st).
  erewrite run_bind.
  2:{ unfold attach_subtree_dns. erewrite run_bind.
      2:{ unfold wrap_path_node.
          rewrite (run_bind _ _ _ _ _ (get_returns _ _ _ Hnode)).
          by rewrite Hstruct. }
      unfold query, mbind, M_bind. by rewrite Hdns. }
  cbv beta iota.
  rewrite (run_bind _ _ _ _ _ (get_returns _ _ _ Hnode)). rewrite Hkids.
  unfold attach_subtree_from. rewrite merge_descendants_cons.
  by do 2 apply run_bind_raises.
Qed.

(** Scenario C end to end: merging the incoming fence at the branch
    raises, naming the incoming reference and the node bound under [A]. *)
Example scenario_C_raises :
  attach_subtree 6 3 4 scenario_C.store
  = Raises (InvalidScopeConfiguration 5 2).
Proof. reflexivity. Qed.

(** ** Scenario A *)

(** C1 (amended): on a root with nothing in scope, whatever its flags,
    unique id and namespaces, attaching [A.b] and then [A.b.c] returns
    without raising and the tree under the root contains a node labelled
    [A.b].  With the prefixes enumerated as the path-id model does, the
    root ends up holding [A] over [A.b]; were they enumerated the other
    way round, it would hold [A.b] over [A], next to [A.b.c]. *)
Theorem scenario_A_attach_paths (uid : option Z) (is_fenced pp uf opt : bool)
    (ns : gset string) :
  tree_after 10 0
    ((attach_path 10 0 path_A_b ;; attach_path 10 0 path_A_b_c)
       [mkNode uid None is_fenced pp uf opt [] ns None])
  = Some (TNode None [TNode (Some path_A) [TNode (Some path_A_b) []]])
  ∧ tree_after 10 0
      ((attach_chain 10 0 (iter_prefixes true path_A_b) ;;
        attach_chain 10 0 (iter_prefixes true path_A_b_c))
         [mkNode uid None is_fenced pp uf opt [] ns None])
    = Some (TNode None [TNode (Some path_A_b) [TNode (Some path_A) []];
                        TNode (Some path_A_b_c) []]).
Proof. split; vm_compute; reflexivity. Qed.

(** C1 as stated fails: after the two attachments no node labelled [A.b]
    has a child labelled [A.b.c], in either order of enumeration of the
    prefixes. *)
Lemma scenario_A_no_nested_child :
  (∃ t, tree_after 10 0
          ((attach_path 10 0 path_A_b ;; attach_path 10 0 path_A_b_c)
             empty_root) = Some t
        ∧ has_label path_A_b t = true
        ∧ has_edge path_A_b path_A_b_c t = false)
  ∧ (∃ t, tree_after 10 0
            ((attach_chain 10 0 (iter_prefixes true path_A_b) ;;
              attach_chain 10 0 (iter_prefixes true path_A_b_c))
               empty_root) = Some t
          ∧ has_label path_A_b t = true
          ∧ has_edge path_A_b path_A_b_c t = false).
Proof.
  split.
  - exists (TNode None [TNode (Some path_A) [TNode (Some path_A_b) []]]).
    repeat split; vm_compute; reflexivity.
  - exists (TNode None [TNode (Some path_A_b) [TNode (Some path_A) []];
                        TNode (Some path_A_b_c) []]).
    repeat split; vm_compute; reflexivity.
Qed.

(** ** Visibility along the parent chain *)

Lemma paths_equal_refl (p : PathId) (nss : gset string) :
  _paths_equal (Some p) (Some p) nss = true.
Proof.
  unfold _paths_equal. destruct (bool_decide (nss ≠ ∅));
    by apply bool_decide_eq_true.
Qed.

Lemma strip_namespace_mono (p1 p2 : PathId) (nss nss' : gset string) :
  nss ⊆ nss' →
  strip_namespace p1 nss = strip_namespace p2 nss →
  strip_namespace p1 nss' = strip_namespace p2 nss'.
Proof.
  intros Hsub. unfold strip_namespace. intros [= Hr Hs Hl Hp Hn].
  rewrite Hr, Hs, Hl, Hp. f_equal.
  apply set_eq. intros x. rewrite !elem_of_difference.
  assert (x ∈ namespace p1 ∖ nss ↔ x ∈ namespace p2 ∖ nss) as Hx
    by (by rewrite Hn).
  rewrite !elem_of_difference in Hx. pose proof (Hsub x). tauto.
Qed.

(** Stripping more namespaces never separates two paths. *)
Lemma paths_equal_mono (p1 p2 : option PathId) (nss nss' : gset string) :
  nss ⊆ nss' →
  _paths_equal p1 p2 nss = true → _paths_equal p1 p2 nss' = true.
Proof.
  intros Hsub. unfold _paths_equal.
  destruct p1 as [p1|], p2 as [p2|]; try done.
  destruct (decide (nss = ∅)) as [->|Hne].
  - rewrite (bool_decide_eq_false_2 (∅ ≠ ∅)) by (intros H; by apply H).
    intros ->%bool_decide_eq_true.
    destruct (bool_decide (nss' ≠ ∅)); by apply bool_decide_eq_true.
  - rewrite (bool_decide_eq_true_2 _ Hne).
    intros Heq%bool_decide_eq_true.
    assert (nss' ≠ ∅) as Hne'.
    { intros ->. by apply Hne, equiv_empty_L. }
    rewrite (bool_decide_eq_true_2 _ Hne').
    apply bool_decide_eq_true. by eapply strip_namespace_mono.
Qed.

Section links.

Variable st : Store.
Hypothesis links : consistent st = true.

Lemma consistent_node (x : NodeId) (nd : ScopeTreeNode) :
  st !! x = Some nd →
  child_links_ok st x nd = true ∧ parent_link_ok st x nd = true.
Proof using links.
  intros Hx. unfold consistent in links.
  apply Is_true_true_2, forallb_True in links.
  rewrite Forall_forall in links.
  specialize (links (x, nd)). simpl in links.
  apply andb_true_iff, Is_true_true_1, links.
  apply elem_of_lookup_imap. eauto.
Qed.

Lemma consistent_child (x : NodeId) (nd : ScopeTreeNode) (c : NodeId) :
  st !! x = Some nd → c ∈ children nd →
  ∃ cn, st !! c = Some cn ∧ parent cn = Some x.
Proof using links.
  intros Hx Hc. destruct (consistent_node x nd Hx) as [Hch _].
  unfold child_links_ok in Hch.
  apply Is_true_true_2, forallb_True in Hch.
  rewrite Forall_forall in Hch. specialize (Hch c Hc).
  destruct (st !! c) as [cn|]; [|done].
  apply bool_decide_unpack in Hch. eauto.
Qed.

Lemma consistent_parent (x : NodeId) (nd : ScopeTreeNode) (p : NodeId) :
  st !! x = Some nd → parent nd = Some p →
  ∃ pn, st !! p = Some pn ∧ x ∈ children pn.
Proof using links.
  intros Hx Hp. destruct (consistent_node x nd Hx) as [_ Hpar].
  unfold parent_link_ok in Hpar. rewrite Hp in Hpar.
  destruct (st !! p) as [pn|]; [|done].
  apply bool_decide_eq_true in Hpar. eauto.
Qed.

Lemma children_allocated (x : NodeId) (nd : ScopeTreeNode) :
  st !! x = Some nd → ∀ c, c ∈ children nd → is_Some (st !! c).
Proof using links.
  intros Hx c Hc. destruct (consistent_child x nd c Hx Hc) as (cn & -> & _).
  by eexists.
Qed.

Lemma reaches_snoc (k : nat) (d c n : NodeId) (cn : ScopeTreeNode) :
  reaches st k d c → st !! c = Some cn → parent cn = Some n →
  reaches st (S k) d n.
Proof.
  induction 1 as [c|k d nd p c Hd Hp Hr IH]; intros Hc Hn.
  - eapply reaches_up; eauto. constructor.
  - eapply reaches_up; eauto.
Qed.

Lemma reaches_trans (j k : nat) (a b c : NodeId) :
  reaches st j a b → reaches st k b c → reaches st (j + k) a c.
Proof.
  induction 1 as [b|j a nd p b Ha Hp Hr IH]; intros Hbc; simpl; [done|].
  eapply reaches_up; eauto.
Qed.

(** A node listed by [strict_descendants] climbs back to the start. *)
Lemma strict_descendants_reaches (fuel : nat) (n : NodeId)
    (ds : list NodeId) (d : NodeId) :
  strict_descendants fuel st n = Some ds → d ∈ ds →
  ∃ k, k < fuel ∧ reaches st (S k) d n.
Proof using links.
  revert n ds. induction fuel as [|fuel IH]; intros n ds; simpl; [done|].
  destruct (st !! n) as [nd|] eqn:Hn; simpl; [|done].
  assert (∀ cs, (∀ c, c ∈ cs → c ∈ children nd) → ∀ ds,
            foldr (λ child rest,
                     ds ← strict_descendants fuel st child;
                     r ← rest;
                     Some (child :: ds ++ r)) (Some []) cs = Some ds →
            d ∈ ds → ∃ k, k < S fuel ∧ reaches st (S k) d n) as Hcs.
  { induction cs as [|c cs IHcs]; intros Hsub ds'; simpl.
    - intros [= <-] Hd. by apply elem_of_nil in Hd.
    - destruct (strict_descendants fuel st c) as [dc|] eqn:Hdc; simpl; [|done].
      destruct (foldr _ _ cs) as [r|] eqn:Hr; simpl; [|done].
      intros [= <-] Hd.
      destruct (consistent_child n nd c Hn) as (cn & Hcn & Hpc).
      { apply Hsub. left. }
      apply elem_of_cons in Hd as [->|Hd].
      + exists 0. split; [lia|]. eapply reaches_up; eauto. constructor.
      + apply elem_of_app in Hd as [Hd|Hd].
        * destruct (IH c dc Hdc Hd) as (k & Hk & Hreach).
          exists (S k). split; [lia|]. by eapply reaches_snoc.
        * apply (IHcs (λ c' Hc', Hsub c' (list_elem_of_further _ _ _ Hc'))
                   r eq_refl Hd). }
  by apply Hcs.
Qed.

(** A node reached by climbing is listed by [ancestors]. *)
Lemma reaches_ancestors (k : nat) (n a : NodeId) (fuel : nat)
    (la : list NodeId) :
  reaches st k n a → ancestors fuel st n = Some la → a ∈ la.
Proof.
  unfold ancestors. intros Hr. revert fuel la.
  induction Hr as [n|k d nd p n Hd Hp Hr IH]; intros fuel la.
  - destruct fuel as [|fuel]; simpl; [done|].
    destruct (st !! n) as [nd|]; simpl; [|done].
    destruct (ancestors_from fuel st (parent nd)); simpl; [|done].
    intros [= <-]. left.
  - destruct fuel as [|fuel]; simpl; [done|].
    rewrite Hd. simpl. rewrite Hp.
    destruct (ancestors_from fuel st (Some p)) as [lp|] eqn:Hlp; simpl; [|done].
    intros [= <-]. right. by eapply IH.
Qed.

Section search.

Variable p : PathId.

Lemma find_visible_from_fuel (fuel extra : nat) (nss ans : gset string)
    (node : option NodeId) (r : option NodeId) :
  find_visible_from fuel st p nss ans node = Some r →
  find_visible_from (fuel + extra) st p nss ans node = Some r.
Proof.
  revert nss ans node. induction fuel as [|fuel IH]; intros nss ans node.
  - destruct node; simpl; [done|]. intros [= <-]. by destruct extra.
  - destruct node as [n|]; simpl; [|done].
    destruct (st !! n) as [nd|]; simpl; [|done].
    destruct (_paths_equal (path_id nd) (Some p) nss); [done|].
    destruct (find_first st _ (children nd)) as [[c|]|]; simpl; try done.
    apply IH.
Qed.

(** With larger namespace sets the search still succeeds. *)
Lemma find_visible_from_mono (fuel : nat) (nss ans nss' ans' : gset string)
    (node : option NodeId) (v : NodeId) :
  nss ⊆ nss' → ans ⊆ ans' →
  find_visible_from fuel st p nss ans node = Some (Some v) →
  ∃ w, find_visible_from fuel st p nss' ans' node = Some (Some w).
Proof using links.
  revert nss ans nss' ans' node.
  induction fuel as [|fuel IH]; intros nss ans nss' ans' node Hn Ha.
  - destruct node; simpl; done.
  - destruct node as [n|]; simpl; [|done].
    destruct (st !! n) as [nd|] eqn:Hnd; simpl; [|done].
    destruct (_paths_equal (path_id nd) (Some p) nss') eqn:Hself'; [eauto|].
    destruct (find_first_total st
                (λ c, _paths_equal (path_id c) (Some p) nss') (children nd)
                (children_allocated n nd Hnd)) as [[c'|] Hc']; rewrite Hc';
      simpl; [eauto|].
    destruct (_paths_equal (path_id nd) (Some p) nss) eqn:Hself.
    { apply (paths_equal_mono _ _ _ _ Hn) in Hself. congruence. }
    destruct (find_first st (λ c, _paths_equal (path_id c) (Some p) nss)
                (children nd)) as [[c|]|] eqn:Hc; simpl;
      [|apply IH; [apply union_mono; [done|]|]; by apply union_mono_r|done].
    intros _. apply find_first_found in Hc as (Hin & cn & Hcn & Ht).
    rewrite find_first_none in Hc'.
    destruct (Hc' c Hin) as (cn' & Hcn' & Hf).
    apply (paths_equal_mono _ _ _ _ Hn) in Ht. congruence.
Qed.

(** What is visible from a node is visible from every node below it. *)
Lemma find_visible_from_below (k : nat) (d n : NodeId) :
  reaches st k d n →
  ∀ (fuel : nat) (nss ans nss' ans' : gset string) (v : NodeId),
    nss ⊆ nss' → ans ⊆ ans' →
    find_visible_from fuel st p nss ans (Some n) = Some (Some v) →
    ∃ w, find_visible_from (k + fuel) st p nss' ans' (Some d) = Some (Some w).
Proof using links.
  induction 1 as [n|k d nd q n Hd Hq Hr IH];
    intros fuel nss ans nss' ans' v Hn Ha Hv.
  - by eapply find_visible_from_mono.
  - simpl. rewrite Hd. simpl.
    destruct (_paths_equal (path_id nd) (Some p) nss'); [eauto|].
    destruct (find_first_total st
                (λ c, _paths_equal (path_id c) (Some p) nss') (children nd)
                (children_allocated d nd Hd)) as [[c'|] Hc']; rewrite Hc';
      simpl; [eauto|].
    rewrite Hq. eapply IH; [| |done]; by apply union_subseteq_l'.
Qed.

(** The node found is an ancestor of the start or a child of one. *)
Lemma find_visible_from_origin (fuel : nat) (nss ans : gset string)
    (n x : NodeId) :
  find_visible_from fuel st p nss ans (Some n) = Some (Some x) →
  ∃ j a, reaches st j n a
         ∧ (x = a ∨ ∃ an, st !! a = Some an ∧ x ∈ children an).
Proof.
  revert nss ans n. induction fuel as [|fuel IH]; intros nss ans n; simpl;
    [done|].
  destruct (st !! n) as [nd|] eqn:Hnd; simpl; [|done].
  destruct (_paths_equal (path_id nd) (Some p) nss).
  { intros [= <-]. exists 0, n. split; [constructor|by left]. }
  destruct (find_first st _ (children nd)) as [[c|]|] eqn:Hc; simpl; [| |done].
  - intros [= <-]. apply find_first_found in Hc as [Hin _].
    exists 0, n. split; [constructor|]. right. eauto.
  - destruct (parent nd) as [q|] eqn:Hq; [|by destruct fuel].
    intros Hrec. destruct (IH _ _ _ Hrec) as (j & a & Hr & Hx).
    exists (S j), a. split; [|done]. eapply reaches_up; eauto.
Qed.

(** The search returns whenever the parent chain can be walked. *)
Lemma find_visible_from_total (fuel : nat) (nss ans : gset string)
    (node : option NodeId) (la : list NodeId) :
  ancestors_from fuel st node = Some la →
  is_Some (find_visible_from fuel st p nss ans node).
Proof using links.
  revert nss ans node la.
  induction fuel as [|fuel IH]; intros nss ans node la.
  - destruct node; simpl; [done|eauto].
  - destruct node as [n|]; simpl; [|eauto].
    destruct (st !! n) as [nd|] eqn:Hnd; simpl; [|done].
    destruct (ancestors_from fuel st (parent nd)) as [lp|] eqn:Hlp; simpl;
      [|done].
    intros _.
    destruct (_paths_equal (path_id nd) (Some p) nss); [eauto|].
    destruct (find_first_total st
                (λ c, _paths_equal (path_id c) (Some p) nss) (children nd)
                (children_allocated n nd Hnd)) as [[c'|] Hc']; rewrite Hc';
      simpl; [eauto|].
    by eapply IH.
Qed.

End search.

End links.

(** ** Visibility going deeper *)

Lemma find_visible_monotone_aux (st : Store) (n d : NodeId) (p : PathId)
    (f1 f2 : nat) (ds : list NodeId) (v : NodeId) :
  consistent st = true →
  descendants f1 st n = Some ds → d ∈ ds →
  find_visible f2 st n p = Some (Some v) →
  ∃ w, find_visible (f1 + f2) st d p = Some (Some w).
Proof.
  intros Hlinks Hds Hd Hv. unfold descendants in Hds.
  destruct (strict_descendants f1 st n) as [ds'|] eqn:Hds'; [|done].
  simpl in Hds. injection Hds as <-.
  unfold find_visible in *.
  apply elem_of_cons in Hd as [->|Hd].
  - exists v. rewrite Nat.add_comm. by apply find_visible_from_fuel.
  - destruct (strict_descendants_reaches st Hlinks f1 n ds' d Hds' Hd)
      as (k & Hk & Hreach).
    destruct (find_visible_from_below st Hlinks p (S k) d n Hreach
                f2 ∅ ∅ ∅ ∅ v) as [w Hw]; [done..|].
    exists w. replace (f1 + f2) with (S k + f2 + (f1 - S k)) by lia.
    by apply find_visible_from_fuel.
Qed.

(** C7: in a tree whose links are consistent, if [find_visible p] finds a
    node from [n], it finds one from every descendant [d] of [n] as
    well. *)
Theorem find_visible_monotone (st : Store) (n d : NodeId) (p : PathId)
    (f1 f2 : nat) (ds : list NodeId) (v : NodeId) :
  consistent st = true →
  descendants f1 st n = Some ds → d ∈ ds →
  find_visible f2 st n p = Some (Some v) →
  ∃ w, find_visible (f1 + f2) st d p = Some (Some w).
Proof. apply find_visible_monotone_aux. Qed.

Lemma find_visible_monotone_witness :
  ∃ w, find_visible (3 + 3) fenced_scope.store 6 path_A = Some (Some w).
Proof.
  apply (find_visible_monotone fenced_scope.store 4 6 path_A 3 3 [4; 6] 6).
  - reflexivity.
  - reflexivity.
  - right. left.
  - reflexivity.
Defined.

(** ** Fences *)

(** The sample store is what [attach_fence] and [attach_path] build. *)
Example fenced_scope_built :
  fenced_scope.build empty_root = Returns () fenced_scope.store.
Proof. reflexivity. Qed.

(** C6 (amended): let [d] be a path node strictly below a node [F], fenced
    or not, in a tree whose links are consistent.  From a node that is
    not in the subtree of [F], [find_visible] with the path of [d]
    returns, and what it returns is never [d] nor any other node strictly
    below [F]; it need not be None, since the same path may be bound
    outside.  From every node at or below the parent of [d] it returns a
    node. *)
Theorem fence_containment (st : Store) (F d : NodeId) (dn : ScopeTreeNode)
    (p : PathId) (f : nat) (ds : list NodeId) :
  consistent st = true →
  strict_descendants f st F = Some ds → d ∈ ds →
  st !! d = Some dn → path_id dn = Some p →
  (∀ n g la,
     ancestors g st n = Some la → F ∉ la →
     ∃ r, find_visible g st n p = Some r ∧ ∀ x, r = Some x → x ∉ ds)
  ∧ (∀ P n g ls,
       parent dn = Some P → descendants g st P = Some ls → n ∈ ls →
       ∃ w, find_visible (g + 1) st n p = Some (Some w)).
Proof.
  intros Hlinks Hds Hd Hdn Hp. split.
  - intros n g la Hla HF.
    destruct (find_visible_from_total st Hlinks p g ∅ ∅ (Some n) la Hla)
      as [r Hr].
    exists r. split; [done|]. intros x -> Hx.
    destruct (strict_descendants_reaches st Hlinks f F ds x Hds Hx)
      as (k & _ & Hreach).
    destruct (find_visible_from_origin st p g ∅ ∅ n x Hr)
      as (j & a & Hna & [->|(an & Han & Hxa)]).
    + apply HF. eapply reaches_ancestors; [|done].
      eapply reaches_trans; eauto.
    + destruct (consistent_child st Hlinks a an x Han Hxa) as (xn & Hxn & Hpx).
      inversion Hreach as [|k' x' xn' q F' Hx' Hq Hrest]; subst.
      assert (q = a) as -> by congruence.
      apply HF. eapply reaches_ancestors; [|done].
      eapply reaches_trans; eauto.
  - intros P n g ls HP Hls Hn.
    destruct (consistent_parent st Hlinks d dn P Hdn HP) as (pn & HPn & HdP).
    assert (∃ v, find_visible 1 st P p = Some (Some v)) as [v Hv].
    { unfold find_visible. simpl. rewrite HPn. simpl.
      destruct (_paths_equal (path_id pn) (Some p) ∅); [eauto|].
      destruct (find_first_hit st (λ c, _paths_equal (path_id c) (Some p) ∅)
                  (children pn) d dn) as [c Hc]; auto.
      - by apply (children_allocated st Hlinks P).
      - rewrite Hp. apply paths_equal_refl.
      - rewrite Hc. simpl. eauto. }
    by eapply find_visible_monotone_aux.
Qed.

Lemma fence_containment_witness :
  (∀ n g la,
     ancestors g fenced_scope.store n = Some la → 1 ∉ la →
     ∃ r, find_visible g fenced_scope.store n path_A = Some r
          ∧ ∀ x, r = Some x → x ∉ [3])
  ∧ (∀ P n g ls,
       parent (mkNode None (Some path_A) false false false false [] ∅
                      (Some 1)) = Some P →
       descendants g fenced_scope.store P = Some ls → n ∈ ls →
       ∃ w, find_visible (g + 1) fenced_scope.store n path_A = Some (Some w)).
Proof.
  apply (fence_containment fenced_scope.store 1 3
           (mkNode None (Some path_A) false false false false [] ∅ (Some 1))
           path_A 3 [3]).
  - reflexivity.
  - reflexivity.
  - left.
  - reflexivity.
  - reflexivity.
Defined.

(** C6 as stated fails: from a sibling fence that binds the same path on
    its own, [find_visible] returns that binding, not None. *)
Lemma fence_containment_outer_binding :
  ¬ (∀ (st : Store) (F : NodeId) (Fn : ScopeTreeNode) (d : NodeId)
       (dn : ScopeTreeNode) (p : PathId) (f : nat) (ds : list NodeId)
       (n : NodeId) (nn : ScopeTreeNode) (g : nat),
       consistent st = true →
       st !! F = Some Fn → fenced Fn = true → path_id Fn ≠ Some p →
       strict_descendants f st F = Some ds → d ∈ ds →
       st !! d = Some dn → path_id dn = Some p →
       st !! n = Some nn → n ≠ F → parent nn = parent Fn →
       find_visible g st n p = Some None).
Proof.
  intros H.
  specialize (H fenced_scope.store 1
    (mkNode None None true false false false [3] ∅ (Some 0)) 3
    (mkNode None (Some path_A) false false false false [] ∅ (Some 1))
    path_A 3 [3] 4
    (mkNode None None true false false false [6] ∅ (Some 0)) 3
    eq_refl eq_refl eq_refl).
  specialize (H ltac:(discriminate) eq_refl ltac:(left) eq_refl eq_refl
                eq_refl ltac:(discriminate) eq_refl).
  discriminate H.
Qed.

(** ** What the operations leave untouched *)

Section preservation.

(** A relation between the old and the new contents of a node that no
    step of an operation breaks. *)
Variable R : ScopeTreeNode → ScopeTreeNode → Prop.
Hypothesis R_refl : ∀ nd, R nd nd.
Hypothesis R_trans : ∀ a b c, R a b → R b c → R a c.
Hypothesis R_parent : ∀ p nd, R nd (with_parent p nd).
Hypothesis R_children : ∀ f nd, R nd (with_children f nd).
Hypothesis R_path_id : ∀ p nd, R nd (with_path_id p nd).
Hypothesis R_optional : ∀ nd, R nd (with_optional true nd).

Lemma related_refl (st : Store) : related R st st.
Proof using R_refl. intros x nd Hx. eauto. Qed.

Lemma related_trans (st1 st2 st3 : Store) :
  related R st1 st2 → related R st2 st3 → related R st1 st3.
Proof using R_trans.
  intros H12 H23 x nd Hx.
  destruct (H12 x nd Hx) as (nd2 & Hx2 & HR2).
  destruct (H23 x nd2 Hx2) as (nd3 & Hx3 & HR3). eauto.
Qed.

Lemma preserves_ret {A} (a : A) : preserves R (mret a).
Proof using R_refl. intros st a' st' [= _ <-]. apply related_refl. Qed.

Lemma preserves_bind {A B} (m : M A) (k : A → M B) :
  preserves R m → (∀ a, preserves R (k a)) → preserves R (m ≫= k).
Proof using R_trans.
  intros Hm Hk st b st'. unfold mbind, M_bind.
  destruct (m st) as [a st1| |] eqn:Hmst; [|done..].
  intros Hkst. eapply related_trans; [by eapply Hm|by eapply Hk].
Qed.

Lemma preserves_raise {A} (e : Exception) : preserves R (@raise A e).
Proof. by intros st a st'. Qed.

Lemma preserves_diverge {A} : preserves R (@diverge A).
Proof. by intros st a st'. Qed.

Lemma preserves_query {A} (q : Store → option A) : preserves R (query q).
Proof using R_refl.
  intros st a st'. unfold query. destruct (q st); [|done].
  intros [= _ <-]. apply related_refl.
Qed.

Lemma preserves_get (n : NodeId) : preserves R (get n).
Proof using R_refl. apply preserves_query. Qed.

Lemma preserves_new_node (nd : ScopeTreeNode) : preserves R (new_node nd).
Proof using R_refl.
  intros st a st' [= _ <-] x xn Hx. exists xn. split; [|done].
  by apply lookup_app_l_Some.
Qed.

Lemma preserves_update (n : NodeId) (f : ScopeTreeNode → ScopeTreeNode) :
  (∀ nd, R nd (f nd)) → preserves R (update n f).
Proof using R_refl.
  intros Hf st a st'. unfold update.
  destruct (st !! n) as [nd|] eqn:Hn; [|done].
  intros [= _ <-] x xn Hx. destruct (decide (x = n)) as [->|Hne].
  - exists (f nd). split.
    + apply list_lookup_insert_eq. by eapply lookup_lt_Some.
    + assert (xn = nd) as -> by congruence. apply Hf.
  - exists xn. split; [|done]. by rewrite list_lookup_insert_ne.
Qed.

Lemma preserves_for_each {A} (body : A → M unit) (xs : list A) :
  (∀ x, preserves R (body x)) → preserves R (for_each body xs).
Proof using R_refl R_trans.
  intros Hbody. induction xs as [|x xs IH]; simpl.
  - apply preserves_ret.
  - apply preserves_bind; [apply Hbody|]. by intros _.
Qed.

Ltac preserves_step :=
  lazymatch goal with
  | |- preserves R (mret _) => apply preserves_ret
  | |- preserves R (raise _) => apply preserves_raise
  | |- preserves R diverge => apply preserves_diverge
  | |- preserves R (query _) => apply preserves_query
  | |- preserves R (get _) => apply preserves_get
  | |- preserves R (new_node _) => apply preserves_new_node
  | |- preserves R (update _ (with_parent _)) =>
      apply preserves_update; intros; apply R_parent
  | |- preserves R (update _ (with_children _)) =>
      apply preserves_update; intros; apply R_children
  | |- preserves R (update _ (with_path_id _)) =>
      apply preserves_update; intros; apply R_path_id
  | |- preserves R (update _ (with_optional true)) =>
      apply preserves_update; intros; apply R_optional
  | |- preserves R (for_each _ _) => apply preserves_for_each; intros ?
  | |- preserves R (_ ≫= _) => apply preserves_bind; [|intros ?]
  | |- preserves R (match ?x with _ => _ end) => destruct x
  end.

Ltac preserves_all := repeat preserves_step.

Lemma preserves_set_parent (self : NodeId) (p : option NodeId) :
  preserves R (_set_parent self p).
Proof using R_refl R_trans R_parent R_children.
  unfold _set_parent. preserves_all.
Qed.

Lemma preserves_attach_child (self node : NodeId) :
  preserves R (attach_child self node).
Proof using R_refl R_trans R_parent R_children.
  unfold attach_child. preserves_all; apply preserves_set_parent.
Qed.

Lemma preserves_remove (self : NodeId) : preserves R (remove self).
Proof using R_refl R_trans R_parent R_children.
  unfold remove, remove_subtree. preserves_all; apply preserves_set_parent.
Qed.

Lemma preserves_remove_descendants (fuel : nat) (self : NodeId) (p : PathId) :
  preserves R (remove_descendants fuel self p).
Proof using R_refl R_trans R_parent R_children.
  unfold remove_descendants. preserves_all. apply preserves_remove.
Qed.

Lemma preserves_find_existing (fuel : nat) (self : NodeId) (p : PathId) :
  preserves R (find_existing fuel self p).
Proof using R_refl R_trans.
  unfold find_existing. preserves_all.
Qed.

Lemma preserves_hoist_existing (fuel : nat) (d : NodeId) (p : PathId)
    (e : NodeId) (ns : gset string) (unnest : bool) (pf : NodeId) :
  preserves R (hoist_existing fuel d p e ns unnest pf).
Proof using R_refl R_trans R_parent R_children R_path_id.
  unfold hoist_existing. preserves_all;
    first [apply preserves_remove_descendants | apply preserves_attach_child].
Qed.

Section merging.

Variable fuse : NodeId → NodeId → M unit.
Hypothesis preserves_fuse : ∀ self node, preserves R (fuse self node).

Lemma preserves_merge_descendant (fuel : nat) (self node : NodeId)
    (dns : gset string) (d : NodeId) :
  preserves R (merge_descendant fuse fuel self node dns d).
Proof using All.
  unfold merge_descendant. preserves_all;
    first [ apply preserves_remove | apply preserves_find_existing
          | apply preserves_hoist_existing | apply preserves_fuse ].
Qed.

Lemma preserves_merge_descendants (qfuel fuel : nat) (self node : NodeId)
    (dns : gset string) (pending : list NodeId) :
  preserves R (merge_descendants fuse qfuel fuel self node dns pending).
Proof using All.
  revert pending. induction fuel as [|fuel IH]; intros pending.
  - destruct pending; simpl; preserves_all.
  - destruct pending as [|d rest]; simpl; preserves_all.
    + apply preserves_merge_descendant.
    + apply IH.
Qed.

End merging.

Lemma preserves_attach_remaining (fuel : nat) (self node : NodeId) :
  preserves R (attach_remaining fuel self node).
Proof using R_refl R_trans R_parent R_children R_path_id.
  unfold attach_remaining. preserves_all. apply preserves_attach_child.
Qed.

Lemma preserves_attach_subtree_from (fuse : NodeId → NodeId → M unit)
    (qfuel fuel : nat) (self root : NodeId) (dns : gset string)
    (pending : list NodeId) :
  (∀ x y, preserves R (fuse x y)) →
  preserves R (attach_subtree_from fuse qfuel fuel self root dns pending).
Proof using All.
  intros Hfuse. unfold attach_subtree_from. preserves_all.
  - by apply preserves_merge_descendants.
  - apply preserves_attach_remaining.
Qed.

Lemma preserves_attach_subtree_dns (fuel : nat) (node : NodeId) :
  preserves R (attach_subtree_dns fuel node).
Proof using R_refl R_trans R_parent R_children.
  unfold attach_subtree_dns, wrap_path_node. preserves_all.
  apply preserves_attach_child.
Qed.

Lemma preserves_fuse_subtree_with (attach : NodeId → NodeId → M unit)
    (self node : NodeId) :
  (∀ a b, preserves R (attach a b)) →
  preserves R (fuse_subtree_with attach self node).
Proof using All.
  intros Hattach. unfold fuse_subtree_with. preserves_all;
    first [ apply preserves_remove | apply preserves_attach_child
          | apply Hattach ].
Qed.

Lemma preserves_attach_subtree (fuel : nat) (self node : NodeId) :
  preserves R (attach_subtree fuel self node).
Proof using All.
  revert self node. induction fuel as [|fuel IH]; intros self node; simpl.
  - apply preserves_diverge.
  - preserves_all.
    + apply preserves_attach_subtree_dns.
    + apply preserves_attach_subtree_from. intros x y.
      by apply preserves_fuse_subtree_with.
Qed.

Lemma preserves_fuse_subtree (fuel : nat) (self node : NodeId) :
  preserves R (fuse_subtree fuel self node).
Proof using All.
  apply preserves_fuse_subtree_with. intros x y.
  apply preserves_attach_subtree.
Qed.

End preservation.

(** ** Optionality across merges *)

Lemma related_keeps_optional (st st' : Store) :
  related flag_kept st st' → keeps_optional st st'.
Proof.
  intros Hrel x. unfold optional_at.
  destruct (st !! x) as [nd|] eqn:Hx; [|done].
  destruct (Hrel x nd Hx) as (nd' & -> & Hflag). apply Hflag.
Qed.

Lemma attach_subtree_keeps_optional (fuel : nat) (self node : NodeId)
    (st st' : Store) :
  attach_subtree fuel self node st = Returns () st' → keeps_optional st st'.
Proof.
  intros H. apply related_keeps_optional.
  by eapply (preserves_attach_subtree flag_kept); try done;
    unfold flag_kept; auto.
Qed.

Lemma fuse_subtree_keeps_optional (fuel : nat) (self node : NodeId)
    (st st' : Store) :
  fuse_subtree fuel self node st = Returns () st' → keeps_optional st st'.
Proof.
  intros H. apply related_keeps_optional.
  by eapply (preserves_fuse_subtree flag_kept); try done;
    unfold flag_kept; auto.
Qed.

Lemma flag_kept_laws :
  (∀ nd, flag_kept nd nd)
  ∧ (∀ a b c, flag_kept a b → flag_kept b c → flag_kept a c)
  ∧ (∀ p nd, flag_kept nd (with_parent p nd))
  ∧ (∀ f nd, flag_kept nd (with_children f nd))
  ∧ (∀ p nd, flag_kept nd (with_path_id p nd))
  ∧ (∀ nd, flag_kept nd (with_optional true nd)).
Proof. unfold flag_kept. repeat split; auto. Qed.

Lemma attach_subtree_from_keeps_optional (fuel qfuel k : nat)
    (self node : NodeId) (dns : gset string) (pending : list NodeId)
    (st st' : Store) :
  attach_subtree_from (fuse_subtree fuel) qfuel k self node dns pending st
    = Returns () st' →
  keeps_optional st st'.
Proof.
  intros H. apply related_keeps_optional.
  destruct flag_kept_laws as (H1 & H2 & H3 & H4 & H5 & H6).
  eapply (preserves_attach_subtree_from flag_kept); [done..| |exact H].
  intros a b. by apply (preserves_fuse_subtree flag_kept).
Qed.

Lemma remove_keeps_labels (x : NodeId) (st st' : Store) :
  remove x st = Returns () st' → related label_kept st st'.
Proof.
  apply (preserves_remove label_kept); unfold label_kept.
  - done.
  - intros a b c [-> ->] [-> ->]. done.
  - done.
  - done.
Qed.

Lemma update_sets_optional (v : NodeId) (st st' : Store) :
  update v (with_optional true) st = Returns () st' →
  optional_at st' v = true.
Proof.
  unfold update, optional_at. destruct (st !! v) as [nd|] eqn:Hv; [|done].
  intros [= <-]. rewrite list_lookup_insert_eq; [done|].
  by eapply lookup_lt_Some.
Qed.

(** The incoming node of a fusion hands its optional flag to the node it
    is fused into. *)
Lemma fuse_subtree_accumulates (fuel : nat) (self node : NodeId)
    (st st' : Store) (nd : ScopeTreeNode) :
  fuse_subtree fuel self node st = Returns () st' →
  st !! node = Some nd → path_id nd ≠ None → optional nd = true →
  optional_at st' self = true.
Proof.
  unfold fuse_subtree, fuse_subtree_with. intros Hrun Hnd Hpath Hopt.
  apply bind_returns in Hrun as ([] & st1 & Hremove & Hrun).
  destruct (remove_keeps_labels _ _ _ Hremove node nd Hnd)
    as (nd1 & Hnd1 & Hp1 & Ho1).
  apply bind_returns in Hrun as (nd1' & st1' & Hget & Hrun).
  unfold get, query in Hget. rewrite Hnd1 in Hget.
  injection Hget as <- <-.
  rewrite Hp1, Ho1, Hopt in Hrun.
  destruct (path_id nd) as [pid|]; [|done].
  apply bind_returns in Hrun as ([] & st2 & Hupd & Hrun).
  apply update_sets_optional in Hupd.
  apply bind_returns in Hrun as (w & st3 & Hnew & Hrun).
  apply bind_returns in Hrun as ([] & st4 & Hkids & Hrun).
  apply attach_subtree_keeps_optional in Hrun. apply Hrun.
  assert (related flag_kept st3 st4) as H34.
  { eapply (preserves_for_each flag_kept); [..|exact Hkids];
      unfold flag_kept; auto.
    intros x. apply (preserves_attach_child flag_kept); unfold flag_kept; auto. }
  apply (related_keeps_optional _ _ H34).
  injection Hnew as <- <-. unfold optional_at in *.
  destruct (st2 !! self) as [sn|] eqn:Hs; [|done].
  by rewrite (lookup_app_l_Some _ _ _ _ Hs).
Qed.

(** An incoming node discarded because its path is already visible hands
    its optional flag to the visible node. *)
Lemma discard_visible_accumulates (fuel qfuel k : nat) (self node : NodeId)
    (dns : gset string) (d : NodeId) (rest : list NodeId) (st st' : Store)
    (dn : ScopeTreeNode) (dpath : PathId) (v : NodeId) :
  attach_subtree_from (fuse_subtree fuel) qfuel (S k) self node dns
    (d :: rest) st = Returns () st' →
  st !! d = Some dn → path_id dn = Some dpath →
  find_visible qfuel st self (strip_namespace dpath dns) = Some (Some v) →
  optional dn = true →
  optional_at st' v = true.
Proof.
  unfold attach_subtree_from at 1. simpl. intros Hrun Hd Hpath Hvis Hopt.
  apply bind_returns in Hrun as ([] & st2 & Hloop & Hrest).
  apply bind_returns in Hloop as ([] & st1 & Hstep & Hloop).
  apply bind_returns in Hloop as (dn1 & st1' & Hget & Hloop).
  assert (st1' = st1) as ->.
  { unfold get, query in Hget. destruct (st1 !! d); [by injection Hget|done]. }
  assert (attach_subtree_from (fuse_subtree fuel) qfuel k self node dns
            (children dn1 ++ rest) st1 = Returns () st') as Hrun.
  { unfold attach_subtree_from. by rewrite (run_bind _ _ _ _ _ Hloop). }
  apply attach_subtree_from_keeps_optional in Hrun. apply Hrun.
  unfold merge_descendant in Hstep.
  apply bind_returns in Hstep as (dn0 & st0 & Hget0 & Hstep).
  unfold get, query in Hget0. rewrite Hd in Hget0.
  injection Hget0 as <- <-. rewrite Hpath in Hstep.
  apply bind_returns in Hstep as (vis & st0 & Hq & Hstep).
  unfold query in Hq. rewrite Hvis in Hq. injection Hq as <- <-.
  apply bind_returns in Hstep as ([] & st3 & Hremove & Hstep).
  rewrite Hopt in Hstep. by eapply update_sets_optional.
Qed.

(** C8: what a merge does to the optional flags, node by node.  No
    merge clears the optional flag of a node; [fuse_subtree] of an
    optional path node leaves the flag of [self] set; and when the first
    loop of [attach_subtree] discards an optional incoming node [d]
    because the node [v] is visible for its path, the flag of [v] is set
    once the merge has returned, so that [is_optional] answers true for
    the path provided [v] is still the node visible for it.  The flags
    are those of the nodes as stored ([optional_at]), wherever the nodes
    then are: the merge may have taken the flagged node out of the tree,
    as the counterexample after the witness shows. *)
Theorem optionality_accumulates (fuel qfuel k : nat) (self node d : NodeId)
    (dns : gset string) (rest : list NodeId) (st st' : Store) :
  (attach_subtree fuel self node st = Returns () st' → keeps_optional st st')
  ∧ (fuse_subtree fuel self node st = Returns () st' →
     keeps_optional st st'
     ∧ ∀ nd, st !! node = Some nd → path_id nd ≠ None → optional nd = true →
             optional_at st' self = true)
  ∧ (attach_subtree_from (fuse_subtree fuel) qfuel (S k) self node dns
       (d :: rest) st = Returns () st' →
     keeps_optional st st'
     ∧ ∀ dn dpath v,
         st !! d = Some dn → path_id dn = Some dpath →
         find_visible qfuel st self (strip_namespace dpath dns)
           = Some (Some v) →
         optional dn = true →
         optional_at st' v = true
         ∧ (find_visible qfuel st' self (strip_namespace dpath dns)
              = Some (Some v) →
            is_optional qfuel st' self (strip_namespace dpath dns)
              = Some true)).
Proof.
  split; [intros Hrun; by eapply attach_subtree_keeps_optional|]. split.
  - intros Hrun. split; [by eapply fuse_subtree_keeps_optional|].
    intros nd. by apply (fuse_subtree_accumulates fuel self node st st').
  - intros Hrun. split; [by eapply attach_subtree_from_keeps_optional|].
    intros dn dpath v Hd Hpath Hvis Hopt.
    assert (optional_at st' v = true) as Hflag
      by (by eapply discard_visible_accumulates).
    split; [done|]. intros Hvis'. unfold is_optional. rewrite Hvis'. simpl.
    unfold optional_at in Hflag. destruct (st' !! v) as [vn|]; [|done].
    simpl. by rewrite Hflag.
Qed.

Lemma optionality_accumulates_witness :
  (attach_subtree 5 0 2 optional_merge.store
     = Returns () optional_merge.after_attach
   ∧ keeps_optional optional_merge.store optional_merge.after_attach)
  ∧ (fuse_subtree 5 1 3 optional_merge.store
       = Returns () optional_merge.after_fuse
     ∧ optional_at optional_merge.after_fuse 1 = true)
  ∧ (attach_subtree_from (fuse_subtree 5) 5 (S 4) 0 2 ∅ [3]
       optional_merge.store = Returns () optional_merge.after_loop
     ∧ optional_at optional_merge.after_loop 1 = true
     ∧ (find_visible 5 optional_merge.after_loop 0
          (strip_namespace path_A ∅) = Some (Some 1) →
        is_optional 5 optional_merge.after_loop 0
          (strip_namespace path_A ∅) = Some true)).
Proof.
  split; [|split].
  - split; [reflexivity|].
    apply (proj1 (optionality_accumulates 5 5 4 0 2 3 ∅ []
                    optional_merge.store optional_merge.after_attach)).
    reflexivity.
  - split; [reflexivity|].
    apply (proj2 (proj1 (proj2 (optionality_accumulates 5 5 4 1 3 3 ∅ []
                    optional_merge.store optional_merge.after_fuse)) eq_refl)
             (mkNode None (Some path_A) false false false true [] ∅ (Some 2)));
      [reflexivity|discriminate|reflexivity].
  - assert (attach_subtree_from (fuse_subtree 5) 5 (S 4) 0 2 ∅ [3]
              optional_merge.store = Returns () optional_merge.after_loop)
      as Hrun by reflexivity.
    split; [exact Hrun|].
    apply (proj2 (proj2 (proj2 (optionality_accumulates 5 5 4 0 2 3 ∅ []
                    optional_merge.store optional_merge.after_loop)) Hrun)
             (mkNode None (Some path_A) false false false true [] ∅ (Some 2))
             path_A 1); reflexivity.
Defined.

(** The flag does not follow the path.  In [optional_lost.store] the
    incoming reference to [A] is optional and [A] is visible from the
    root, at node 1, so the reference is discarded and node 1 is flagged.
    The next incoming reference, to the qualified [A], matches node 3
    below the fence; hoisting node 3 to the root first removes every
    descendant of the root that matches up to namespaces, node 1 among
    them, and strips node 3 to [A].  When the merge returns, the node
    visible for [A] is node 3, which is not optional. *)
Lemma optional_flag_not_on_survivor :
  ¬ (∀ (fuel : nat) (st st' : Store) (self node d v : NodeId)
       (nn dn : ScopeTreeNode) (p : PathId),
       consistent st = true →
       st !! node = Some nn → d ∈ children nn →
       st !! d = Some dn → path_id dn = Some p → optional dn = true →
       find_visible fuel st self p = Some (Some v) →
       attach_subtree fuel self node st = Returns () st' →
       is_optional fuel st' self p = Some true).
Proof.
  intros H.
  specialize (H 5 optional_lost.store optional_lost.after_merge 0 4 5 1
                (mkNode None None true false false false [5; 6] ∅ None)
                (mkNode None (Some path_A) false false false true [] ∅
                        (Some 4))
                path_A).
  assert (5 ∈ [5; 6]) as Hin by left.
  specialize (H eq_refl eq_refl Hin eq_refl eq_refl eq_refl eq_refl eq_refl).
  discriminate H.
Qed.

(** Across merges: [A] is optional from the root of
    [optional_lost.marked]; attaching the qualified [A] at the root
    removes the flagged node from the tree, and [A] is then visible but
    not optional. *)
Example optional_flag_lost_by_later_merge :
  is_optional 5 optional_lost.marked 0 path_A = Some true
  ∧ attach_path 5 0 optional_lost.path_A_n1 optional_lost.marked
    = Returns () optional_lost.after_path
  ∧ find_visible 5 optional_lost.after_path 0 path_A = Some (Some 3)
  ∧ is_optional 5 optional_lost.after_path 0 path_A = Some false
  ∧ optional_at optional_lost.after_path 1 = true.
Proof. repeat split; reflexivity. Qed.

(** ** The namespaces stripped from an incoming subtree *)

Lemma foldl_union_namespaces (st : Store) (acc : gset string)
    (ds : list NodeId) :
  foldl (λ acc child, acc ∪ namespaces_of st child) acc ds
  = acc ∪ ⋃ (namespaces_of st <$> ds).
Proof.
  revert acc. induction ds as [|d ds IH]; intros acc; simpl.
  - by rewrite (right_id_L ∅ (∪)).
  - rewrite IH. by rewrite (assoc_L (∪)).
Qed.

(** [descendant_namespaces] starts from the node itself. *)
Lemma descendant_namespaces_unfold (fuel : nat) (st : Store) (n : NodeId)
    (ds : list NodeId) :
  strict_descendants fuel st n = Some ds →
  descendant_namespaces fuel st n
  = Some (namespaces_of st n ∪ ⋃ (namespaces_of st <$> ds)).
Proof.
  intros Hds. unfold descendant_namespaces, descendants. rewrite Hds. simpl.
  rewrite foldl_union_namespaces. by rewrite (left_id_L ∅ (∪)).
Qed.

Lemma strict_descendants_allocated (fuel : nat) (st : Store) (n : NodeId)
    (ds : list NodeId) :
  strict_descendants fuel st n = Some ds → ∀ x, x ∈ ds → is_Some (st !! x).
Proof.
  revert n ds. induction fuel as [|fuel IH]; intros n ds; simpl; [done|].
  destruct (st !! n) as [nd|]; simpl; [|done].
  revert ds. induction (children nd) as [|c cs IHcs]; intros ds; simpl.
  - intros [= <-] x Hx. by apply elem_of_nil in Hx.
  - destruct (strict_descendants fuel st c) as [dc|] eqn:Hdc; simpl; [|done].
    destruct (foldr _ _ cs) as [r|] eqn:Hr; simpl; [|done].
    intros [= <-] x Hx.
    apply elem_of_cons in Hx as [->|Hx].
    + destruct fuel as [|fuel]; simpl in Hdc; [done|].
      destruct (st !! c); [by eexists|done].
    + apply elem_of_app in Hx as [Hx|Hx]; [by eapply IH|by eapply IHcs].
Qed.

(** The traversal only depends on the children of the nodes it visits. *)
Lemma strict_descendants_agree (st st' : Store) (fuel : nat) (n : NodeId)
    (ds : list NodeId) :
  strict_descendants fuel st n = Some ds →
  (∀ x, x ∈ n :: ds →
        ∃ xn xn', st !! x = Some xn ∧ st' !! x = Some xn'
                  ∧ children xn' = children xn) →
  strict_descendants fuel st' n = Some ds.
Proof.
  revert n ds. induction fuel as [|fuel IH]; intros n ds; simpl; [done|].
  intros Hds Hagree.
  destruct (Hagree n) as (nd & nd' & Hn & Hn' & Hch); [left|].
  rewrite Hn in Hds. rewrite Hn'. simpl in *. rewrite Hch.
  assert (∀ x, x ∈ ds → ∃ xn xn', st !! x = Some xn ∧ st' !! x = Some xn'
                                   ∧ children xn' = children xn) as Hds_agree.
  { intros x Hx. apply Hagree. by right. }
  clear Hagree Hn Hn' Hch. revert ds Hds Hds_agree.
  induction (children nd) as [|c cs IHcs]; intros ds; simpl; [done|].
  destruct (strict_descendants fuel st c) as [dc|] eqn:Hdc; simpl; [|done].
  destruct (foldr _ _ cs) as [r|] eqn:Hr; simpl; [|done].
  intros [= <-] Hagree.
  rewrite (IH c dc Hdc).
  - simpl. rewrite (IHcs r eq_refl); [done|].
    intros x Hx. apply Hagree. right. apply elem_of_app. by right.
  - intros x Hx. apply Hagree. apply elem_of_cons in Hx as [->|Hx]; [left|].
    right. apply elem_of_app. by left.
Qed.

Lemma relink_returns (st2 : Store) (node W : NodeId) (nd w : ScopeTreeNode) :
  st2 !! node = Some nd → st2 !! W = Some w → node ≠ W →
  (update node (with_parent (Some W)) ;;
   update W (with_children (set_add node))) st2
  = Returns () (<[W := with_children (set_add node) w]>
                  (<[node := with_parent (Some W) nd]> st2)).
Proof.
  intros Hnode HW Hne.
  rewrite (run_bind _ _ _ _ _ (update_returns _ _ _ _ Hnode)).
  apply update_returns. by rewrite list_lookup_insert_ne.
Qed.

Lemma set_parent_returns (st1 st2 : Store) (node W : NodeId)
    (nd w : ScopeTreeNode) :
  st1 !! node = Some nd → parent nd ≠ Some W → unlinked st1 node nd st2 →
  st2 !! node = Some nd → st2 !! W = Some w → node ≠ W →
  _set_parent node (Some W) st1
  = Returns () (<[W := with_children (set_add node) w]>
                  (<[node := with_parent (Some W) nd]> st2)).
Proof.
  intros Hnode1 Hfresh Hun Hnode2 HW2 Hne. unfold _set_parent.
  rewrite (run_bind _ _ _ _ _ (get_returns _ _ _ Hnode1)).
  rewrite bool_decide_eq_false_2 by congruence.
  unfold unlinked in Hun. destruct (parent nd) as [cp|].
  - destruct Hun as (cpn & Hcp1 & Hin & ->).
    erewrite run_bind.
    2:{ rewrite (run_bind _ _ _ _ _ (get_returns _ _ _ Hcp1)).
        rewrite (bool_decide_eq_true_2 _ Hin).
        by apply update_returns. }
    by apply relink_returns.
  - subst st2. erewrite run_bind by reflexivity. by apply relink_returns.
Qed.

(** Wrapping a path node: the fresh fence becomes its parent and only
    child-holder, and every node allocated before keeps its namespaces
    and, the former parent of the node apart, its children. *)
Lemma wrap_path_node_fresh (st : Store) (node : NodeId) (nd : ScopeTreeNode)
    (pid : PathId) :
  st !! node = Some nd → path_id nd = Some pid →
  match parent nd with
  | None => True
  | Some cp => cp ≠ node ∧ ∃ cpn, st !! cp = Some cpn ∧ node ∈ children cpn
  end →
  ∃ st' wn,
    wrap_path_node node st = Returns (length st) st'
    ∧ st' !! length st = Some wn ∧ children wn = [node] ∧ namespaces wn = ∅
    ∧ ∀ x xn, st !! x = Some xn →
        ∃ xn', st' !! x = Some xn' ∧ namespaces xn' = namespaces xn
               ∧ (parent nd ≠ Some x → children xn' = children xn).
Proof.
  intros Hnode Hpath Hlinked.
  set (w := init None true None).
  set (W := length st).
  set (st1 := st ++ [w]).
  assert (st1 !! node = Some nd) as Hnode1 by by apply lookup_app_l_Some.
  assert (st1 !! W = Some w) as HW1 by by apply list_lookup_middle.
  assert (node ≠ W) as HnW.
  { apply lookup_lt_Some in Hnode. unfold W. lia. }
  assert (parent nd ≠ Some W) as Hfresh.
  { intros Hp. rewrite Hp in Hlinked.
    destruct Hlinked as (_ & cpn & Hcp & _).
    apply lookup_lt_Some in Hcp. unfold W in Hcp. lia. }
  assert (∃ st2, unlinked st1 node nd st2
                 ∧ st2 !! node = Some nd ∧ st2 !! W = Some w
                 ∧ ∀ x xn, st !! x = Some xn →
                     ∃ xn2, st2 !! x = Some xn2
                            ∧ namespaces xn2 = namespaces xn
                            ∧ (parent nd ≠ Some x →
                               children xn2 = children xn))
    as (st2 & Hun & Hnode2 & HW2 & Hkeep2).
  { unfold unlinked. destruct (parent nd) as [cp|].
    - destruct Hlinked as (Hne & cpn & Hcp & Hin).
      assert (st1 !! cp = Some cpn) as Hcp1 by by apply lookup_app_l_Some.
      assert (cp ≠ W) as HcW by congruence.
      exists (<[cp := with_children (set_remove node) cpn]> st1).
      split; [eauto|]. split; [by rewrite list_lookup_insert_ne|].
      split; [by rewrite list_lookup_insert_ne|].
      intros x xn Hx.
      assert (st1 !! x = Some xn) as Hx1 by by apply lookup_app_l_Some.
      destruct (decide (cp = x)) as [->|Hcx].
      + rewrite list_lookup_insert_eq by by eapply lookup_lt_Some.
        assert (cpn = xn) as -> by congruence.
        eexists. split; [done|]. split; [done|]. intros Hneq. by destruct Hneq.
      + rewrite list_lookup_insert_ne by done. eauto.
    - exists st1. split; [done|]. split; [done|]. split; [done|].
      intros x xn Hx. exists xn. split; [by apply lookup_app_l_Some|done]. }
  exists (<[W := with_children (set_add node) w]>
            (<[node := with_parent (Some W) nd]> st2)),
         (with_children (set_add node) w).
  split; [|split; [|split; [|split]]].
  - unfold wrap_path_node.
    rewrite (run_bind _ _ _ _ _ (get_returns _ _ _ Hnode)). rewrite Hpath.
    erewrite run_bind by reflexivity. fold w W st1.
    erewrite run_bind; [reflexivity|].
    unfold attach_child.
    rewrite (run_bind _ _ _ _ _ (get_returns _ _ _ Hnode1)).
    rewrite (run_bind _ _ _ _ _ (get_returns _ _ _ HW1)).
    rewrite Hpath. erewrite run_bind by reflexivity.
    destruct (unique_id nd); erewrite run_bind by reflexivity;
      by apply set_parent_returns.
  - apply list_lookup_insert_eq. rewrite length_insert.
    by eapply lookup_lt_Some.
  - done.
  - done.
  - intros x xn Hx.
    assert (x ≠ W) as HxW. { apply lookup_lt_Some in Hx. unfold W. lia. }
    destruct (Hkeep2 x xn Hx) as (xn2 & Hx2 & Hns2 & Hch2).
    rewrite list_lookup_insert_ne by done.
    destruct (decide (node = x)) as [->|Hnx].
    + rewrite list_lookup_insert_eq by by eapply lookup_lt_Some.
      assert (xn2 = nd) as -> by congruence.
      eexists. split; [done|]. split; [done|]. done.
    + rewrite list_lookup_insert_ne by done. eauto.
Qed.

(** C5 (amended): the set [dns] of [attach_subtree] is the union of the
    namespaces declared by every node of the attached subtree, the node
    handed to [attach_subtree] included: for a structural node, which is
    itself the root the set is computed on, and for a path node, which is
    first put under a fresh fence. *)
Theorem attach_subtree_dns_includes_root (fuel : nat) (st : Store)
    (node : NodeId) (nd : ScopeTreeNode) (ds : list NodeId) :
  st !! node = Some nd →
  strict_descendants fuel st node = Some ds →
  (path_id nd = None →
   attach_subtree_dns fuel node st
   = Returns (node, namespaces nd ∪ ⋃ (namespaces_of st <$> ds)) st)
  ∧ (path_id nd ≠ None →
     match parent nd with
     | None => True
     | Some cp =>
         (cp ∉ node :: ds) ∧ ∃ cpn, st !! cp = Some cpn ∧ node ∈ children cpn
     end →
     ∃ st',
       attach_subtree_dns (S fuel) node st
       = Returns (length st, namespaces nd ∪ ⋃ (namespaces_of st <$> ds))
                 st').
Proof.
  intros Hnode Hds. split.
  - intros Hpath. unfold attach_subtree_dns.
    erewrite run_bind.
    2:{ unfold wrap_path_node.
        rewrite (run_bind _ _ _ _ _ (get_returns _ _ _ Hnode)).
        by rewrite Hpath. }
    unfold query, mbind, M_bind.
    rewrite (descendant_namespaces_unfold _ _ _ _ Hds).
    unfold namespaces_of at 1. by rewrite Hnode.
  - intros Hpath Hlinked.
    destruct (path_id nd) as [pid|] eqn:Hpid; [|done].
    destruct (wrap_path_node_fresh st node nd pid Hnode Hpid)
      as (st' & wn & Hwrap & HW & Hwch & Hwns & Hkeep).
    { destruct (parent nd) as [cp|]; [|done].
      destruct Hlinked as (Hout & Hcp). split; [|done].
      intros ->. apply Hout. left. }
    assert (∀ x, x ∈ node :: ds → parent nd ≠ Some x) as Hout.
    { intros x Hx Hp. rewrite Hp in Hlinked. by destruct Hlinked. }
    assert (∀ x, x ∈ node :: ds → is_Some (st !! x)) as Halloc.
    { intros x [->|Hx]%elem_of_cons; [by eexists|].
      by eapply strict_descendants_allocated. }
    assert (strict_descendants fuel st' node = Some ds) as Hds'.
    { apply (strict_descendants_agree st); [done|].
      intros x Hx. destruct (Halloc x Hx) as [xn Hxn].
      destruct (Hkeep x xn Hxn) as (xn' & Hxn' & _ & Hch).
      exists xn, xn'. split; [done|]. split; [done|]. apply Hch. by apply Hout. }
    assert (∀ x, x ∈ node :: ds → namespaces_of st' x = namespaces_of st x)
      as Hns.
    { intros x Hx. destruct (Halloc x Hx) as [xn Hxn].
      destruct (Hkeep x xn Hxn) as (xn' & Hxn' & Hsame & _).
      unfold namespaces_of. by rewrite Hxn, Hxn'. }
    exists st'. unfold attach_subtree_dns.
    rewrite (run_bind _ _ _ _ _ Hwrap).
    unfold query, mbind, M_bind.
    assert (strict_descendants (S fuel) st' (length st)
            = Some (node :: ds ++ [])) as Hall.
    { simpl. rewrite HW. simpl. rewrite Hwch. simpl. by rewrite Hds'. }
    rewrite (descendant_namespaces_unfold _ _ _ _ Hall).
    rewrite app_nil_r.
    assert (namespaces_of st' (length st) = ∅) as ->.
    { unfold namespaces_of. by rewrite HW. }
    assert (namespaces_of st' <$> node :: ds
            = namespaces nd :: (namespaces_of st <$> ds)) as ->.
    { rewrite fmap_cons. f_equal.
      - rewrite Hns by left. unfold namespaces_of. by rewrite Hnode.
      - apply list_fmap_ext. intros i x Hix. apply Hns. right.
        by eapply list_elem_of_lookup_2. }
    simpl. by rewrite (left_id_L ∅ (∪)).
Qed.

Lemma attach_subtree_dns_includes_root_witness :
  attach_subtree_dns 3 1 aliased.store
  = Returns (1, namespaces
                  (mkNode None None true false false false [] {["ns"]} None)
                ∪ ⋃ (namespaces_of aliased.store <$> [])) aliased.store
  ∧ (∃ st',
       attach_subtree_dns (S 3) 1 aliased.path_store
       = Returns (length aliased.path_store,
                  namespaces
                    (mkNode None (Some path_A) false false false false [2]
                            {["ns"]} None)
                  ∪ ⋃ (namespaces_of aliased.path_store <$> [2])) st').
Proof.
  split.
  - apply (proj1 (attach_subtree_dns_includes_root 3 aliased.store 1
             (mkNode None None true false false false [] {["ns"]} None) []
             eq_refl eq_refl)).
    reflexivity.
  - apply (proj2 (attach_subtree_dns_includes_root 3 aliased.path_store 1
             (mkNode None (Some path_A) false false false false [2]
                     {["ns"]} None) [2] eq_refl eq_refl));
      [discriminate|exact I].
Defined.

(** C5 as stated fails: the namespaces declared on a structural root are
    part of [dns], although no strict descendant declares them. *)
Lemma attach_subtree_dns_root_namespace :
  ¬ (∀ (fuel : nat) (node : NodeId) (st : Store) (root : NodeId)
       (dns : gset string) (st' : Store),
       attach_subtree_dns fuel node st = Returns (root, dns) st' →
       strict_descendant_namespaces fuel st' root = Some dns).
Proof.
  intros H.
  specialize (H 3 1 aliased.store 1 {["ns"]} aliased.store eq_refl).
  vm_compute in H. discriminate H.
Qed.

(** * Further properties of the scope tree *)

(** ** Moving a node *)

Lemma elem_of_set_add (n x : NodeId) (l : list NodeId) :
  x ∈ set_add n l ↔ x = n ∨ x ∈ l.
Proof.
  unfold set_add. case_bool_decide as Hn.
  - split; [by right|]. by intros [->|].
  - rewrite elem_of_app, list_elem_of_singleton. tauto.
Qed.

Lemma elem_of_set_remove (n x : NodeId) (l : list NodeId) :
  x ∈ set_remove n l ↔ x ∈ l ∧ x ≠ n.
Proof. unfold set_remove. rewrite list_elem_of_filter. tauto. Qed.

Lemma edited_refl (st : Store) : edited (λ _ xn, xn) st st.
Proof. by split. Qed.

Lemma edited_trans (f g : NodeId → ScopeTreeNode → ScopeTreeNode)
    (st1 st2 st3 : Store) :
  edited f st1 st2 → edited g st2 st3 →
  edited (λ x xn, g x (f x xn)) st1 st3.
Proof.
  intros [Hl1 H1] [Hl2 H2]. split; [congruence|].
  intros x xn Hx. apply H2. by apply H1.
Qed.

Lemma edited_ext (f g : NodeId → ScopeTreeNode → ScopeTreeNode)
    (st st' : Store) :
  (∀ x xn, st !! x = Some xn → f x xn = g x xn) →
  edited f st st' → edited g st st'.
Proof.
  intros Hfg [Hl H]. split; [done|]. intros x xn Hx.
  rewrite <- (Hfg x xn Hx). by apply H.
Qed.

Lemma update_edited (n : NodeId) (f : ScopeTreeNode → ScopeTreeNode)
    (st st' : Store) :
  update n f st = Returns () st' →
  is_Some (st !! n)
  ∧ edited (λ x xn, if decide (x = n) then f xn else xn) st st'.
Proof.
  unfold update. destruct (st !! n) as [nd|] eqn:Hn; [|done].
  intros [= <-]. split; [by eexists|]. split.
  - apply length_insert.
  - intros x xn Hx. destruct (decide (x = n)) as [->|Hne].
    + assert (xn = nd) as -> by congruence.
      apply list_lookup_insert_eq. by eapply lookup_lt_Some.
    + by rewrite list_lookup_insert_ne.
Qed.

Lemma edited_allocated (f : NodeId → ScopeTreeNode → ScopeTreeNode)
    (st st' : Store) (x : NodeId) :
  edited f st st' → is_Some (st' !! x) → is_Some (st !! x).
Proof.
  intros [Hl _]. rewrite !lookup_lt_is_Some. lia.
Qed.

(** What [_set_parent] does, node by node. *)
Lemma set_parent_edited (n : NodeId) (np : option NodeId) (st st' : Store)
    (nd : ScopeTreeNode) :
  st !! n = Some nd →
  _set_parent n np st = Returns () st' →
  edited (set_parent_edit n np (parent nd)) st st'
  ∧ (np ≠ parent nd → ∀ p, np = Some p → is_Some (st !! p)).
Proof.
  intros Hn Hrun. unfold _set_parent in Hrun.
  rewrite (run_bind _ _ _ _ _ (get_returns _ _ _ Hn)) in Hrun.
  destruct (decide (np = parent nd)) as [Heq|Hne].
  - rewrite (bool_decide_eq_true_2 _ Heq) in Hrun. injection Hrun as <-.
    split; [|done]. eapply edited_ext; [|apply edited_refl].
    intros x xn _. unfold set_parent_edit. by rewrite decide_True.
  - rewrite (bool_decide_eq_false_2 _ Hne) in Hrun.
    apply bind_returns in Hrun as ([] & st1 & Hleave & Hjoin).
    assert (edited (λ x xn, if decide (parent nd = Some x)
                            then with_children (set_remove n) xn else xn)
                   st st1) as H1.
    { destruct (parent nd) as [cp|].
      - apply bind_returns in Hleave as (cpn & st0 & Hget & Hleave).
        unfold get, query in Hget. destruct (st !! cp) as [cn0|]; [|done].
        injection Hget as <- <-.
        destruct (bool_decide (n ∈ children cn0)); [|done].
        apply update_edited in Hleave as [_ Hleave].
        eapply edited_ext; [|exact Hleave].
        intros x xn _. simpl. repeat case_decide; congruence.
      - injection Hleave as <-. eapply edited_ext; [|apply edited_refl].
        intros x xn _. simpl. by repeat case_decide. }
    destruct np as [p|].
    + apply bind_returns in Hjoin as ([] & st2 & Hself & Hjoin).
      apply update_edited in Hself as [_ H2].
      apply update_edited in Hjoin as [Hp H3].
      split.
      * eapply edited_ext; [|exact (edited_trans _ _ _ _ _
                                      (edited_trans _ _ _ _ _ H1 H2) H3)].
        intros x xn _. unfold set_parent_edit. simpl.
        rewrite (decide_False _ _ Hne).
        repeat case_decide; simplify_eq; done.
      * intros _ q [= <-].
        eapply edited_allocated; [exact H1|].
        eapply edited_allocated; [exact H2|done].
    + apply update_edited in Hjoin as [_ H2]. split; [|done].
      eapply edited_ext; [|exact (edited_trans _ _ _ _ _ H1 H2)].
      intros x xn _. unfold set_parent_edit. simpl.
      rewrite (decide_False _ _ Hne).
      repeat case_decide; simplify_eq; done.
Qed.

Lemma set_parent_edit_parent (n : NodeId) (np cur : option NodeId)
    (x : NodeId) (xn : ScopeTreeNode) :
  np ≠ cur →
  parent (set_parent_edit n np cur x xn)
  = if decide (x = n) then np else parent xn.
Proof.
  intros Hne. unfold set_parent_edit. rewrite (decide_False _ _ Hne).
  destruct xn. repeat case_decide; done.
Qed.

Lemma set_parent_edit_children (n : NodeId) (np cur : option NodeId)
    (x : NodeId) (xn : ScopeTreeNode) :
  np ≠ cur →
  children (set_parent_edit n np cur x xn)
  = (if decide (np = Some x) then set_add n else id)
      ((if decide (cur = Some x) then set_remove n else id) (children xn)).
Proof.
  intros Hne. unfold set_parent_edit. rewrite (decide_False _ _ Hne).
  destruct xn. repeat case_decide; done.
Qed.

Lemma set_parent_edit_attributes (n : NodeId) (np cur : option NodeId)
    (x : NodeId) (xn : ScopeTreeNode) :
  same_attributes xn (set_parent_edit n np cur x xn).
Proof.
  unfold set_parent_edit, same_attributes. destruct xn.
  repeat case_decide; done.
Qed.

Lemma consistent_links (st : Store) : consistent st = true ↔ links_ok st.
Proof.
  split.
  - intros H. split.
    + intros x nd c. by apply consistent_child.
    + intros x nd p. by apply consistent_parent.
  - intros [Hc Hp]. unfold consistent.
    apply Is_true_true_1, forallb_True, Forall_forall.
    intros [x nd] (i & y & [= -> ->] & Hx)%elem_of_lookup_imap.
    apply Is_true_true_2, andb_true_iff. split.
    + unfold child_links_ok. apply Is_true_true_1, forallb_True, Forall_forall.
      intros c Hin. destruct (Hc i y c Hx Hin) as (cn & -> & Hpar).
      by apply bool_decide_pack.
    + unfold parent_link_ok. destruct (parent y) as [p|] eqn:Hpar; [|done].
      destruct (Hp i y p Hx Hpar) as (pn & -> & Hin).
      by apply bool_decide_eq_true.
Qed.

(** Moving a node keeps the links consistent. *)
Lemma set_parent_edit_links (n : NodeId) (np : option NodeId)
    (st st' : Store) (nd : ScopeTreeNode) :
  links_ok st → st !! n = Some nd →
  edited (set_parent_edit n np (parent nd)) st st' →
  (np ≠ parent nd → ∀ p, np = Some p → is_Some (st !! p)) →
  links_ok st'.
Proof.
  intros [Hc Hp] Hn [Hlen Hed] Halloc.
  destruct (decide (np = parent nd)) as [Heq|Hne].
  { assert (st' = st) as ->; [|done].
    apply list_eq. intros x. destruct (st !! x) as [xn|] eqn:Hx.
    - rewrite (Hed x xn Hx). unfold set_parent_edit. by rewrite decide_True.
    - apply lookup_ge_None in Hx. apply lookup_ge_None. lia. }
  assert (∀ x xn', st' !! x = Some xn' →
            ∃ xn, st !! x = Some xn
                  ∧ xn' = set_parent_edit n np (parent nd) x xn) as Hback.
  { intros x xn' Hx'.
    destruct (st !! x) as [xn|] eqn:Hx.
    - exists xn. split; [done|]. rewrite (Hed x xn Hx) in Hx'. congruence.
    - apply lookup_ge_None in Hx. apply lookup_lt_Some in Hx'. lia. }
  split.
  - intros x xn' c Hx' Hin.
    destruct (Hback x xn' Hx') as (xn & Hx & ->).
    rewrite set_parent_edit_children in Hin by done.
    assert ((np = Some x ∧ c = n)
            ∨ (c ∈ children xn ∧ (parent nd = Some x → c ≠ n))) as Hcase.
    { destruct (decide (np = Some x)), (decide (parent nd = Some x));
        simpl in Hin;
        rewrite ?elem_of_set_add, ?elem_of_set_remove in Hin; tauto. }
    destruct Hcase as [[Hnp ->]|[Hold Hkeep]].
    + exists (set_parent_edit n np (parent nd) n nd). split; [by apply Hed|].
      rewrite set_parent_edit_parent by done. by rewrite decide_True.
    + destruct (Hc x xn c Hx Hold) as (cn & Hcn & Hpar).
      exists (set_parent_edit n np (parent nd) c cn). split; [by apply Hed|].
      rewrite set_parent_edit_parent by done.
      destruct (decide (c = n)) as [->|Hcn']; [|done].
      assert (cn = nd) as -> by congruence. by destruct (Hkeep Hpar).
  - intros x xn' q Hx' Hpar.
    destruct (Hback x xn' Hx') as (xn & Hx & ->).
    rewrite set_parent_edit_parent in Hpar by done.
    destruct (decide (x = n)) as [->|Hxn].
    + destruct (Halloc Hne q Hpar) as [qn Hq].
      exists (set_parent_edit n np (parent nd) q qn). split; [by apply Hed|].
      rewrite set_parent_edit_children by done.
      rewrite (decide_True _ _ Hpar). apply elem_of_set_add. by left.
    + destruct (Hp x xn q Hx Hpar) as (qn & Hq & Hin).
      exists (set_parent_edit n np (parent nd) q qn). split; [by apply Hed|].
      rewrite set_parent_edit_children by done.
      assert (x ∈ (if decide (parent nd = Some q) then set_remove n else id)
                    (children qn)) as Hin'.
      { destruct (decide (parent nd = Some q)) as [Hq'|]; [|done].
        apply elem_of_set_remove. split; [done|]. intros ->.
        assert (xn = nd) as -> by congruence. congruence. }
      destruct (decide (np = Some q)); [|done]. apply elem_of_set_add. by right.
Qed.

Lemma set_parent_keeps_links (n : NodeId) (np : option NodeId) :
  keeps links_ok (_set_parent n np).
Proof.
  intros st [] st' Hlinks Hrun.
  destruct (st !! n) as [nd|] eqn:Hn.
  - destruct (set_parent_edited n np st st' nd Hn Hrun) as [Hed Halloc].
    by eapply set_parent_edit_links.
  - unfold _set_parent, get, query, mbind, M_bind in Hrun.
    by rewrite Hn in Hrun.
Qed.

(** On consistent links [_set_parent] does not fail. *)
Lemma set_parent_returns_on_links (n : NodeId) (np : option NodeId)
    (st : Store) :
  links_ok st → is_Some (st !! n) →
  (∀ p, np = Some p → is_Some (st !! p)) →
  ∃ st', _set_parent n np st = Returns () st'.
Proof.
  intros [Hc Hp] [nd Hn] Halloc. unfold _set_parent.
  rewrite (run_bind _ _ _ _ _ (get_returns _ _ _ Hn)).
  case_bool_decide as Hsame; [by eexists|].
  assert (∃ st1, match parent nd with
                 | Some cp =>
                     cpn ← get cp;
                     if bool_decide (n ∈ children cpn)
                     then update cp (with_children (set_remove n))
                     else raise KeyError
                 | None => mret ()
                 end st = Returns () st1 ∧ length st1 = length st)
    as (st1 & Hleave & Hlen1).
  { destruct (parent nd) as [cp|] eqn:Hpar; [|by eexists].
    destruct (Hp n nd cp Hn Hpar) as (cpn & Hcp & Hin).
    rewrite (run_bind _ _ _ _ _ (get_returns _ _ _ Hcp)).
    rewrite (bool_decide_eq_true_2 _ Hin).
    rewrite (update_returns _ _ _ _ Hcp). eexists. split; [done|].
    apply length_insert. }
  rewrite (run_bind _ _ _ _ _ Hleave).
  assert (∀ x, is_Some (st !! x) → is_Some (st1 !! x)) as Hkeep.
  { intros x. rewrite !lookup_lt_is_Some. lia. }
  destruct (Hkeep n) as [nd1 Hn1]; [by eexists|].
  destruct np as [p|].
  - rewrite (run_bind _ _ _ _ _ (update_returns _ _ _ _ Hn1)).
    destruct (Hkeep p (Halloc p eq_refl)) as [pn1 Hp1].
    assert (is_Some (<[n:=with_parent (Some p) nd1]> st1 !! p)) as [pn2 Hp2].
    { apply lookup_lt_is_Some. rewrite length_insert.
      by eapply lookup_lt_Some. }
    rewrite (update_returns _ _ _ _ Hp2). by eexists.
  - rewrite (update_returns _ _ _ _ Hn1). by eexists.
Qed.

(** ** Invariants of the store *)

Section invariants.

(** A property of the store that the primitive edits keep. *)
Variable I : Store → Prop.
Hypothesis I_set_parent : ∀ n np, keeps I (_set_parent n np).
Hypothesis I_new_node : ∀ p f u, keeps I (new_node (init p f u)).
Hypothesis I_path_id : ∀ x p, keeps I (update x (with_path_id p)).
Hypothesis I_optional : ∀ x, keeps I (update x (with_optional true)).

Lemma keeps_ret {A} (a : A) : keeps I (mret a).
Proof. by intros st a' st' HI [= _ <-]. Qed.

Lemma keeps_bind {A B} (m : M A) (k : A → M B) :
  keeps I m → (∀ a, keeps I (k a)) → keeps I (m ≫= k).
Proof.
  intros Hm Hk st b st' HI Hrun.
  apply bind_returns in Hrun as (a & st1 & Hm1 & Hk1).
  eapply Hk; [|exact Hk1]. by eapply Hm.
Qed.

Lemma keeps_raise {A} (e : Exception) : keeps I (@raise A e).
Proof. by intros st a st' HI. Qed.

Lemma keeps_diverge {A} : keeps I (@diverge A).
Proof. by intros st a st' HI. Qed.

Lemma keeps_query {A} (q : Store → option A) : keeps I (query q).
Proof.
  intros st a st' HI. unfold query. destruct (q st); [|done].
  by intros [= _ <-].
Qed.

Lemma keeps_get (n : NodeId) : keeps I (get n).
Proof. apply keeps_query. Qed.

Lemma keeps_for_each {A} (body : A → M unit) (xs : list A) :
  (∀ x, keeps I (body x)) → keeps I (for_each body xs).
Proof.
  intros Hbody. induction xs as [|x xs IH]; simpl.
  - apply keeps_ret.
  - apply keeps_bind; [apply Hbody|]. by intros _.
Qed.

Ltac keeps_step :=
  lazymatch goal with
  | |- keeps _ (mret _) => apply keeps_ret
  | |- keeps _ (raise _) => apply keeps_raise
  | |- keeps _ diverge => apply keeps_diverge
  | |- keeps _ (query _) => apply keeps_query
  | |- keeps _ (get _) => apply keeps_get
  | |- keeps _ (new_node (init _ _ _)) => apply I_new_node
  | |- keeps _ (_set_parent _ _) => apply I_set_parent
  | |- keeps _ (update _ (with_path_id _)) => apply I_path_id
  | |- keeps _ (update _ (with_optional true)) => apply I_optional
  | |- keeps _ (for_each _ _) => apply keeps_for_each; intros ?
  | |- keeps _ (_ ≫= _) => apply keeps_bind; [|intros ?]
  | |- keeps _ (match ?x with _ => _ end) => destruct x
  end.

Ltac keeps_all := repeat keeps_step.

Lemma keeps_attach_child (self node : NodeId) :
  keeps I (attach_child self node).
Proof using All. unfold attach_child. keeps_all. Qed.

Lemma keeps_attach_fence (self : NodeId) : keeps I (attach_fence self).
Proof using All.
  unfold attach_fence. keeps_all. apply keeps_attach_child.
Qed.

Lemma keeps_attach_branch (self : NodeId) : keeps I (attach_branch self).
Proof using All.
  unfold attach_branch. keeps_all. apply keeps_attach_child.
Qed.

Lemma keeps_remove (self : NodeId) : keeps I (remove self).
Proof using All. unfold remove, remove_subtree. keeps_all. Qed.

Lemma keeps_remove_descendants (fuel : nat) (self : NodeId) (p : PathId) :
  keeps I (remove_descendants fuel self p).
Proof using All.
  unfold remove_descendants. keeps_all. apply keeps_remove.
Qed.

Lemma keeps_mark_as_optional (fuel : nat) (self : NodeId) (p : PathId) :
  keeps I (mark_as_optional fuel self p).
Proof using All. unfold mark_as_optional. keeps_all. Qed.

Lemma keeps_find_existing (fuel : nat) (self : NodeId) (p : PathId) :
  keeps I (find_existing fuel self p).
Proof using All. unfold find_existing. keeps_all. Qed.

Lemma keeps_hoist_existing (fuel : nat) (d : NodeId) (p : PathId)
    (e : NodeId) (ns : gset string) (unnest : bool) (pf : NodeId) :
  keeps I (hoist_existing fuel d p e ns unnest pf).
Proof using All.
  unfold hoist_existing. keeps_all;
    first [apply keeps_remove_descendants | apply keeps_attach_child].
Qed.

Lemma keeps_merge_descendant (fuse : NodeId → NodeId → M unit) (fuel : nat)
    (self node : NodeId) (dns : gset string) (d : NodeId) :
  (∀ x y, keeps I (fuse x y)) →
  keeps I (merge_descendant fuse fuel self node dns d).
Proof using All.
  intros Hfuse. unfold merge_descendant. keeps_all;
    first [ apply keeps_remove | apply keeps_find_existing
          | apply keeps_hoist_existing | apply Hfuse ].
Qed.

Lemma keeps_merge_descendants (fuse : NodeId → NodeId → M unit)
    (qfuel fuel : nat) (self node : NodeId) (dns : gset string)
    (pending : list NodeId) :
  (∀ x y, keeps I (fuse x y)) →
  keeps I (merge_descendants fuse qfuel fuel self node dns pending).
Proof using All.
  intros Hfuse. revert pending.
  induction fuel as [|fuel IH]; intros pending.
  - destruct pending; simpl; keeps_all.
  - destruct pending as [|d rest]; simpl; keeps_all.
    + by apply keeps_merge_descendant.
    + apply IH.
Qed.

Lemma keeps_attach_remaining (fuel : nat) (self node : NodeId) :
  keeps I (attach_remaining fuel self node).
Proof using All.
  unfold attach_remaining. keeps_all. apply keeps_attach_child.
Qed.

Lemma keeps_attach_subtree_from (fuse : NodeId → NodeId → M unit)
    (qfuel fuel : nat) (self root : NodeId) (dns : gset string)
    (pending : list NodeId) :
  (∀ x y, keeps I (fuse x y)) →
  keeps I (attach_subtree_from fuse qfuel fuel self root dns pending).
Proof using All.
  intros Hfuse. unfold attach_subtree_from. keeps_all.
  - by apply keeps_merge_descendants.
  - apply keeps_attach_remaining.
Qed.

Lemma keeps_attach_subtree_dns (fuel : nat) (node : NodeId) :
  keeps I (attach_subtree_dns fuel node).
Proof using All.
  unfold attach_subtree_dns, wrap_path_node. keeps_all.
  apply keeps_attach_child.
Qed.

Lemma keeps_fuse_subtree_with (attach : NodeId → NodeId → M unit)
    (self node : NodeId) :
  (∀ x y, keeps I (attach x y)) →
  keeps I (fuse_subtree_with attach self node).
Proof using All.
  intros Hattach. unfold fuse_subtree_with. keeps_all;
    first [ apply keeps_remove | apply keeps_attach_child | apply Hattach ].
Qed.

Lemma keeps_attach_subtree (fuel : nat) (self node : NodeId) :
  keeps I (attach_subtree fuel self node).
Proof using All.
  revert self node. induction fuel as [|fuel IH]; intros self node; simpl.
  - apply keeps_diverge.
  - keeps_all.
    + apply keeps_attach_subtree_dns.
    + apply keeps_attach_subtree_from. intros x y.
      by apply keeps_fuse_subtree_with.
Qed.

Lemma keeps_fuse_subtree (fuel : nat) (self node : NodeId) :
  keeps I (fuse_subtree fuel self node).
Proof using All.
  apply keeps_fuse_subtree_with. intros x y. apply keeps_attach_subtree.
Qed.

Lemma keeps_attach_prefixes (parent : NodeId) (is_lprop : bool)
    (prefixes : list PathId) :
  keeps I (attach_prefixes parent is_lprop prefixes).
Proof using All.
  revert parent is_lprop.
  induction prefixes as [|prefix prefixes IH]; intros parent is_lprop; simpl.
  - apply keeps_ret.
  - keeps_all; first [apply IH | apply keeps_attach_child].
Qed.

Lemma keeps_attach_path (fuel : nat) (self : NodeId) (path : PathId) :
  keeps I (attach_path fuel self path).
Proof using All.
  unfold attach_path, attach_chain. keeps_all.
  - apply keeps_attach_prefixes.
  - apply keeps_attach_subtree.
Qed.

End invariants.

(** ** Consistent links are an invariant *)

Lemma new_node_keeps_links (p : option PathId) (f : bool) (u : option Z) :
  keeps links_ok (new_node (init p f u)).
Proof.
  intros st a st' [Hc Hp] [= _ <-]. split.
  - intros x nd c Hx Hin. apply lookup_app_Some in Hx as [Hx|[_ Hx]].
    + destruct (Hc x nd c Hx Hin) as (cn & Hcn & Hpar).
      exists cn. split; [by apply lookup_app_l_Some|done].
    + destruct (x - length st) as [|k]; simpl in Hx; [|done].
      injection Hx as <-. by apply elem_of_nil in Hin.
  - intros x nd q Hx Hpar. apply lookup_app_Some in Hx as [Hx|[_ Hx]].
    + destruct (Hp x nd q Hx Hpar) as (qn & Hq & Hin).
      exists qn. split; [by apply lookup_app_l_Some|done].
    + destruct (x - length st) as [|k]; simpl in Hx; [|done].
      by injection Hx as <-.
Qed.

Lemma update_keeps_links (x : NodeId) (f : ScopeTreeNode → ScopeTreeNode) :
  (∀ nd, parent (f nd) = parent nd ∧ children (f nd) = children nd) →
  keeps links_ok (update x f).
Proof.
  intros Hf st [] st' [Hc Hp] Hrun.
  apply update_edited in Hrun as [_ [Hlen Hed]].
  assert (∀ y yn', st' !! y = Some yn' →
            ∃ yn, st !! y = Some yn ∧ parent yn' = parent yn
                  ∧ children yn' = children yn) as Hback.
  { intros y yn' Hy'. destruct (st !! y) as [yn|] eqn:Hy.
    - exists yn. split; [done|]. rewrite (Hed y yn Hy) in Hy'.
      injection Hy' as <-. case_decide; [apply Hf|done].
    - apply lookup_ge_None in Hy. apply lookup_lt_Some in Hy'. lia. }
  assert (∀ y yn, st !! y = Some yn →
            ∃ yn', st' !! y = Some yn' ∧ parent yn' = parent yn
                   ∧ children yn' = children yn) as Hforth.
  { intros y yn Hy. eexists. split; [by apply Hed|].
    case_decide; [apply Hf|done]. }
  split.
  - intros y yn' c Hy' Hin.
    destruct (Hback y yn' Hy') as (yn & Hy & _ & Hch). rewrite Hch in Hin.
    destruct (Hc y yn c Hy Hin) as (cn & Hcn & Hpar).
    destruct (Hforth c cn Hcn) as (cn' & Hcn' & Hpar' & _).
    exists cn'. split; [done|congruence].
  - intros y yn' q Hy' Hpar.
    destruct (Hback y yn' Hy') as (yn & Hy & Hpar' & _). rewrite Hpar' in Hpar.
    destruct (Hp y yn q Hy Hpar) as (qn & Hq & Hin).
    destruct (Hforth q qn Hq) as (qn' & Hqn' & _ & Hch').
    exists qn'. split; [done|congruence].
Qed.

Lemma links_invariant_laws :
  (∀ n np, keeps links_ok (_set_parent n np))
  ∧ (∀ p f u, keeps links_ok (new_node (init p f u)))
  ∧ (∀ x p, keeps links_ok (update x (with_path_id p)))
  ∧ (∀ x, keeps links_ok (update x (with_optional true))).
Proof.
  split; [apply set_parent_keeps_links|].
  split; [apply new_node_keeps_links|].
  split; intros; by apply update_keeps_links.
Qed.

(** ** Attaching and removing a child *)

Lemma find_child_in_skip (deeper : NodeId → option (option NodeId))
    (st : Store) (path : PathId) (cs rest : list NodeId) :
  (∀ c, c ∈ cs → ∃ cn, st !! c = Some cn ∧ path_id cn ≠ Some path) →
  find_child_in deeper st path false (cs ++ rest)
  = find_child_in deeper st path false rest.
Proof.
  induction cs as [|c cs IH]; intros Hcs; simpl; [done|].
  destruct (Hcs c) as (cn & -> & Hne); [left|]. simpl.
  rewrite bool_decide_eq_false_2 by done. simpl.
  apply IH. intros c' Hc'. apply Hcs. by right.
Qed.

(** X1: attaching a node that collides with no child of [self], on
    consistent links, returns; the links stay consistent, the node has
    [self] as parent and is listed among its children, every node keeps
    its attributes, and looking the node's path up among the children of
    [self] gives the node back. *)
Theorem attach_child_attaches (st : Store) (self node : NodeId)
    (sn nd : ScopeTreeNode) :
  consistent st = true →
  st !! self = Some sn → st !! node = Some nd →
  (∀ c cn, c ∈ children sn → st !! c = Some cn →
           (path_id nd ≠ None → path_id cn ≠ path_id nd)
           ∧ (unique_id nd ≠ None → unique_id cn ≠ unique_id nd)) →
  ∃ st' sn' nd',
    attach_child self node st = Returns () st'
    ∧ consistent st' = true
    ∧ st' !! self = Some sn' ∧ st' !! node = Some nd'
    ∧ parent nd' = Some self ∧ node ∈ children sn'
    ∧ (∀ x xn, st !! x = Some xn →
               ∃ xn', st' !! x = Some xn' ∧ same_attributes xn xn')
    ∧ (∀ p, path_id nd = Some p →
            find_child 1 st' self p false = Some (Some node)).
Proof.
  intros Hcons Hself Hnode Hfree.
  apply consistent_links in Hcons as Hlinks.
  pose proof (children_allocated st Hcons self sn Hself) as Hkids.
  (* the two searches find nothing *)
  assert (match path_id nd with
          | Some _ => find_first st (λ c, bool_decide (path_id c = path_id nd))
                        (children sn)
          | None => Some None
          end = Some None) as Hclash.
  { destruct (path_id nd) as [p|] eqn:Hp; [|done].
    apply find_first_none. intros c Hc. destruct (Hkids c Hc) as [cn Hcn].
    exists cn. split; [done|]. apply bool_decide_eq_false.
    by apply (Hfree c cn Hc Hcn). }
  assert (match unique_id nd with
          | Some _ => find_first st
                        (λ c, bool_decide (unique_id c = unique_id nd))
                        (children sn)
          | None => Some None
          end = Some None) as Hsame.
  { destruct (unique_id nd) as [u|] eqn:Hu; [|done].
    apply find_first_none. intros c Hc. destruct (Hkids c Hc) as [cn Hcn].
    exists cn. split; [done|]. apply bool_decide_eq_false.
    by apply (Hfree c cn Hc Hcn). }
  destruct (set_parent_returns_on_links node (Some self) st Hlinks)
    as [st' Hset]; [by eexists|by intros p [= <-]; eexists|].
  assert (attach_child self node st = Returns () st') as Hrun.
  { unfold attach_child.
    rewrite (run_bind _ _ _ _ _ (get_returns _ _ _ Hnode)).
    rewrite (run_bind _ _ _ _ _ (get_returns _ _ _ Hself)).
    erewrite run_bind.
    2:{ instantiate (1 := st). instantiate (1 := None).
        destruct (path_id nd); [|done]. unfold query. by rewrite Hclash. }
    cbv beta iota. erewrite run_bind.
    2:{ instantiate (1 := st). instantiate (1 := None).
        destruct (unique_id nd); [|done]. unfold query. by rewrite Hsame. }
    exact Hset. }
  destruct (set_parent_edited node (Some self) st st' nd Hnode Hset)
    as [[Hlen Hed] Halloc].
  assert (links_ok st') as Hlinks'.
  { eapply set_parent_keeps_links; [exact Hlinks|exact Hset]. }
  exists st', (set_parent_edit node (Some self) (parent nd) self sn),
         (set_parent_edit node (Some self) (parent nd) node nd).
  split; [done|]. split; [by apply consistent_links|].
  split; [by apply Hed|]. split; [by apply Hed|].
  destruct (decide (Some self = parent nd)) as [Heq|Hne].
  - (* already a child of [self]: nothing moves *)
    assert (node ∈ children sn) as Hin.
    { destruct Hlinks as [_ Hp].
      destruct (Hp node nd self Hnode (eq_sym Heq)) as (sn0 & Hsn0 & Hin).
      congruence. }
    assert (∀ x xn, set_parent_edit node (Some self) (parent nd) x xn = xn)
      as Hid.
    { intros x xn. unfold set_parent_edit. by rewrite decide_True. }
    rewrite !Hid. split; [done|]. split; [done|]. split.
    + intros x xn Hx. exists xn. split; [|by repeat split].
      rewrite (Hed x xn Hx). by rewrite Hid.
    + intros p Hp. destruct (Hfree node nd Hin Hnode) as [Hno _].
      destruct Hno; congruence.
  - rewrite set_parent_edit_parent by done. rewrite decide_True by done.
    split; [done|].
    rewrite set_parent_edit_children by done. rewrite decide_True by done.
    split; [apply elem_of_set_add; by left|]. split.
    + intros x xn Hx. eexists. split; [by apply Hed|].
      apply set_parent_edit_attributes.
    + intros p Hp. simpl.
      rewrite (Hed self sn Hself). simpl.
      rewrite set_parent_edit_children by done. rewrite decide_True by done.
      assert (parent nd ≠ Some self) as Hcur by congruence.
      rewrite (decide_False _ _ Hcur). simpl.
      assert (node ∉ children sn) as Hnotin.
      { intros Hin. destruct Hlinks as [Hc _].
        destruct (Hc self sn node Hself Hin) as (nd0 & Hnd0 & Hpar).
        congruence. }
      unfold set_add. rewrite bool_decide_eq_false_2 by done.
      rewrite find_child_in_skip.
      * simpl. rewrite (Hed node nd Hnode). simpl.
        destruct (set_parent_edit_attributes node (Some self) (parent nd)
                    node nd) as (_ & Hpath & _).
        rewrite Hpath, Hp. by rewrite bool_decide_eq_true_2.
      * intros c Hc. destruct (Hkids c Hc) as [cn Hcn].
        eexists. split; [by apply Hed|].
        destruct (set_parent_edit_attributes node (Some self) (parent nd)
                    c cn) as (_ & Hpath & _).
        rewrite Hpath. destruct (Hfree c cn Hc Hcn) as [Hno _].
        rewrite <- Hp. apply Hno. congruence.
Qed.

Lemma attach_child_attaches_witness :
  ∃ st' sn' nd',
    attach_child 1 4 family.store = Returns () st'
    ∧ consistent st' = true
    ∧ st' !! 1 = Some sn' ∧ st' !! 4 = Some nd'
    ∧ parent nd' = Some 1 ∧ 4 ∈ children sn'
    ∧ (∀ x xn, family.store !! x = Some xn →
               ∃ xn', st' !! x = Some xn' ∧ same_attributes xn xn')
    ∧ (∀ p, path_id (mkNode None (Some path_A_b_c) false false false false
                            [] ∅ None) = Some p →
            find_child 1 st' 1 p false = Some (Some 4)).
Proof.
  apply (attach_child_attaches family.store 1 4
           (mkNode None (Some path_A) false false false false [] ∅ (Some 0))
           (mkNode None (Some path_A_b_c) false false false false [] ∅ None)).
  - reflexivity.
  - reflexivity.
  - reflexivity.
  - intros c cn Hc. by apply elem_of_nil in Hc.
Defined.

(** X2: on consistent links, removing a node returns and leaves
    consistent links; afterwards the node has no parent and no node lists
    it as a child, while every node keeps its attributes and every node
    but the former parent keeps its children. *)
Theorem remove_detaches (st : Store) (n : NodeId) (nd : ScopeTreeNode) :
  consistent st = true → st !! n = Some nd →
  ∃ st' nd',
    remove n st = Returns () st'
    ∧ consistent st' = true
    ∧ st' !! n = Some nd' ∧ parent nd' = None
    ∧ (∀ x xn', st' !! x = Some xn' → n ∉ children xn')
    ∧ (∀ x xn, st !! x = Some xn →
               ∃ xn', st' !! x = Some xn' ∧ same_attributes xn xn'
                      ∧ (parent nd ≠ Some x → children xn' = children xn)
                      ∧ (x ≠ n → parent xn' = parent xn)).
Proof.
  intros Hcons Hn. apply consistent_links in Hcons as Hlinks.
  destruct (set_parent_returns_on_links n None st Hlinks) as [st' Hset];
    [by eexists|done|].
  destruct (set_parent_edited n None st st' nd Hn Hset) as [[Hlen Hed] _].
  assert (links_ok st') as Hlinks'.
  { eapply set_parent_keeps_links; [exact Hlinks|exact Hset]. }
  assert (remove n st = Returns () st') as Hrun.
  { unfold remove. rewrite (run_bind _ _ _ _ _ (get_returns _ _ _ Hn)).
    destruct (parent nd) as [p|] eqn:Hpar.
    - destruct Hlinks as [_ Hp].
      destruct (Hp n nd p Hn Hpar) as (pn & Hpn & Hin).
      unfold remove_subtree.
      rewrite (run_bind _ _ _ _ _ (get_returns _ _ _ Hpn)).
      by rewrite (bool_decide_eq_true_2 _ Hin).
    - unfold _set_parent in Hset.
      rewrite (run_bind _ _ _ _ _ (get_returns _ _ _ Hn)) in Hset.
      rewrite Hpar in Hset. by rewrite bool_decide_eq_true_2 in Hset. }
  assert (parent (set_parent_edit n None (parent nd) n nd) = None) as Hnopar.
  { destruct (decide (None = parent nd)) as [Heq|Hne].
    - unfold set_parent_edit. by rewrite decide_True.
    - rewrite set_parent_edit_parent by done. by rewrite decide_True. }
  exists st', (set_parent_edit n None (parent nd) n nd).
  split; [done|]. split; [by apply consistent_links|].
  split; [by apply Hed|]. split; [done|]. split.
  - intros x xn' Hx' Hin. destruct Hlinks' as [Hc' _].
    destruct (Hc' x xn' n Hx' Hin) as (nd' & Hnd' & Hpar').
    rewrite (Hed n nd Hn) in Hnd'. injection Hnd' as <-. congruence.
  - intros x xn Hx. eexists. split; [by apply Hed|].
    split; [apply set_parent_edit_attributes|].
    destruct (decide (None = parent nd)) as [Heq|Hne].
    + unfold set_parent_edit. by rewrite decide_True.
    + rewrite set_parent_edit_children, set_parent_edit_parent by done.
      split.
      * intros Hnot. simpl. by rewrite decide_False.
      * intros Hxn. by rewrite decide_False.
Qed.

Lemma remove_detaches_witness :
  ∃ st' nd',
    remove 3 family.store = Returns () st'
    ∧ consistent st' = true
    ∧ st' !! 3 = Some nd' ∧ parent nd' = None
    ∧ (∀ x xn', st' !! x = Some xn' → 3 ∉ children xn')
    ∧ (∀ x xn, family.store !! x = Some xn →
               ∃ xn', st' !! x = Some xn' ∧ same_attributes xn xn'
                      ∧ (parent (mkNode (Some 7%Z) (Some path_A_b) false
                                        false false false [] ∅ (Some 2))
                         ≠ Some x → children xn' = children xn)
                      ∧ (x ≠ 3 → parent xn' = parent xn)).
Proof.
  apply (remove_detaches family.store 3
           (mkNode (Some 7%Z) (Some path_A_b) false false false false [] ∅
                   (Some 2))); reflexivity.
Defined.

(** X3: the merging operations keep the links consistent: whenever
    [attach_subtree], [fuse_subtree] or [attach_path] returns on a store
    with consistent links, the links of the new store are consistent. *)
Theorem merges_keep_links (fuel : nat) (self node : NodeId) (path : PathId)
    (st st' : Store) :
  consistent st = true →
  attach_subtree fuel self node st = Returns () st'
  ∨ fuse_subtree fuel self node st = Returns () st'
  ∨ attach_path fuel self path st = Returns () st' →
  consistent st' = true.
Proof.
  intros Hlinks%consistent_links Hrun. apply consistent_links.
  destruct links_invariant_laws as (H1 & H2 & H3 & H4).
  destruct Hrun as [Hrun|[Hrun|Hrun]].
  - by eapply (keeps_attach_subtree links_ok).
  - by eapply (keeps_fuse_subtree links_ok).
  - by eapply (keeps_attach_path links_ok).
Qed.

Lemma merges_keep_links_witness :
  consistent optional_merge.after_attach = true.
Proof.
  apply (merges_keep_links 5 0 2 path_A optional_merge.store
           optional_merge.after_attach).
  - reflexivity.
  - left. reflexivity.
Defined.

(** ** What a merge leaves alone *)

Section structure.

Variable R : ScopeTreeNode → ScopeTreeNode → Prop.
Hypothesis R_refl : ∀ nd, R nd nd.
Hypothesis R_trans : ∀ a b c, R a b → R b c → R a c.
Hypothesis R_parent : ∀ p nd, R nd (with_parent p nd).
Hypothesis R_children : ∀ f nd, R nd (with_children f nd).
Hypothesis R_path_id : ∀ p nd, R nd (with_path_id p nd).
Hypothesis R_optional : ∀ nd, R nd (with_optional true nd).

Lemma preserves_attach_prefixes (parent : NodeId) (is_lprop : bool)
    (prefixes : list PathId) :
  preserves R (attach_prefixes parent is_lprop prefixes).
Proof using R_refl R_trans R_parent R_children.
  revert parent is_lprop.
  induction prefixes as [|prefix prefixes IH]; intros parent is_lprop; simpl.
  - by apply preserves_ret.
  - destruct (is_ptr_path prefix); [apply IH|].
    apply preserves_bind; [done|by apply preserves_new_node|].
    intros new_child. apply preserves_bind; [done| |intros _; apply IH].
    by apply preserves_attach_child.
Qed.

Lemma preserves_attach_path (fuel : nat) (self : NodeId) (path : PathId) :
  preserves R (attach_path fuel self path).
Proof using All.
  unfold attach_path, attach_chain.
  apply preserves_bind; [done|by apply preserves_new_node|].
  intros subtree. apply preserves_bind; [done| |intros _].
  - apply preserves_attach_prefixes.
  - by apply preserves_attach_subtree.
Qed.

End structure.

Lemma structure_kept_laws :
  (∀ nd, structure_kept nd nd)
  ∧ (∀ a b c, structure_kept a b → structure_kept b c → structure_kept a c)
  ∧ (∀ p nd, structure_kept nd (with_parent p nd))
  ∧ (∀ f nd, structure_kept nd (with_children f nd))
  ∧ (∀ p nd, structure_kept nd (with_path_id p nd))
  ∧ (∀ nd, structure_kept nd (with_optional true nd)).
Proof.
  unfold structure_kept. split; [done|]. split; [|by repeat split].
  intros a b c (Ha1 & Ha2 & Ha3 & Ha4 & Ha5) (Hb1 & Hb2 & Hb3 & Hb4 & Hb5).
  repeat split; congruence.
Qed.

(** X4: a merge never deletes a node and never changes the unique id,
    the fence flag, the [protect_parent] and [unnest_fence] marks or the
    namespaces of a node that was there before: whenever [attach_subtree],
    [fuse_subtree] or [attach_path] returns, every node of the old store
    is in the new one with these attributes unchanged. *)
Theorem merges_keep_structure (fuel : nat) (self node : NodeId)
    (path : PathId) (st st' : Store) (x : NodeId) (xn : ScopeTreeNode) :
  attach_subtree fuel self node st = Returns () st'
  ∨ fuse_subtree fuel self node st = Returns () st'
  ∨ attach_path fuel self path st = Returns () st' →
  st !! x = Some xn →
  ∃ xn', st' !! x = Some xn' ∧ structure_kept xn xn'.
Proof.
  intros Hrun Hx.
  destruct structure_kept_laws as (H1 & H2 & H3 & H4 & H5 & H6).
  destruct Hrun as [Hrun|[Hrun|Hrun]].
  - by eapply (preserves_attach_subtree structure_kept).
  - by eapply (preserves_fuse_subtree structure_kept).
  - by eapply (preserves_attach_path structure_kept).
Qed.

Lemma merges_keep_structure_witness :
  ∃ xn', optional_merge.after_fuse !! 3 = Some xn'
         ∧ structure_kept
             (mkNode None (Some path_A) false false false true [] ∅ (Some 2))
             xn'.
Proof.
  apply (merges_keep_structure 5 1 3 path_A optional_merge.store
           optional_merge.after_fuse 3).
  - right. left. reflexivity.
  - reflexivity.
Defined.

(** ** Comparing paths *)

(** X5: both path comparisons are symmetric, a path equals itself under
    either of them, and with no namespaces to strip [_paths_equal] is
    plain equality of two paths that are both present. *)
Theorem path_comparisons_symmetric (p q : option PathId)
    (nss : gset string) :
  _paths_equal p q nss = _paths_equal q p nss
  ∧ _paths_equal_to_shortest_ns p q = _paths_equal_to_shortest_ns q p
  ∧ (p ≠ None → _paths_equal p p nss = true
                ∧ _paths_equal_to_shortest_ns p p = true)
  ∧ (_paths_equal p q ∅ = true ↔ p = q ∧ p ≠ None).
Proof.
  split; [|split; [|split; [|split]]].
  - unfold _paths_equal. destruct p as [p|], q as [q|]; try done.
    destruct (bool_decide (nss ≠ ∅)); apply bool_decide_ext; split; congruence.
  - unfold _paths_equal_to_shortest_ns. destruct p as [p|], q as [q|]; try done.
    rewrite (andb_comm (bool_decide (namespace q = ∅))).
    destruct (bool_decide (namespace p = ∅) && bool_decide (namespace q = ∅)).
    + apply bool_decide_ext; split; congruence.
    + rewrite (andb_comm (bool_decide (namespace q ∖ namespace p ≠ ∅))).
      destruct (bool_decide (namespace p ∖ namespace q ≠ ∅)
                && bool_decide (namespace q ∖ namespace p ≠ ∅)); [done|].
      apply bool_decide_ext; split; congruence.
  - intros Hp. destruct p as [p|]; [|done]. split; [apply paths_equal_refl|].
    unfold _paths_equal_to_shortest_ns.
    destruct (bool_decide (namespace p = ∅) && bool_decide (namespace p = ∅));
      [by apply bool_decide_eq_true|].
    rewrite difference_diag_L.
    rewrite (bool_decide_eq_false_2 (∅ ≠ ∅)) by (intros H; by apply H).
    by apply bool_decide_eq_true.
  - intros H. unfold _paths_equal in H. destruct p as [p|], q as [q|]; try done.
    rewrite (bool_decide_eq_false_2 (∅ ≠ ∅)) in H by (intros H'; by apply H').
    apply bool_decide_eq_true in H. by subst.
  - intros [<- Hp]. destruct p as [p|]; [|done]. apply paths_equal_refl.
Qed.

(** ** What [find_visible] finds *)

Lemma find_visible_from_sound (st : Store) (p : PathId) (fuel : nat)
    (nss ans : gset string) (n v : NodeId) :
  find_visible_from fuel st p nss ans (Some n) = Some (Some v) →
  ∃ j a vn nss',
    reaches st j n a
    ∧ (v = a ∨ ∃ an, st !! a = Some an ∧ v ∈ children an)
    ∧ st !! v = Some vn
    ∧ _paths_equal (path_id vn) (Some p) nss' = true
    ∧ ∀ ns, ns ∈ nss' →
        ns ∈ nss ∨ ns ∈ ans
        ∨ ∃ i b bn, reaches st i n b ∧ st !! b = Some bn ∧ ns ∈ namespaces bn.
Proof.
  revert nss ans n. induction fuel as [|fuel IH]; intros nss ans n; simpl;
    [done|].
  destruct (st !! n) as [nd|] eqn:Hnd; simpl; [|done].
  destruct (_paths_equal (path_id nd) (Some p) nss) eqn:Hself.
  { intros [= <-]. exists 0, n, nd, nss.
    split; [constructor|]. split; [by left|]. repeat split; auto. }
  destruct (find_first st _ (children nd)) as [[c|]|] eqn:Hc; simpl; [| |done].
  - intros [= <-]. apply find_first_found in Hc as (Hin & cn & Hcn & Ht).
    exists 0, n, cn, nss. split; [constructor|]. split; [right; eauto|].
    repeat split; auto.
  - destruct (parent nd) as [q|] eqn:Hq; [|by destruct fuel].
    intros Hrec.
    destruct (IH _ _ _ Hrec) as (j & a & vn & nss' & Hr & Hv & Hvn & Heq & Hns).
    exists (S j), a, vn, nss'. split; [by eapply reaches_up|].
    split; [done|]. split; [done|]. split; [done|].
    intros ns Hin. destruct (Hns ns Hin) as [H|[H|(i & b & bn & Hi & Hb & H)]].
    + apply elem_of_union in H as [H|H]; [by left|].
      apply elem_of_union in H as [H|H]; [by right; left|].
      right. right. exists 0, n, nd. split; [constructor|done].
    + apply elem_of_union in H as [H|H]; [by right; left|].
      right. right. exists 0, n, nd. split; [constructor|done].
    + right. right. exists (S i), b, bn. split; [by eapply reaches_up|done].
Qed.

(** X6: the node [find_visible] returns is an ancestor of the start
    (the start included) or a child of one, and its path equals the one
    looked for once some namespaces, all declared by ancestors of the
    start, are stripped off both. *)
Theorem find_visible_sound (fuel : nat) (st : Store) (self : NodeId)
    (p : PathId) (v : NodeId) :
  find_visible fuel st self p = Some (Some v) →
  ∃ j a vn nss,
    reaches st j self a
    ∧ (v = a ∨ ∃ an, st !! a = Some an ∧ v ∈ children an)
    ∧ st !! v = Some vn
    ∧ _paths_equal (path_id vn) (Some p) nss = true
    ∧ ∀ ns, ns ∈ nss →
        ∃ i b bn, reaches st i self b ∧ st !! b = Some bn
                  ∧ ns ∈ namespaces bn.
Proof.
  intros Hv. apply find_visible_from_sound in Hv
    as (j & a & vn & nss & Hr & Hva & Hvn & Heq & Hns).
  exists j, a, vn, nss. repeat (split; [done|]).
  intros ns Hin. destruct (Hns ns Hin) as [H|[H|H]]; [| |done];
    by apply elem_of_empty in H.
Qed.

Lemma find_visible_sound_witness :
  ∃ j a vn nss,
    reaches family.store j 3 a
    ∧ (1 = a ∨ ∃ an, family.store !! a = Some an ∧ 1 ∈ children an)
    ∧ family.store !! 1 = Some vn
    ∧ _paths_equal (path_id vn) (Some path_A) nss = true
    ∧ ∀ ns, ns ∈ nss →
        ∃ i b bn, reaches family.store i 3 b ∧ family.store !! b = Some bn
                  ∧ ns ∈ namespaces bn.
Proof.
  apply (find_visible_sound 5 family.store 3 path_A 1). reflexivity.
Defined.

Lemma find_visible_from_complete (st : Store) (p : PathId) (k : nat)
    (n a : NodeId) :
  reaches st k n a →
  ∀ (fuel : nat) (nss ans : gset string) (an : ScopeTreeNode),
    find_visible_from fuel st p nss ans (Some n) = Some None →
    st !! a = Some an →
    path_id an ≠ Some p
    ∧ ∀ c cn, c ∈ children an → st !! c = Some cn → path_id cn ≠ Some p.
Proof.
  induction 1 as [n|k d nd q n Hd Hq Hr IH]; intros fuel nss ans an.
  - destruct fuel as [|fuel]; simpl; [done|]. intros Hfind Hn.
    rewrite Hn in Hfind. simpl in Hfind.
    destruct (_paths_equal (path_id an) (Some p) nss) eqn:Hself; [done|].
    destruct (find_first st _ (children an)) as [[c|]|] eqn:Hc;
      simpl in Hfind; [done| |done].
    split.
    + intros Heq. rewrite Heq, paths_equal_refl in Hself. done.
    + intros c cn Hin Hcn Heq. rewrite find_first_none in Hc.
      destruct (Hc c Hin) as (cn' & Hcn' & Hf).
      assert (cn' = cn) as -> by congruence.
      rewrite Heq, paths_equal_refl in Hf. done.
  - destruct fuel as [|fuel]; simpl; [done|]. rewrite Hd. simpl.
    destruct (_paths_equal (path_id nd) (Some p) nss); [done|].
    destruct (find_first st _ (children nd)) as [[c|]|]; simpl; [done| |done].
    rewrite Hq. apply IH.
Qed.

(** X7: when [find_visible] finds nothing for a path, no ancestor of the
    start (the start included) and no child of an ancestor is labelled
    with that very path: a path bound on the way up is never missed. *)
Theorem find_visible_complete (fuel : nat) (st : Store) (self : NodeId)
    (p : PathId) (k : nat) (a : NodeId) (an : ScopeTreeNode) :
  find_visible fuel st self p = Some None →
  reaches st k self a → st !! a = Some an →
  path_id an ≠ Some p
  ∧ ∀ c cn, c ∈ children an → st !! c = Some cn → path_id cn ≠ Some p.
Proof.
  intros Hfind Hr Ha. by eapply find_visible_from_complete.
Qed.

Lemma find_visible_complete_witness :
  path_id (mkNode None None true false false false [1; 2] ∅ None)
    ≠ Some path_A_b_c
  ∧ ∀ c cn,
      c ∈ children (mkNode None None true false false false [1; 2] ∅ None) →
      family.store !! c = Some cn → path_id cn ≠ Some path_A_b_c.
Proof.
  apply (find_visible_complete 5 family.store 3 path_A_b_c 2 0).
  - reflexivity.
  - eapply reaches_up; [reflexivity|reflexivity|].
    eapply reaches_up; [reflexivity|reflexivity|]. constructor.
  - reflexivity.
Defined.

(** ** Searches on two stores that show the same scopes *)

Lemma find_first_agree (st st' : Store) (test : ScopeTreeNode → bool)
    (cs : list NodeId) (r : option NodeId) :
  (∀ c cn, c ∈ cs → st !! c = Some cn →
           ∃ cn', st' !! c = Some cn' ∧ test cn' = test cn) →
  find_first st test cs = Some r → find_first st' test cs = Some r.
Proof.
  induction cs as [|c cs IH]; simpl; intros Hcs; [done|].
  destruct (st !! c) as [cn|] eqn:Hc; simpl; [|done].
  destruct (Hcs c cn) as (cn' & -> & Ht); [left|done|]. simpl. rewrite Ht.
  destruct (test cn); [done|]. apply IH.
  intros c' cn'' Hin. apply Hcs. by right.
Qed.

Lemma find_visible_from_agree (st st' : Store) (p : PathId) :
  (∀ x xn, st !! x = Some xn →
     ∃ xn', st' !! x = Some xn' ∧ path_id xn' = path_id xn
            ∧ namespaces xn' = namespaces xn ∧ parent xn' = parent xn
            ∧ ∀ nss r,
                find_first st (λ c, _paths_equal (path_id c) (Some p) nss)
                  (children xn) = Some r →
                find_first st' (λ c, _paths_equal (path_id c) (Some p) nss)
                  (children xn') = Some r) →
  ∀ fuel nss ans node r,
    find_visible_from fuel st p nss ans node = Some r →
    find_visible_from fuel st' p nss ans node = Some r.
Proof.
  intros Hsame. induction fuel as [|fuel IH]; intros nss ans node r.
  - by destruct node.
  - destruct node as [n|]; simpl; [|done].
    destruct (st !! n) as [nd|] eqn:Hnd; simpl; [|done].
    destruct (Hsame n nd Hnd) as (nd' & -> & Hp & Hns & Hpar & Hch). simpl.
    rewrite Hp, Hns, Hpar.
    destruct (_paths_equal (path_id nd) (Some p) nss); [done|].
    destruct (find_first st _ (children nd)) as [found|] eqn:Hc; simpl;
      [|done].
    rewrite (Hch _ _ Hc). simpl. destruct found; [done|]. apply IH.
Qed.

(** The stores show the same scopes: every node of the first is in the
    second with the same label, namespaces and links. *)
Lemma find_visible_same_scope (st st' : Store) :
  (∀ x xn, st !! x = Some xn → ∃ xn', st' !! x = Some xn' ∧ same_scope xn xn') →
  ∀ fuel n p r,
    find_visible fuel st n p = Some r → find_visible fuel st' n p = Some r.
Proof.
  intros Hsame fuel n p r. apply find_visible_from_agree.
  intros x xn Hx. destruct (Hsame x xn Hx) as (xn' & Hx' & Hp & Hns & Hpar & Hch).
  exists xn'. repeat (split; [done|]). intros nss r'. rewrite Hch.
  apply find_first_agree. intros c cn _ Hc.
  destruct (Hsame c cn Hc) as (cn' & Hc' & Hcp & _).
  exists cn'. split; [done|]. by rewrite Hcp.
Qed.

(** ** Marking a path optional and asking for it *)

(** X8: whenever [find_visible] returns, [mark_as_optional] returns;
    afterwards [is_optional] answers true exactly when the path was
    visible, every search for a visible node gives what it gave before,
    and only the optional flag of the node found can have changed. *)
Theorem mark_as_optional_then_is_optional (fuel : nat) (st : Store)
    (self : NodeId) (p : PathId) (r : option NodeId) :
  find_visible fuel st self p = Some r →
  ∃ st',
    mark_as_optional fuel self p st = Returns () st'
    ∧ is_optional fuel st' self p = Some (bool_decide (r ≠ None))
    ∧ (∀ fuel' n q r',
         find_visible fuel' st n q = Some r' →
         find_visible fuel' st' n q = Some r')
    ∧ (∀ x xn, st !! x = Some xn →
         ∃ xn', st' !! x = Some xn' ∧ same_scope xn xn'
                ∧ structure_kept xn xn' ∧ (r ≠ Some x → xn' = xn)).
Proof.
  intros Hfind. destruct r as [v|].
  - pose proof Hfind as Hv. apply find_visible_from_sound in Hv
      as (_ & _ & vn & _ & _ & _ & Hvn & _).
    set (st' := <[v := with_optional true vn]> st).
    assert (∀ x xn, st !! x = Some xn →
              ∃ xn', st' !! x = Some xn' ∧ same_scope xn xn'
                     ∧ structure_kept xn xn' ∧ (Some v ≠ Some x → xn' = xn))
      as Hnodes.
    { intros x xn Hx. unfold st'. destruct (decide (x = v)) as [->|Hne].
      - exists (with_optional true vn). assert (xn = vn) as -> by congruence.
        split; [apply list_lookup_insert_eq; by eapply lookup_lt_Some|].
        by repeat split.
      - exists xn. split; [by rewrite list_lookup_insert_ne|].
        by repeat split. }
    assert (∀ fuel' n q r',
              find_visible fuel' st n q = Some r' →
              find_visible fuel' st' n q = Some r') as Hsame.
    { apply find_visible_same_scope. intros x xn Hx.
      destruct (Hnodes x xn Hx) as (xn' & Hx' & Hs & _). eauto. }
    exists st'. split.
    { unfold mark_as_optional.
      erewrite run_bind; [|unfold query; by rewrite Hfind].
      by apply update_returns. }
    split; [|done].
    unfold is_optional. rewrite (Hsame _ _ _ _ Hfind). simpl.
    unfold st'. rewrite list_lookup_insert_eq by (by eapply lookup_lt_Some).
    done.
  - exists st. split; [by apply mark_as_optional_invisible|].
    split; [by apply is_optional_invisible|]. split; [done|].
    intros x xn Hx. exists xn. by repeat split.
Qed.

Lemma mark_as_optional_then_is_optional_witness :
  ∃ st',
    mark_as_optional 5 3 path_A family.store = Returns () st'
    ∧ is_optional 5 st' 3 path_A = Some (bool_decide (Some 1 ≠ None))
    ∧ (∀ fuel' n q r',
         find_visible fuel' family.store n q = Some r' →
         find_visible fuel' st' n q = Some r')
    ∧ (∀ x xn, family.store !! x = Some xn →
         ∃ xn', st' !! x = Some xn' ∧ same_scope xn xn'
                ∧ structure_kept xn xn' ∧ (Some 1 ≠ Some x → xn' = xn)).
Proof.
  apply (mark_as_optional_then_is_optional 5 family.store 3 path_A (Some 1)).
  reflexivity.
Defined.

(** ** A fresh fence or branch *)

Lemma find_first_app (st : Store) (test : ScopeTreeNode → bool)
    (cs rest : list NodeId) (r : option NodeId) :
  find_first st test cs = Some r →
  find_first st test (cs ++ rest)
  = match r with Some c => Some (Some c) | None => find_first st test rest end.
Proof.
  induction cs as [|c cs IH]; simpl.
  - by intros [= <-].
  - destruct (st !! c) as [cn|]; simpl; [|done].
    destruct (test cn); [by intros [= <-]|]. apply IH.
Qed.

(** The store once a fresh node without a path has been attached to
    [self]. *)
Lemma attach_fresh_returns (st : Store) (self : NodeId) (sn : ScopeTreeNode)
    (b : bool) :
  st !! self = Some sn →
  (if b then attach_fence self else attach_branch self) st
  = Returns (length st)
      (<[self := with_children (set_add (length st)) sn]>
         (<[length st := with_parent (Some self) (init None b None)]>
            (st ++ [init None b None]))).
Proof.
  intros Hself. pose proof (lookup_lt_Some _ _ _ Hself) as Hlt.
  assert ((st ++ [init None b None]) !! length st = Some (init None b None))
    as Hf by (by rewrite lookup_app_r, Nat.sub_diag by lia).
  assert ((st ++ [init None b None]) !! self = Some sn)
    as Hs by (by apply lookup_app_l_Some).
  assert (length st < length (st ++ [init None b None])) as Hlen
    by (rewrite length_app; simpl; lia).
  assert (attach_child self (length st) (st ++ [init None b None])
          = Returns ()
              (<[self := with_children (set_add (length st)) sn]>
                 (<[length st := with_parent (Some self) (init None b None)]>
                    (st ++ [init None b None])))) as Hattach.
  { unfold attach_child.
    rewrite (run_bind _ _ _ _ _ (get_returns _ _ _ Hf)).
    rewrite (run_bind _ _ _ _ _ (get_returns _ _ _ Hs)). simpl.
    erewrite run_bind; [|reflexivity]. cbv beta iota.
    erewrite run_bind; [|reflexivity]. cbv beta iota. unfold _set_parent.
    rewrite (run_bind _ _ _ _ _ (get_returns _ _ _ Hf)). simpl.
    erewrite run_bind; [|reflexivity]. cbv beta iota.
    erewrite run_bind; [|by apply update_returns].
    apply update_returns. rewrite list_lookup_insert_ne by lia. done. }
  destruct b; unfold attach_fence, attach_branch;
    (erewrite run_bind; [|reflexivity]);
    (erewrite run_bind; [|exact Hattach]); done.
Qed.

(** X9: [attach_fence] and [attach_branch] return a fresh node, fenced
    or not, without path or children, whose parent is [self]; on
    consistent links the links stay consistent, every path search that
    returned before returns the same, and from the fresh node a search
    gives exactly what it gives from [self]: the new scope starts out
    seeing what its parent sees. *)
Theorem attach_fence_sees_parent_scope (st : Store) (self : NodeId)
    (sn : ScopeTreeNode) (b : bool) :
  consistent st = true → st !! self = Some sn →
  ∃ st' fn,
    (if b then attach_fence self else attach_branch self) st
    = Returns (length st) st'
    ∧ consistent st' = true
    ∧ st' !! length st = Some fn
    ∧ fn = with_parent (Some self) (init None b None)
    ∧ (∀ fuel n p r,
         find_visible fuel st n p = Some r →
         find_visible fuel st' n p = Some r)
    ∧ (∀ fuel p r,
         find_visible fuel st self p = Some r →
         find_visible (S fuel) st' (length st) p = Some r).
Proof.
  intros Hcons Hself. pose proof (lookup_lt_Some _ _ _ Hself) as Hlt.
  pose proof (attach_fresh_returns st self sn b Hself) as Hrun.
  set (fn := init None b None) in *.
  set (st' := <[self := _]> _) in *.
  assert (length st < length (st ++ [fn])) as Hlen
    by (rewrite length_app; simpl; lia).
  assert (st' !! length st = Some (with_parent (Some self) fn)) as Hf'.
  { unfold st'. rewrite list_lookup_insert_ne by lia.
    by apply list_lookup_insert_eq. }
  assert (st' !! self = Some (with_children (set_add (length st)) sn))
    as Hs'.
  { unfold st'. apply list_lookup_insert_eq.
    rewrite length_insert, length_app. lia. }
  assert (∀ x xn, x ≠ self → st !! x = Some xn → st' !! x = Some xn) as Hother.
  { intros x xn Hne Hx. pose proof (lookup_lt_Some _ _ _ Hx).
    unfold st'. rewrite !list_lookup_insert_ne by lia.
    by apply lookup_app_l_Some. }
  assert (length st ∉ children sn) as Hfresh.
  { intros Hin. destruct (children_allocated st Hcons self sn Hself _ Hin)
      as [xn Hx]. apply lookup_lt_Some in Hx. lia. }
  assert (∀ p fuel nss ans node r,
            find_visible_from fuel st p nss ans node = Some r →
            find_visible_from fuel st' p nss ans node = Some r) as Hagree.
  { intros p. apply find_visible_from_agree. intros x xn Hx.
    assert (∀ nss cs r,
              find_first st (λ c, _paths_equal (path_id c) (Some p) nss) cs
              = Some r →
              find_first st' (λ c, _paths_equal (path_id c) (Some p) nss) cs
              = Some r) as Hkids.
    { intros nss cs r. apply find_first_agree. intros c cn _ Hc.
      destruct (decide (c = self)) as [->|Hne].
      - exists (with_children (set_add (length st)) sn). split; [done|].
        by assert (cn = sn) as -> by congruence.
      - exists cn. split; [by apply Hother|done]. }
    destruct (decide (x = self)) as [->|Hne].
    - assert (xn = sn) as -> by congruence.
      exists (with_children (set_add (length st)) sn).
      repeat (split; [done|]). intros nss r Hr. simpl.
      unfold set_add. rewrite bool_decide_eq_false_2 by done.
      rewrite (find_first_app _ _ _ _ _ (Hkids _ _ _ Hr)).
      destruct r; [done|]. simpl. by rewrite Hf'.
    - exists xn. split; [by apply Hother|]. repeat (split; [done|]).
      intros nss r. apply Hkids. }
  exists st', (with_parent (Some self) fn).
  split; [done|]. split.
  { apply consistent_links. apply consistent_links in Hcons.
    destruct links_invariant_laws as (H1 & H2 & H3 & H4).
    destruct b.
    - by eapply (keeps_attach_fence links_ok).
    - by eapply (keeps_attach_branch links_ok). }
  split; [done|]. split; [done|]. split.
  - intros fuel n p r. apply Hagree.
  - intros fuel p r Hr. unfold find_visible. simpl. rewrite Hf'. simpl.
    rewrite !(left_id_L ∅ (∪)). by apply Hagree.
Qed.

Lemma attach_fence_sees_parent_scope_witness :
  ∃ st' fn,
    attach_fence 2 family.store = Returns (length family.store) st'
    ∧ consistent st' = true
    ∧ st' !! length family.store = Some fn
    ∧ fn = with_parent (Some 2) (init None true None)
    ∧ (∀ fuel n p r,
         find_visible fuel family.store n p = Some r →
         find_visible fuel st' n p = Some r)
    ∧ (∀ fuel p r,
         find_visible fuel family.store 2 p = Some r →
         find_visible (S fuel) st' (length family.store) p = Some r).
Proof.
  apply (attach_fence_sees_parent_scope family.store 2
           (mkNode None None false false false false [3] ∅ (Some 0)) true).
  - reflexivity.
  - reflexivity.
Defined.

(** ** Empty subtrees *)

Lemma has_path_allocated (st : Store) (n : NodeId) (nd : ScopeTreeNode) :
  st !! n = Some nd → has_path st n = bool_decide (path_id nd ≠ None).
Proof. intros H. unfold has_path. by rewrite H. Qed.

Lemma is_empty_strict_descendants (fuel : nat) (st : Store) (n : NodeId)
    (ds : list NodeId) :
  strict_descendants fuel st n = Some ds →
  is_empty fuel st n
  = Some (bool_decide (filter (λ d, has_path st d) (n :: ds) = [])).
Proof.
  revert n ds. induction fuel as [|fuel IH]; intros n ds; simpl; [done|].
  destruct (st !! n) as [nd|] eqn:Hn; simpl; [|done].
  rewrite filter_cons, (has_path_allocated _ _ _ Hn).
  destruct (bool_decide (path_id nd ≠ None)) eqn:Hp.
  { intros _. rewrite decide_True by done. done. }
  rewrite decide_False by (intros []).
  revert ds. induction (children nd) as [|c cs IHcs]; intros ds; simpl.
  - by intros [= <-].
  - destruct (strict_descendants fuel st c) as [dc|] eqn:Hdc; simpl; [|done].
    destruct (foldr _ _ cs) as [r|] eqn:Hr; simpl; [|done].
    intros [= <-]. rewrite (IH c dc Hdc). simpl.
    change (c :: dc ++ r) with ((c :: dc) ++ r). rewrite filter_app.
    destruct (filter (λ d, has_path st d) (c :: dc)) as [|x xs] eqn:Hf.
    + rewrite bool_decide_eq_true_2 by done. simpl. by apply IHcs.
    + by rewrite bool_decide_eq_false_2 by done.
Qed.

(** X10: [is_empty] answers true exactly when the node has no path
    descendant, itself included: whenever [path_descendants] returns,
    [is_empty] returns and tells whether that list is empty. *)
Theorem is_empty_no_path_descendants (fuel : nat) (st : Store) (n : NodeId)
    (pds : list NodeId) :
  path_descendants fuel st n = Some pds →
  is_empty fuel st n = Some (bool_decide (pds = [])).
Proof.
  unfold path_descendants, descendants.
  destruct (strict_descendants fuel st n) as [ds|] eqn:Hds; simpl; [|done].
  intros [= <-]. by apply is_empty_strict_descendants.
Qed.

Lemma is_empty_no_path_descendants_witness :
  is_empty 5 family.store 2 = Some (bool_decide ([3] = [])).
Proof.
  apply (is_empty_no_path_descendants 5 family.store 2 [3]). reflexivity.
Defined.

(** ** Namespaces in effect *)

Lemma effective_namespaces_from (fuel : nat) (st : Store) (n : NodeId)
    (nss acc : gset string) (la : list NodeId) :
  ancestors_from fuel st (Some n) = Some la →
  ∃ l, ancestors_and_namespaces_from fuel st nss (Some n) = Some l
       ∧ foldl (λ nss '(_, a), nss ∪ a) acc l
         = acc ∪ nss ∪ ⋃ (namespaces_of st <$> la).
Proof.
  revert n nss acc la. induction fuel as [|fuel IH]; intros n nss acc la;
    simpl; [done|].
  destruct (st !! n) as [nd|] eqn:Hn; simpl; [|done].
  destruct (parent nd) as [q|] eqn:Hq.
  - destruct (ancestors_from fuel st (Some q)) as [lq|] eqn:Hlq; simpl;
      [|done].
    intros [= <-].
    destruct (IH q (nss ∪ namespaces nd) (acc ∪ (nss ∪ namespaces nd)) lq Hlq)
      as (l & -> & Hfold).
    eexists. split; [done|]. simpl. rewrite Hfold.
    unfold namespaces_of at 2. rewrite Hn.
    apply set_eq. intros x. rewrite !elem_of_union. tauto.
  - destruct fuel as [|fuel]; simpl; intros [= <-]; (eexists; split; [done|]);
      simpl; unfold namespaces_of; rewrite Hn;
      apply set_eq; intros x; rewrite !elem_of_union, elem_of_empty; tauto.
Qed.

(** X11: the namespaces in effect at a node are those declared by the
    node and by its ancestors: whenever the walk up the parents ends,
    [get_effective_namespaces] returns the union of their namespaces. *)
Theorem effective_namespaces_union (fuel : nat) (st : Store) (self : NodeId)
    (la : list NodeId) :
  ancestors fuel st self = Some la →
  get_effective_namespaces fuel st self
  = Some (⋃ (namespaces_of st <$> la)).
Proof.
  intros Hla. unfold get_effective_namespaces, ancestors_and_namespaces.
  destruct (effective_namespaces_from fuel st self ∅ ∅ la Hla)
    as (l & -> & Hfold).
  simpl. rewrite Hfold. f_equal.
  apply set_eq. intros x. rewrite !elem_of_union, elem_of_empty. tauto.
Qed.

Lemma effective_namespaces_union_witness :
  get_effective_namespaces 5 family.store 3
  = Some (⋃ (namespaces_of family.store <$> [3; 2; 0])).
Proof.
  apply (effective_namespaces_union 5 family.store 3 [3; 2; 0]). reflexivity.
Defined.

Lemma ancestors_from_same_parents (st st' : Store) :
  (∀ x xn, st !! x = Some xn →
           ∃ xn', st' !! x = Some xn' ∧ parent xn' = parent xn) →
  ∀ fuel node la,
    ancestors_from fuel st node = Some la →
    ancestors_from fuel st' node = Some la.
Proof.
  intros Hsame. induction fuel as [|fuel IH]; intros node la.
  - by destruct node.
  - destruct node as [n|]; simpl; [|done].
    destruct (st !! n) as [nd|] eqn:Hn; simpl; [|done].
    destruct (Hsame n nd Hn) as (nd' & -> & Hpar). simpl. rewrite Hpar.
    destruct (ancestors_from fuel st (parent nd)) as [lp|] eqn:Hlp; simpl;
      [|done].
    by rewrite (IH _ _ Hlp).
Qed.

Lemma ancestors_from_head (fuel : nat) (st : Store) (n : NodeId)
    (la : list NodeId) :
  ancestors_from fuel st (Some n) = Some la → ∃ rest, la = n :: rest.
Proof.
  destruct fuel as [|fuel]; simpl; [done|].
  destruct (st !! n) as [nd|]; simpl; [|done].
  destruct (ancestors_from fuel st (parent nd)); simpl; [|done].
  intros [= <-]. eauto.
Qed.

Lemma ancestors_and_namespaces_walk (fuel : nat) (st : Store)
    (nss : gset string) (node : option NodeId)
    (l : list (NodeId * gset string)) :
  ancestors_and_namespaces_from fuel st nss node = Some l →
  ancestors_from fuel st node = Some l.*1.
Proof.
  revert nss node l. induction fuel as [|fuel IH]; intros nss node l.
  - destruct node; simpl; [done|]. by intros [= <-].
  - destruct node as [n|]; simpl; [|by intros [= <-]].
    destruct (st !! n) as [nd|]; simpl; [|done].
    destruct (ancestors_and_namespaces_from fuel st _ (parent nd))
      as [rest|] eqn:Hrest; simpl; [|done].
    intros [= <-]. by rewrite (IH _ _ _ Hrest).
Qed.

Lemma namespaces_after_update (st : Store) (self : NodeId)
    (sn : ScopeTreeNode) (extra : gset string) (l : list NodeId) :
  st !! self = Some sn →
  ⋃ (namespaces_of (<[self := with_namespaces (λ own, own ∪ extra) sn]> st)
       <$> l)
  = ⋃ (namespaces_of st <$> l) ∪ (if bool_decide (self ∈ l) then extra else ∅).
Proof.
  intros Hself. pose proof (lookup_lt_Some _ _ _ Hself) as Hlt.
  induction l as [|x l IH].
  - simpl. by rewrite (left_id_L ∅ (∪)).
  - rewrite !fmap_cons, !union_list_cons, IH. apply set_eq. intros ns. rewrite !elem_of_union.
    unfold namespaces_of. destruct (decide (x = self)) as [->|Hne].
    + rewrite list_lookup_insert_eq by done. rewrite Hself. simpl.
      rewrite (bool_decide_eq_true_2 (self ∈ self :: l)) by left.
      rewrite elem_of_union. destruct (bool_decide (self ∈ l)); [tauto|].
      rewrite elem_of_empty. tauto.
    + rewrite list_lookup_insert_ne by done.
      destruct (decide (self ∈ l)) as [Hin|Hnot].
      * rewrite !bool_decide_eq_true_2; [tauto|by right|done].
      * rewrite !bool_decide_eq_false_2; [tauto| |done].
        intros [?|?]%elem_of_cons; [congruence|done].
Qed.

(** X12: [add_namespaces] returns whenever the walk up the parents ends;
    it changes nothing but the namespaces of [self], to which it adds
    the new names that were not in effect, so that the names in effect
    at [self] become the old ones together with the new ones; asking
    for the same names again changes nothing. *)
Theorem add_namespaces_effective (fuel : nat) (st : Store) (self : NodeId)
    (nss effective : gset string) :
  get_effective_namespaces fuel st self = Some effective →
  ∃ st' sn,
    add_namespaces fuel self nss st = Returns () st'
    ∧ st !! self = Some sn
    ∧ st' = <[self := with_namespaces (λ own, own ∪ (nss ∖ effective)) sn]> st
    ∧ get_effective_namespaces fuel st' self = Some (effective ∪ nss)
    ∧ add_namespaces fuel self nss st' = Returns () st'.
Proof.
  intros Heff.
  assert (∃ la, ancestors fuel st self = Some la) as [la Hla].
  { unfold get_effective_namespaces, ancestors_and_namespaces in Heff.
    destruct (ancestors_and_namespaces_from fuel st ∅ (Some self))
      as [l|] eqn:Hl; [|done].
    exists l.*1. by eapply ancestors_and_namespaces_walk. }
  destruct (ancestors_from_head _ _ _ _ Hla) as [rest ->].
  assert (∃ sn, st !! self = Some sn) as [sn Hself].
  { unfold ancestors in Hla. destruct fuel as [|fuel]; simpl in Hla; [done|].
    destruct (st !! self) as [sn|]; [eauto|done]. }
  pose proof (lookup_lt_Some _ _ _ Hself) as Hlt.
  assert (effective = ⋃ (namespaces_of st <$> self :: rest)) as Heq.
  { destruct (effective_namespaces_from fuel st self ∅ ∅ _ Hla)
      as (l & Hl & Hfold).
    unfold get_effective_namespaces, ancestors_and_namespaces in Heff.
    rewrite Hl in Heff. simpl in Heff.
    rewrite Hfold, !(left_id_L ∅ (∪)) in Heff. by injection Heff as <-. }
  set (st' := <[self := with_namespaces (λ own, own ∪ (nss ∖ effective)) sn]> st).
  assert (get_effective_namespaces fuel st' self = Some (effective ∪ nss))
    as Heff'.
  { assert (ancestors fuel st' self = Some (self :: rest)) as Hla'.
    { eapply ancestors_from_same_parents; [|exact Hla].
      intros x xn Hx. unfold st'. destruct (decide (x = self)) as [->|Hne].
      - rewrite list_lookup_insert_eq by done. eexists. split; [done|].
        by assert (xn = sn) as -> by congruence.
      - rewrite list_lookup_insert_ne by done. eauto. }
    destruct (effective_namespaces_from fuel st' self ∅ ∅ _ Hla')
      as (l & Hl & Hfold).
    unfold get_effective_namespaces, ancestors_and_namespaces.
    rewrite Hl. simpl. rewrite Hfold, !(left_id_L ∅ (∪)). f_equal. unfold st'.
    rewrite (namespaces_after_update _ _ _ _ _ Hself), <- Heq.
    rewrite (bool_decide_eq_true_2 (self ∈ self :: rest)) by left.
    apply set_eq. intros x.
    rewrite !elem_of_union, elem_of_difference.
    destruct (decide (x ∈ effective)); tauto. }
  exists st', sn. split.
  { unfold add_namespaces.
    erewrite run_bind; [|unfold query; by rewrite Heff].
    by apply update_returns. }
  split; [done|]. split; [done|]. split; [done|].
  unfold add_namespaces.
  erewrite run_bind; [|unfold query; by rewrite Heff'].
  assert (st' !! self
          = Some (with_namespaces (λ own, own ∪ (nss ∖ effective)) sn))
    as Hself' by (by apply list_lookup_insert_eq).
  rewrite (update_returns _ _ _ _ Hself'). f_equal.
  apply list_insert_id. rewrite Hself'. f_equal.
  unfold with_namespaces. simpl. f_equal.
  apply set_eq. intros x.
  rewrite !elem_of_union, !elem_of_difference, elem_of_union. tauto.
Qed.

Lemma add_namespaces_effective_witness :
  ∃ st' sn,
    add_namespaces 5 3 {["ns"]} family.store = Returns () st'
    ∧ family.store !! 3 = Some sn
    ∧ st' = <[3 := with_namespaces (λ own, own ∪ ({["ns"]} ∖ ∅)) sn]>
              family.store
    ∧ get_effective_namespaces 5 st' 3 = Some (∅ ∪ {["ns"]})
    ∧ add_namespaces 5 3 {["ns"]} st' = Returns () st'.
Proof.
  apply (add_namespaces_effective 5 family.store 3 {["ns"]} ∅).
  vm_compute. reflexivity.
Defined.

(** ** Running operations that can fail in more ways *)

Lemma xbind_done {A B} (m : X A) (k : A → X B) (st : Store) (b : B)
    (st' : Store) :
  (m ≫= k) st = Done b st' →
  ∃ a st1, m st = Done a st1 ∧ k a st1 = Done b st'.
Proof.
  unfold mbind, X_bind. destruct (m st) as [a st1| |]; [|done..]. eauto.
Qed.

Lemma run_xbind {A B} (m : X A) (k : A → X B) (st : Store) (a : A)
    (st1 : Store) :
  m st = Done a st1 → (m ≫= k) st = k a st1.
Proof. intros H. unfold mbind, X_bind. by rewrite H. Qed.

Lemma lift_done {A} (m : M A) (st : Store) (a : A) (st' : Store) :
  lift m st = Done a st' ↔ m st = Returns a st'.
Proof.
  unfold lift. destruct (m st); split; intros H; by try injection H as -> ->.
Qed.

(** ** The scope recorded on a set *)

Lemma find_first_unique (st : Store) (test : ScopeTreeNode → bool)
    (cs : list NodeId) (s : NodeId) (sn : ScopeTreeNode) :
  (∀ c, c ∈ cs → is_Some (st !! c)) →
  s ∈ cs → st !! s = Some sn → test sn = true →
  (∀ d dn, d ∈ cs → d ≠ s → st !! d = Some dn → test dn = false) →
  find_first st test cs = Some (Some s).
Proof.
  intros Hall Hin Hs Ht Hothers.
  destruct (find_first_hit st test cs s sn Hall Hin Hs Ht) as [c Hc].
  rewrite Hc. apply find_first_found in Hc as (Hcin & cn & Hcn & Hct).
  destruct (decide (c = s)) as [->|Hne]; [done|].
  rewrite (Hothers c cn Hcin Hne Hcn) in Hct. done.
Qed.

Lemma root_same_parents (st st' : Store) :
  (∀ x xn, st !! x = Some xn →
           ∃ xn', st' !! x = Some xn' ∧ parent xn' = parent xn) →
  ∀ fuel n r, root fuel st n = Some r → root fuel st' n = Some r.
Proof.
  intros Hsame. induction fuel as [|fuel IH]; intros n r; simpl; [done|].
  destruct (st !! n) as [nd|] eqn:Hn; simpl; [|done].
  destruct (Hsame n nd Hn) as (nd' & -> & Hpar). simpl. rewrite Hpar.
  destruct (parent nd); [apply IH|done].
Qed.

Lemma descendants_allocated (fuel : nat) (st : Store) (n : NodeId)
    (ds : list NodeId) :
  descendants fuel st n = Some ds → ∀ x, x ∈ ds → is_Some (st !! x).
Proof.
  unfold descendants.
  destruct (strict_descendants fuel st n) as [sd|] eqn:Hsd; simpl; [|done].
  intros [= <-] x [->|Hx]%elem_of_cons.
  - destruct fuel as [|fuel]; simpl in Hsd; [done|].
    destruct (st !! n); [by eexists|done].
  - by eapply strict_descendants_allocated.
Qed.

(** X13: when [assign_set_scope] records a scope on a set it returns
    the set with the scope's unique id, a fresh one if the scope had
    none, and changes nothing else in the tree; if the scope lies in
    the tree of the context's scope and no other node of that tree has
    the same id, [get_set_scope] then gives that very scope back. *)
Theorem assign_then_get_set_scope (fuel : nat) (st st' : Store)
    (ir_set ir_set' : IrSet) (s : NodeId) (nextval : Z)
    (ctx : ContextLevel) (r : NodeId) (ds : list NodeId) :
  assign_set_scope fuel ir_set (Some s) nextval st = Done ir_set' st' →
  root fuel st (path_scope ctx) = Some r →
  descendants fuel st r = Some ds → s ∈ ds →
  (∀ d dn, d ∈ ds → d ≠ s → st !! d = Some dn →
           unique_id dn ≠ path_scope_id ir_set') →
  get_set_scope fuel st' ir_set' ctx = Some (Some s)
  ∧ set_path_id ir_set' = set_path_id ir_set
  ∧ (∃ sn u,
       st !! s = Some sn ∧ path_scope_id ir_set' = Some u
       ∧ (unique_id sn = None → u = nextval)
       ∧ (unique_id sn ≠ None → unique_id sn = Some u)
       ∧ st' = <[s := with_unique_id (Some u) sn]> st).
Proof.
  intros Hrun Hroot Hds Hin Huniq. unfold assign_set_scope in Hrun.
  apply xbind_done in Hrun as (sn & st0 & Hget & Hrun).
  apply lift_done in Hget. unfold get, query in Hget.
  destruct (st !! s) as [sn0|] eqn:Hs; [|done]. injection Hget as -> <-.
  pose proof (lookup_lt_Some _ _ _ Hs) as Hlt.
  apply xbind_done in Hrun as ([] & st1 & Hassign & Hrun).
  apply xbind_done in Hrun as (sn1 & st2 & Hget1 & Hrun).
  apply lift_done in Hget1. unfold get, query in Hget1.
  destruct (st1 !! s) as [sn1'|] eqn:Hs1; [|done]. injection Hget1 as -> <-.
  apply xbind_done in Hrun as (found & st3 & Hfound & Hrun).
  apply lift_done in Hfound. unfold query in Hfound.
  destruct (find_child fuel st1 s (set_path_id ir_set) false) as [fc|];
    [|done].
  injection Hfound as -> <-. destruct found as [c|]; [done|].
  injection Hrun as <- <-. simpl in *.
  assert (∃ u, unique_id sn1 = Some u
               ∧ (unique_id sn = None → u = nextval)
               ∧ (unique_id sn ≠ None → unique_id sn = Some u)
               ∧ st1 = <[s := with_unique_id (Some u) sn]> st)
    as (u & Hu & Hnew & Hold & Hst1).
  { destruct (unique_id sn) as [u0|] eqn:Hu0.
    - rewrite bool_decide_eq_false_2 in Hassign by done.
      injection Hassign as <-. assert (sn1 = sn) as -> by congruence.
      exists u0. repeat split; [done..|].
      symmetry. apply list_insert_id. rewrite Hs. f_equal.
      destruct sn. simpl in *. by subst.
    - rewrite bool_decide_eq_true_2 in Hassign by done.
      apply lift_done in Hassign. rewrite (update_returns _ _ _ _ Hs) in Hassign.
      injection Hassign as <-.
      rewrite list_lookup_insert_eq in Hs1 by done. injection Hs1 as <-.
      exists nextval. by repeat split. }
  assert (∀ x xn, st !! x = Some xn →
            ∃ xn', st1 !! x = Some xn' ∧ parent xn' = parent xn
                   ∧ children xn' = children xn
                   ∧ (x ≠ s → xn' = xn)) as Hsame.
  { intros x xn Hx. rewrite Hst1. destruct (decide (x = s)) as [->|Hne].
    - rewrite list_lookup_insert_eq by done. eexists. split; [done|].
      by assert (xn = sn) as -> by congruence.
    - rewrite list_lookup_insert_ne by done. eauto. }
  split; [|split; [done|by exists sn, u]].
  unfold get_set_scope. simpl. rewrite Hu.
  rewrite (root_same_parents st st1) with (r := r); [simpl| |done].
  2:{ intros x xn Hx. destruct (Hsame x xn Hx) as (xn' & ? & ? & _). eauto. }
  pose proof (descendants_allocated _ _ _ _ Hds) as Halloc.
  unfold find_by_unique_id.
  assert (descendants fuel st1 r = Some ds) as ->.
  { unfold descendants in *.
    destruct (strict_descendants fuel st r) as [sd|] eqn:Hsd; [|done].
    simpl in Hds. injection Hds as <-.
    erewrite strict_descendants_agree; [done|exact Hsd|].
    intros x Hx. destruct (Halloc x Hx) as [xn Hxn].
    destruct (Hsame x xn Hxn) as (xn' & Hx' & _ & Hch & _). eauto. }
  simpl. apply (find_first_unique _ _ _ _ sn1); [|done|done| |].
  - intros c Hc. destruct (Halloc c Hc) as [cn Hcn].
    destruct (Hsame c cn Hcn) as (cn' & -> & _). by eexists.
  - by apply bool_decide_eq_true.
  - intros d dn' Hd Hne Hdn'. destruct (Halloc d Hd) as [dn Hdn].
    destruct (Hsame d dn Hdn) as (dn0 & Hdn0 & _ & _ & Heq).
    assert (dn' = dn) as -> by (rewrite (Heq Hne) in Hdn0; congruence).
    apply bool_decide_eq_false. rewrite <- Hu. by eapply Huniq.
Qed.

Lemma assign_then_get_set_scope_witness :
  get_set_scope 5
    (<[2 := with_unique_id (Some 9%Z)
              (mkNode None None false false false false [3] ∅ (Some 0))]>
       family.store)
    (mkSet path_A_b_c (Some 9%Z)) (mkContext [] 3) = Some (Some 2)
  ∧ set_path_id (mkSet path_A_b_c (Some 9%Z))
    = set_path_id (mkSet path_A_b_c None)
  ∧ (∃ sn u,
       family.store !! 2 = Some sn
       ∧ path_scope_id (mkSet path_A_b_c (Some 9%Z)) = Some u
       ∧ (unique_id sn = None → u = 9%Z)
       ∧ (unique_id sn ≠ None → unique_id sn = Some u)
       ∧ <[2 := with_unique_id (Some 9%Z)
                  (mkNode None None false false false false [3] ∅ (Some 0))]>
           family.store
         = <[2 := with_unique_id (Some u) sn]> family.store).
Proof.
  apply (assign_then_get_set_scope 5 family.store _
           (mkSet path_A_b_c None) (mkSet path_A_b_c (Some 9%Z)) 2 9%Z
           (mkContext [] 3) 0 [0; 1; 2; 3]).
  - reflexivity.
  - reflexivity.
  - reflexivity.
  - set_unfold. tauto.
  - intros d dn Hd Hne Hdn. simpl.
    apply elem_of_cons in Hd as [->|Hd]; [by injection Hdn as <-|].
    apply elem_of_cons in Hd as [->|Hd]; [by injection Hdn as <-|].
    apply elem_of_cons in Hd as [->|Hd]; [done|].
    apply elem_of_cons in Hd as [->|Hd]; [by injection Hdn as <-|].
    by apply elem_of_nil in Hd.
Defined.

(** ** Collapsing and unfencing a node *)

Section more_invariants.

Variable I : Store → Prop.
Hypothesis I_set_parent : ∀ n np, keeps I (_set_parent n np).
Hypothesis I_new_node : ∀ p f u, keeps I (new_node (init p f u)).
Hypothesis I_path_id : ∀ x p, keeps I (update x (with_path_id p)).
Hypothesis I_optional : ∀ x, keeps I (update x (with_optional true)).

Lemma lift_keeps {A} (m : M A) (st : Store) (a : A) (st' : Store) :
  keeps I m → I st → lift m st = Done a st' → I st'.
Proof. intros Hm HI Hrun%lift_done. by eapply Hm. Qed.

Lemma for_each_child_keeps (self : NodeId) (size : nat)
    (body : NodeId → X unit) (cs : list NodeId) (st st' : Store) :
  (∀ c st1 st2, I st1 → body c st1 = Done () st2 → I st2) →
  I st → for_each_child self size body cs st = Done () st' → I st'.
Proof.
  intros Hbody. revert st. induction cs as [|c cs IH]; intros st HI; simpl;
    destruct (st !! self) as [sn|]; try done; case_bool_decide; try done.
  - by intros [= <-].
  - intros Hrun. apply xbind_done in Hrun as ([] & st1 & Hc & Hrest).
    eapply IH; [|exact Hrest]. by eapply Hbody.
Qed.

Lemma collapse_keeps (fuel : nat) (self : NodeId) (st st' : Store) :
  I st → collapse fuel self st = Done () st' → I st'.
Proof using All.
  intros HI Hrun. unfold collapse in Hrun.
  apply xbind_done in Hrun as (sn & st0 & Hget & Hrun).
  apply lift_done in Hget. unfold get, query in Hget.
  destruct (st !! self) as [sn0|]; [|done]. injection Hget as -> <-.
  destruct (parent sn) as [p|]; [|done].
  apply xbind_done in Hrun as (subtree & st1 & Hsub & Hrun).
  assert (I st1) as HI1.
  { destruct (path_id sn); [|by injection Hsub as _ <-].
    apply xbind_done in Hsub as (sub & st2 & Hnew & Hsub).
    apply xbind_done in Hsub as ([] & st3 & Hloop & Hsub).
    injection Hsub as _ <-.
    eapply for_each_child_keeps; [|exact (lift_keeps _ _ _ _ (I_new_node _ _ _) HI Hnew)|exact Hloop].
    intros c sta stb Ha Hb. eapply lift_keeps; [|exact Ha|exact Hb].
    by apply keeps_attach_child. }
  apply xbind_done in Hrun as ([] & st2 & Hrem & Hrun).
  eapply lift_keeps; [by apply keeps_attach_subtree| |exact Hrun].
  eapply lift_keeps; [by apply keeps_remove|exact HI1|exact Hrem].
Qed.

(** [unfence] returns the branch it creates first; what holds once
    that branch is there still holds at the end. *)
Lemma unfence_keeps (fuel : nat) (self : NodeId) (st st' : Store)
    (b : NodeId) :
  unfence fuel self st = Done b st' →
  b = length st ∧ (I (st ++ [init None false None]) → I st').
Proof using All.
  intros Hrun. unfold unfence in Hrun.
  apply xbind_done in Hrun as (sn & st0 & Hget & Hrun).
  apply lift_done in Hget. unfold get, query in Hget.
  destruct (st !! self) as [sn0|]; [|done]. injection Hget as -> <-.
  destruct (parent sn) as [p|]; [|done].
  apply xbind_done in Hrun as (subtree & st1 & Hnew & Hrun).
  apply lift_done in Hnew. injection Hnew as <- <-.
  apply xbind_done in Hrun as ([] & st2 & Hloop & Hrun).
  apply xbind_done in Hrun as ([] & st3 & Hrem & Hrun).
  apply xbind_done in Hrun as (ps & st4 & Hnew' & Hrun).
  apply xbind_done in Hrun as ([] & st5 & Hatt & Hrun).
  apply xbind_done in Hrun as ([] & st6 & Hsub & Hrun).
  injection Hrun as <- <-. split; [done|]. intros HI.
  eapply lift_keeps; [by apply keeps_attach_subtree| |exact Hsub].
  eapply lift_keeps; [by apply keeps_attach_child| |exact Hatt].
  eapply lift_keeps; [apply I_new_node| |exact Hnew'].
  eapply lift_keeps; [by apply keeps_remove| |exact Hrem].
  eapply lift_keeps; [|exact HI|exact Hloop].
  apply keeps_for_each. intros c. by apply keeps_attach_child.
Qed.

End more_invariants.

(** Relating every store to a fixed earlier one is an invariant. *)
Lemma related_invariant_laws (R : ScopeTreeNode → ScopeTreeNode → Prop)
    (st0 : Store) :
  (∀ nd, R nd nd) → (∀ a b c, R a b → R b c → R a c) →
  (∀ p nd, R nd (with_parent p nd)) → (∀ f nd, R nd (with_children f nd)) →
  (∀ p nd, R nd (with_path_id p nd)) → (∀ nd, R nd (with_optional true nd)) →
  (∀ n np, keeps (related R st0) (_set_parent n np))
  ∧ (∀ p f u, keeps (related R st0) (new_node (init p f u)))
  ∧ (∀ x p, keeps (related R st0) (update x (with_path_id p)))
  ∧ (∀ x, keeps (related R st0) (update x (with_optional true))).
Proof.
  intros R1 R2 R3 R4 R5 R6.
  assert (∀ A (m : M A), preserves R m → keeps (related R st0) m) as Hk.
  { intros A m Hm st a st' H0 Hrun.
    eapply related_trans; [done|exact H0|by eapply Hm]. }
  repeat split; intros; apply Hk.
  - by apply preserves_set_parent.
  - by apply preserves_new_node.
  - apply preserves_update; [done|]. intros. apply R5.
  - apply preserves_update; [done|]. intros. apply R6.
Qed.

Lemma set_remove_shorter (c : NodeId) (cs : list NodeId) :
  c ∈ cs → length (set_remove c cs) < length cs.
Proof.
  unfold set_remove. induction cs as [|x cs IH]; [by intros ?%elem_of_nil|].
  intros Hin. rewrite filter_cons. destruct (decide (x ≠ c)) as [Hne|Heq].
  - simpl. apply elem_of_cons in Hin as [->|Hin]; [done|].
    specialize (IH Hin). lia.
  - simpl. pose proof (length_filter (λ y, y ≠ c) cs). lia.
Qed.

Lemma attach_child_to_empty (st : Store) (self node : NodeId)
    (sn nd : ScopeTreeNode) :
  links_ok st → st !! self = Some sn → children sn = [] →
  st !! node = Some nd →
  ∃ st', attach_child self node st = Returns () st'
         ∧ edited (set_parent_edit node (Some self) (parent nd)) st st'.
Proof.
  intros Hlinks Hself Hempty Hnode.
  destruct (set_parent_returns_on_links node (Some self) st Hlinks)
    as [st' Hset]; [by eexists|by intros p [= <-]; eexists|].
  exists st'. split.
  - unfold attach_child.
    rewrite (run_bind _ _ _ _ _ (get_returns _ _ _ Hnode)).
    rewrite (run_bind _ _ _ _ _ (get_returns _ _ _ Hself)).
    rewrite Hempty.
    erewrite run_bind; [|instantiate (1 := st); instantiate (1 := None);
                         by destruct (path_id nd)].
    cbv beta iota.
    erewrite run_bind; [|instantiate (1 := st); instantiate (1 := None);
                         by destruct (unique_id nd)].
    exact Hset.
  - by eapply set_parent_edited.
Qed.

Lemma run_xbind_fails {A B} (m : X A) (k : A → X B) (st : Store)
    (e : Failure) :
  m st = Fails e → (m ≫= k) st = Fails e.
Proof. intros H. unfold mbind, X_bind. by rewrite H. Qed.

(** The iterator stops the loop once the body has changed the size of
    the set. *)
Lemma for_each_child_changed (self : NodeId) (size : nat)
    (body : NodeId → X unit) (c : NodeId) (cs : list NodeId)
    (st st1 : Store) (sn sn1 : ScopeTreeNode) :
  st !! self = Some sn → length (children sn) = size →
  body c st = Done () st1 →
  st1 !! self = Some sn1 → length (children sn1) ≠ size →
  for_each_child self size body (c :: cs) st = Fails RuntimeError.
Proof.
  intros Hself Hsize Hbody Hself1 Hsize1. simpl. rewrite Hself.
  rewrite bool_decide_eq_true_2 by done.
  rewrite (run_xbind _ _ _ _ _ Hbody).
  destruct cs; simpl; rewrite Hself1; by rewrite bool_decide_eq_false_2.
Qed.

(** X14: [collapse] fails with [ValueError] on a node without parent.
    On a path node that has children it fails with [RuntimeError]: the
    loop moves the first child away from the very set it iterates, and
    the iterator refuses to go on over a set that has changed size.
    Whenever [collapse] returns, the links stay consistent and every
    node is still there with its unique id, flags and namespaces. *)
Theorem collapse_outcomes (fuel : nat) (st : Store) (self : NodeId)
    (sn : ScopeTreeNode) :
  consistent st = true → st !! self = Some sn →
  (parent sn = None → collapse fuel self st = Fails ValueError)
  ∧ (parent sn ≠ None → path_id sn ≠ None → children sn ≠ [] →
     collapse fuel self st = Fails RuntimeError)
  ∧ (∀ st', collapse fuel self st = Done () st' →
       consistent st' = true
       ∧ ∀ x xn, st !! x = Some xn →
           ∃ xn', st' !! x = Some xn' ∧ structure_kept xn xn').
Proof.
  intros Hcons Hself. pose proof (lookup_lt_Some _ _ _ Hself) as Hlt.
  apply consistent_links in Hcons as Hlinks.
  split; [|split].
  - intros Hpar. unfold collapse.
    erewrite run_xbind; [|apply lift_done; by apply get_returns].
    by rewrite Hpar.
  - intros Hpar Hpath Hkids. unfold collapse.
    erewrite run_xbind; [|apply lift_done; by apply get_returns].
    destruct (parent sn) as [p|]; [|done].
    destruct (path_id sn) as [path|]; [|done].
    destruct (children sn) as [|c cs] eqn:Hch; [done|].
    set (new := init None false None).
    assert (links_ok (st ++ [new])) as Hlinks1.
    { by eapply (new_node_keeps_links None false None st). }
    destruct Hlinks as [Hc _].
    destruct (Hc self sn c Hself) as (cn & Hcn & Hcpar);
      [rewrite Hch; left|].
    assert ((st ++ [new]) !! length st = Some new) as Hnew
      by (by rewrite lookup_app_r, Nat.sub_diag by lia).
    destruct (attach_child_to_empty (st ++ [new]) (length st) c new cn)
      as (st2 & Hatt & [Hlen Hed]);
      [done|done|done|by apply lookup_app_l_Some|].
    apply run_xbind_fails.
    erewrite run_xbind; [|by apply lift_done].
    apply run_xbind_fails.
    assert ((st ++ [new]) !! self = Some sn) as Hself1
      by (by apply lookup_app_l_Some).
    eapply (for_each_child_changed _ _ _ _ _ _ st2 sn);
      [done|by rewrite Hch|apply lift_done; exact Hatt
      |by apply Hed|].
    rewrite Hcpar.
    rewrite set_parent_edit_children by (intros [= ?]; lia).
    rewrite decide_False by (intros [= ?]; lia).
    rewrite decide_True by done. simpl.
    assert (c ∈ children sn) as Hin by (rewrite Hch; left).
    pose proof (set_remove_shorter c (children sn) Hin) as Hshort.
    rewrite Hch in Hshort. simpl in Hshort. rewrite Hch. lia.
  - intros st' Hrun. split.
    + apply consistent_links.
      destruct links_invariant_laws as (H1 & H2 & H3 & H4).
      by eapply (collapse_keeps links_ok).
    + destruct structure_kept_laws as (R1 & R2 & R3 & R4 & R5 & R6).
      destruct (related_invariant_laws structure_kept st R1 R2 R3 R4 R5 R6)
        as (H1 & H2 & H3 & H4).
      eapply (collapse_keeps (related structure_kept st)); [done..| |done].
      by apply related_refl.
Qed.

Lemma collapse_outcomes_witness :
  (parent (mkNode None (Some path_A) false false false false [2] ∅ (Some 0))
   = None → collapse 5 1 scenario_C.store = Fails ValueError)
  ∧ (parent (mkNode None (Some path_A) false false false false [2] ∅ (Some 0))
     ≠ None →
     path_id (mkNode None (Some path_A) false false false false [2] ∅ (Some 0))
     ≠ None →
     children (mkNode None (Some path_A) false false false false [2] ∅ (Some 0))
     ≠ [] →
     collapse 5 1 scenario_C.store = Fails RuntimeError)
  ∧ (∀ st', collapse 5 1 scenario_C.store = Done () st' →
       consistent st' = true
       ∧ ∀ x xn, scenario_C.store !! x = Some xn →
           ∃ xn', st' !! x = Some xn' ∧ structure_kept xn xn').
Proof.
  apply (collapse_outcomes 5 scenario_C.store 1
           (mkNode None (Some path_A) false false false false [2] ∅ (Some 0))).
  - reflexivity.
  - reflexivity.
Defined.

(** X15: [unfence] fails with [ValueError] on a node without parent.
    Whenever it returns, the node it returns is the branch it created:
    a new node, not fenced, without unique id or namespaces; the links
    stay consistent and every node that was there before is still there
    with its unique id, flags and namespaces. *)
Theorem unfence_outcomes (fuel : nat) (st : Store) (self : NodeId)
    (sn : ScopeTreeNode) :
  consistent st = true → st !! self = Some sn →
  (parent sn = None → unfence fuel self st = Fails ValueError)
  ∧ (∀ b st', unfence fuel self st = Done b st' →
       b = length st ∧ consistent st' = true
       ∧ (∃ bn, st' !! b = Some bn
                ∧ structure_kept (init None false None) bn)
       ∧ ∀ x xn, st !! x = Some xn →
           ∃ xn', st' !! x = Some xn' ∧ structure_kept xn xn').
Proof.
  intros Hcons Hself. apply consistent_links in Hcons as Hlinks.
  split.
  - intros Hpar. unfold unfence.
    erewrite run_xbind; [|apply lift_done; by apply get_returns].
    by rewrite Hpar.
  - intros b st' Hrun.
    destruct links_invariant_laws as (L1 & L2 & L3 & L4).
    destruct (unfence_keeps links_ok L1 L2 L3 L4 _ _ _ _ _ Hrun)
      as [-> Hl].
    destruct structure_kept_laws as (R1 & R2 & R3 & R4 & R5 & R6).
    destruct (related_invariant_laws structure_kept
                (st ++ [init None false None]) R1 R2 R3 R4 R5 R6)
      as (H1 & H2 & H3 & H4).
    destruct (unfence_keeps _ H1 H2 H3 H4 _ _ _ _ _ Hrun) as [_ Hr].
    specialize (Hr (related_refl _ R1 _)).
    split; [done|]. split.
    { apply consistent_links, Hl. by eapply (new_node_keeps_links None false None st). }
    split.
    + apply Hr. by rewrite lookup_app_r, Nat.sub_diag by lia.
    + intros x xn Hx. apply Hr. by apply lookup_app_l_Some.
Qed.

Lemma unfence_outcomes_witness :
  (parent (mkNode None None false false false false [3] ∅ (Some 0)) = None →
   unfence 5 2 family.store = Fails ValueError)
  ∧ (∀ b st', unfence 5 2 family.store = Done b st' →
       b = length family.store ∧ consistent st' = true
       ∧ (∃ bn, st' !! b = Some bn
                ∧ structure_kept (init None false None) bn)
       ∧ ∀ x xn, family.store !! x = Some xn →
           ∃ xn', st' !! x = Some xn' ∧ structure_kept xn xn').
Proof.
  apply (unfence_outcomes 5 family.store 2
           (mkNode None None false false false false [3] ∅ (Some 0))).
  - reflexivity.
  - reflexivity.
Defined.

(** ** What [find_child] finds *)

(** What an answer of [find_child] on [self] means. *)
Lemma find_child_in_meaning (deeper : NodeId → option (option NodeId))
    (st : Store) (p : PathId) (b : bool) (cs : list NodeId)
    (r : option NodeId) :
  (∀ c r, deeper c = Some r →
     match r with
     | Some d => ∃ dn, st !! d = Some dn ∧ path_id dn = Some p
                       ∧ under_branches st c d
     | None => ∀ d dn, under_branches st c d → st !! d = Some dn →
                       path_id dn ≠ Some p
     end) →
  find_child_in deeper st p b cs = Some r →
  match r with
  | Some d =>
      ∃ dn, st !! d = Some dn ∧ path_id dn = Some p
            ∧ (d ∈ cs
               ∨ b = true
                 ∧ ∃ c cn, c ∈ cs ∧ st !! c = Some cn ∧ path_id cn = None
                           ∧ fenced cn = false ∧ under_branches st c d)
  | None =>
      ∀ c cn, c ∈ cs → st !! c = Some cn →
        path_id cn ≠ Some p
        ∧ (b = true → path_id cn = None → fenced cn = false →
           ∀ d dn, under_branches st c d → st !! d = Some dn →
                   path_id dn ≠ Some p)
  end.
Proof.
  intros Hdeep. revert r. induction cs as [|c cs IH]; intros r; simpl.
  - intros [= <-] c cn Hc. by apply elem_of_nil in Hc.
  - destruct (st !! c) as [cn|] eqn:Hcn; simpl; [|done].
    case_bool_decide as Hp.
    { intros [= <-]. exists cn. split; [done|]. split; [done|]. left. left. }
    assert (∀ r,
      find_child_in deeper st p b cs = Some r →
      (b = true → path_id cn = None → fenced cn = false →
       ∀ d dn, under_branches st c d → st !! d = Some dn →
               path_id dn ≠ Some p) →
      match r with
      | Some d =>
          ∃ dn, st !! d = Some dn ∧ path_id dn = Some p
                ∧ (d ∈ c :: cs
                   ∨ b = true
                     ∧ ∃ c0 cn0, c0 ∈ c :: cs ∧ st !! c0 = Some cn0
                                 ∧ path_id cn0 = None ∧ fenced cn0 = false
                                 ∧ under_branches st c0 d)
      | None =>
          ∀ c0 cn0, c0 ∈ c :: cs → st !! c0 = Some cn0 →
            path_id cn0 ≠ Some p
            ∧ (b = true → path_id cn0 = None → fenced cn0 = false →
               ∀ d dn, under_branches st c0 d → st !! d = Some dn →
                       path_id dn ≠ Some p)
      end) as Hrest.
    { intros r' Hr' Hnone. specialize (IH r' Hr'). destruct r' as [d|].
      - destruct IH as (dn & Hdn & Hdp & [Hin|(Hb & c0 & cn0 & Hin & Hrest)]).
        + exists dn. split; [done|]. split; [done|]. left. by right.
        + exists dn. split; [done|]. split; [done|]. right. split; [done|].
          exists c0, cn0. split; [by right|done].
      - intros c0 cn0 [->|Hin]%elem_of_cons Hc0.
        + assert (cn0 = cn) as -> by congruence. split; [done|]. apply Hnone.
        + by apply IH. }
    destruct (b && bool_decide (path_id cn = None) && negb (fenced cn))
      eqn:Hbranch.
    + apply andb_true_iff in Hbranch as [Hbranch Hfen].
      apply andb_true_iff in Hbranch as [Hb Hnopath].
      apply bool_decide_eq_true in Hnopath. apply negb_true_iff in Hfen.
      destruct (deeper c) as [desc|] eqn:Hdesc; simpl; [|done].
      specialize (Hdeep c desc Hdesc). destruct desc as [d|].
      * intros [= <-]. destruct Hdeep as (dn & Hdn & Hdp & Hunder).
        exists dn. split; [done|]. split; [done|]. right. split; [done|].
        exists c, cn. split; [left|done].
      * intros Hr. apply Hrest; [done|]. intros _ _ _. apply Hdeep.
    + intros Hr. apply Hrest; [done|]. intros -> Hnopath Hfen.
      rewrite Hfen, bool_decide_eq_true_2 in Hbranch by done. done.
Qed.

Lemma find_child_meaning (fuel : nat) (st : Store) (self : NodeId)
    (p : PathId) (b : bool) (r : option NodeId) :
  find_child fuel st self p b = Some r →
  ∃ sn, st !! self = Some sn ∧
  match r with
  | Some d =>
      ∃ dn, st !! d = Some dn ∧ path_id dn = Some p
            ∧ under_branches st self d ∧ (b = false → d ∈ children sn)
  | None =>
      ∀ d dn, (if b then under_branches st self d else d ∈ children sn) →
              st !! d = Some dn → path_id dn ≠ Some p
  end.
Proof.
  revert self b r. induction fuel as [|fuel IH]; intros self b r; simpl;
    [done|].
  destruct (st !! self) as [sn|] eqn:Hself; simpl; [|done].
  intros Hr. exists sn. split; [done|].
  apply find_child_in_meaning in Hr.
  2:{ intros c r' Hr'. destruct (IH c true r' Hr') as (cn & Hcn & Hmean).
      destruct r' as [d|]; [|done].
      destruct Hmean as (dn & Hdn & Hdp & Hunder & _). eauto. }
  destruct r as [d|].
  - destruct Hr as (dn & Hdn & Hdp & [Hin|(Hb & c & cn & Hin & Hc & Hcp & Hcf & Hu)]).
    + exists dn. repeat (split; [done|]). split; [|done].
      by eapply under_here.
    + exists dn. repeat (split; [done|]). split; [|by rewrite Hb].
      by eapply under_branch.
  - intros d dn Hd Hdn. destruct b.
    + inversion Hd as [s sn' d' Hs Hin|s sn' c cn d' Hs Hin Hc Hcp Hcf Hu];
        subst; assert (sn' = sn) as -> by congruence.
      * by apply (Hr d dn Hin Hdn).
      * destruct (Hr c cn Hin Hc) as [_ Hdeep]. by eapply Hdeep.
    + by apply (Hr d dn Hd Hdn).
Qed.

(** X16: a node [find_child] returns carries exactly the path looked
    for; it is a child of [self] or, with [in_branches], a node reached
    from [self] through unfenced children without a path, never through
    a fence or a path node.  When it returns nothing, no such node
    carries the path. *)
Theorem find_child_finds (fuel : nat) (st : Store) (self : NodeId)
    (sn : ScopeTreeNode) (p : PathId) (in_branches : bool)
    (r : option NodeId) :
  st !! self = Some sn →
  find_child fuel st self p in_branches = Some r →
  match r with
  | Some d =>
      ∃ dn, st !! d = Some dn ∧ path_id dn = Some p
            ∧ under_branches st self d
            ∧ (in_branches = false → d ∈ children sn)
  | None =>
      ∀ d dn,
        (if in_branches then under_branches st self d else d ∈ children sn) →
        st !! d = Some dn → path_id dn ≠ Some p
  end.
Proof.
  intros Hself Hr. destruct (find_child_meaning _ _ _ _ _ _ Hr)
    as (sn' & Hsn' & Hmean).
  by assert (sn' = sn) as -> by congruence.
Qed.

Lemma find_child_finds_witness :
  ∃ dn, family.store !! 3 = Some dn ∧ path_id dn = Some path_A_b
        ∧ under_branches family.store 0 3
        ∧ (true = false →
           3 ∈ children (mkNode None None true false false false [1; 2] ∅
                                None)).
Proof.
  apply (find_child_finds 5 family.store 0
           (mkNode None None true false false false [1; 2] ∅ None)
           path_A_b true (Some 3)).
  - reflexivity.
  - reflexivity.
Defined.

(** ** The paths visible from a node *)

Lemma ancestors_from_reaches (st : Store) (fuel : nat) (n : NodeId)
    (la : list NodeId) (a : NodeId) :
  ancestors_from fuel st (Some n) = Some la → a ∈ la →
  ∃ k an, reaches st k n a ∧ st !! a = Some an.
Proof.
  revert n la. induction fuel as [|fuel IH]; intros n la; simpl; [done|].
  destruct (st !! n) as [nd|] eqn:Hn; simpl; [|done].
  destruct (ancestors_from fuel st (parent nd)) as [lp|] eqn:Hlp; simpl;
    [|done].
  intros [= <-] [->|Hin]%elem_of_cons.
  - exists 0, nd. split; [constructor|done].
  - destruct (parent nd) as [q|] eqn:Hq.
    + destruct (IH q lp Hlp Hin) as (k & an & Hr & Ha).
      exists (S k), an. split; [by eapply reaches_up|done].
    + destruct fuel; simpl in Hlp; injection Hlp as <-;
        by apply elem_of_nil in Hin.
Qed.

Lemma paths_of_origin (st : Store) (keep : option PathId → bool)
    (cs : list NodeId) (ps : list PathId) (p : PathId) :
  paths_of st keep cs = Some ps → p ∈ ps →
  ∃ c cn, c ∈ cs ∧ st !! c = Some cn ∧ path_id cn = Some p.
Proof.
  revert ps. induction cs as [|c cs IH]; intros ps; simpl.
  - intros [= <-] Hin. by apply elem_of_nil in Hin.
  - destruct (st !! c) as [cn|] eqn:Hc; simpl; [|done].
    destruct (paths_of st keep cs) as [r|] eqn:Hr; simpl; [|done].
    assert (p ∈ r → ∃ c0 cn0, c0 ∈ c :: cs ∧ st !! c0 = Some cn0
                              ∧ path_id cn0 = Some p) as Hrest.
    { intros Hin. destruct (IH r eq_refl Hin) as (c0 & cn0 & Hc0 & Hrest).
      exists c0, cn0. split; [by right|done]. }
    destruct (path_id cn) as [q|] eqn:Hq; [|by intros [= <-]].
    destruct (keep (Some q)); intros [= <-]; [|done].
    intros [->|Hin]%elem_of_cons; [|by apply Hrest].
    exists c, cn. split; [left|done].
Qed.

(** X17: every path [get_all_visible] lists is visible: on consistent
    links, [find_visible] finds a node for each of them, whatever truth
    value path ids have. *)
Theorem get_all_visible_is_visible (truth_value : PathId → bool)
    (fuel : nat) (st : Store) (self : NodeId) (ps : list PathId)
    (p : PathId) :
  consistent st = true →
  get_all_visible truth_value fuel st self = Some ps → p ∈ ps →
  ∃ v, find_visible fuel st self p = Some (Some v).
Proof.
  intros Hcons Hall Hin. unfold get_all_visible in Hall.
  destruct (ancestors fuel st self) as [la|] eqn:Hla; simpl in Hall; [|done].
  assert (∃ a an, a ∈ la ∧ st !! a = Some an
                  ∧ (path_id an = Some p
                     ∨ ∃ c cn, c ∈ children an ∧ st !! c = Some cn
                               ∧ path_id cn = Some p))
    as (a & an & Ha & Han & Hfound).
  { clear Hla. revert ps Hall Hin.
    induction la as [|a la IH]; intros ps; simpl.
    - intros [= <-] Hin. by apply elem_of_nil in Hin.
    - destruct (st !! a) as [an|] eqn:Han; simpl; [|done].
      destruct (foldr _ _ la) as [r|] eqn:Hr; simpl; [|done].
      assert (p ∈ r → ∃ a0 an0, a0 ∈ a :: la ∧ st !! a0 = Some an0
                ∧ (path_id an0 = Some p
                   ∨ ∃ c cn, c ∈ children an0 ∧ st !! c = Some cn
                             ∧ path_id cn = Some p)) as Hrest.
      { intros Hin. destruct (IH r eq_refl Hin) as (a0 & an0 & Ha0 & Hrest).
        exists a0, an0. split; [by right|done]. }
      assert (∀ ps0,
                paths_of st (is_true truth_value) (children an) = Some ps0 →
                p ∈ ps0 ++ r →
                ∃ a0 an0, a0 ∈ a :: la ∧ st !! a0 = Some an0
                  ∧ (path_id an0 = Some p
                     ∨ ∃ c cn, c ∈ children an0 ∧ st !! c = Some cn
                               ∧ path_id cn = Some p)) as Hkids.
      { intros ps0 Hps0 [Hin|Hin]%elem_of_app; [|by apply Hrest].
        destruct (paths_of_origin _ _ _ _ _ Hps0 Hin) as (c & cn & Hc).
        exists a, an. split; [left|]. split; [done|]. right. eauto. }
      destruct (path_id an) as [q|] eqn:Hq.
      + destruct (truth_value q).
        * intros [= <-] [->|Hin]%elem_of_cons; [|by apply Hrest].
          exists a, an. split; [left|]. split; [done|]. by left.
        * destruct (paths_of _ _ (children an)) as [ps0|] eqn:Hps0; simpl;
            [|done].
          intros [= <-]. by apply Hkids.
      + destruct (paths_of _ _ (children an)) as [ps0|] eqn:Hps0; simpl;
          [|done].
        intros [= <-]. by apply Hkids. }
  destruct (ancestors_from_reaches _ _ _ _ _ Hla Ha) as (k & an' & Hreach & Han').
  destruct (find_visible_from_total st Hcons p fuel ∅ ∅ (Some self) la Hla)
    as [[v|] Hv]; [by exists v|].
  destruct (find_visible_from_complete st p k self a Hreach fuel ∅ ∅ an Hv Han)
    as [Hnot Hnotkids].
  destruct Hfound as [Hp|(c & cn & Hc & Hcn & Hp)]; [done|].
  by destruct (Hnotkids c cn Hc Hcn).
Qed.

Lemma get_all_visible_is_visible_witness :
  ∃ v, find_visible 5 family.store 3 path_A = Some (Some v).
Proof.
  apply (get_all_visible_is_visible (λ _, true) 5 family.store 3
           [path_A_b; path_A_b; path_A] path_A).
  - reflexivity.
  - reflexivity.
  - set_unfold. tauto.
Defined.

(** ** Searching below a node *)

Lemma strict_descendants_and_namespaces_meaning (fuel : nat) (st : Store)
    (n : NodeId) (l : list (NodeId * gset string)) :
  strict_descendants_and_namespaces fuel st n = Some l →
  strict_descendants fuel st n = Some l.*1
  ∧ ∀ d dns ns, (d, dns) ∈ l → ns ∈ dns →
      ∃ x, x ∈ l.*1 ∧ ns ∈ namespaces_of st x.
Proof.
  revert n l. induction fuel as [|fuel IH]; intros n l; simpl; [done|].
  destruct (st !! n) as [nd|]; simpl; [|done].
  revert l. induction (children nd) as [|c cs IHcs]; intros l; simpl.
  - intros [= <-]. split; [done|]. intros d dns ns Hin.
    by apply elem_of_nil in Hin.
  - destruct (st !! c) as [cn|] eqn:Hc; simpl; [|done].
    destruct (strict_descendants_and_namespaces fuel st c) as [ds|] eqn:Hds;
      simpl; [|done].
    destruct (foldr _ _ cs) as [r|] eqn:Hr; simpl; [|done].
    intros [= <-].
    destruct (IH c ds Hds) as [Hfst Hns].
    destruct (IHcs r eq_refl) as [Hrfst Hrns].
    rewrite Hfst, Hrfst. simpl.
    assert ((prod_map id (λ dns, namespaces cn ∪ dns) <$> ds).*1 = ds.*1)
      as Hmap.
    { rewrite <- list_fmap_compose. apply list_fmap_ext. by intros i [??]. }
    rewrite fmap_app, Hmap. split; [done|].
    assert (∀ ns, ns ∈ namespaces cn →
              ∃ x, x ∈ c :: ds.*1 ++ r.*1 ∧ ns ∈ namespaces_of st x) as Hown.
    { intros ns Hin. exists c. split; [left|].
      unfold namespaces_of. by rewrite Hc. }
    intros d dns ns [Heq|Hin]%elem_of_cons Hin'.
    { injection Heq as -> ->. by apply Hown. }
    apply elem_of_app in Hin as [Hin|Hin].
    + apply list_elem_of_fmap in Hin as ([d0 dns0] & Heq & Hin).
      unfold prod_map in Heq. simpl in Heq. injection Heq as -> ->.
      apply elem_of_union in Hin' as [Hin'|Hin']; [by apply Hown|].
      destruct (Hns _ _ _ Hin Hin') as (x & Hx & Hxns).
      exists x. split; [|done]. right. apply elem_of_app. by left.
    + destruct (Hrns _ _ _ Hin Hin') as (x & Hx & Hxns).
      exists x. split; [|done]. right. apply elem_of_app. by right.
Qed.

Lemma first_descendant_meaning (st : Store) (p : PathId)
    (l : list (NodeId * gset string)) (r : option NodeId)
    (rns : gset string) :
  first_descendant st p l = Some (r, rns) →
  match r with
  | Some d => (d, rns) ∈ l
              ∧ ∃ dn, st !! d = Some dn
                      ∧ _paths_equal (path_id dn) (Some p) rns = true
  | None => ∀ d dns dn, (d, dns) ∈ l → st !! d = Some dn →
                        _paths_equal (path_id dn) (Some p) dns = false
  end.
Proof.
  induction l as [|[d dns] l IH]; simpl.
  - intros [= <- <-] d dns dn Hin. by apply elem_of_nil in Hin.
  - destruct (st !! d) as [dn|] eqn:Hd; simpl; [|done].
    destruct (_paths_equal (path_id dn) (Some p) dns) eqn:Heq.
    + intros [= <- <-]. split; [left|eauto].
    + intros Hr. specialize (IH Hr). destruct r as [d'|].
      * destruct IH as [Hin Hdn]. split; [by right|done].
      * intros d0 dns0 dn0 [Heq0|Hin]%elem_of_cons Hd0.
        -- injection Heq0 as -> ->. congruence.
        -- by eapply IH.
Qed.

(** X18: the node [find_descendant] returns is a strict descendant of
    [self] whose path equals the one looked for once some namespaces,
    all declared by strict descendants of [self], are stripped off
    both; when it returns nothing, no strict descendant carries that
    very path. *)
Theorem find_descendant_finds (fuel : nat) (st : Store) (self : NodeId)
    (p : PathId) (r : option NodeId) :
  find_descendant fuel st self p = Some r →
  ∃ ds, strict_descendants fuel st self = Some ds ∧
  match r with
  | Some d =>
      d ∈ ds
      ∧ ∃ dn nss, st !! d = Some dn
                  ∧ _paths_equal (path_id dn) (Some p) nss = true
                  ∧ ∀ ns, ns ∈ nss → ∃ x, x ∈ ds ∧ ns ∈ namespaces_of st x
  | None =>
      ∀ d dn, d ∈ ds → st !! d = Some dn → path_id dn ≠ Some p
  end.
Proof.
  unfold find_descendant.
  destruct (strict_descendants_and_namespaces fuel st self) as [l|] eqn:Hl;
    simpl; [|done].
  destruct (strict_descendants_and_namespaces_meaning _ _ _ _ Hl)
    as [Hds Hns].
  destruct (first_descendant st p l) as [[r' rns]|] eqn:Hfirst; simpl;
    [|done].
  intros [= <-]. exists l.*1. split; [done|].
  apply first_descendant_meaning in Hfirst. destruct r' as [d|].
  - destruct Hfirst as (Hin & dn & Hdn & Heq). split.
    + apply list_elem_of_fmap. by exists (d, rns).
    + exists dn, rns. split; [done|]. split; [done|].
      intros ns Hin'. by eapply Hns.
  - intros d dn Hin Hdn Hp.
    apply list_elem_of_fmap in Hin as ([d0 dns] & -> & Hin). simpl in *.
    specialize (Hfirst _ _ _ Hin Hdn).
    rewrite Hp, paths_equal_refl in Hfirst. done.
Qed.

Lemma find_descendant_finds_witness :
  ∃ ds, strict_descendants 5 family.store 0 = Some ds ∧
    (3 ∈ ds
     ∧ ∃ dn nss, family.store !! 3 = Some dn
                 ∧ _paths_equal (path_id dn) (Some path_A_b) nss = true
                 ∧ ∀ ns, ns ∈ nss →
                     ∃ x, x ∈ ds ∧ ns ∈ namespaces_of family.store x).
Proof.
  apply (find_descendant_finds 5 family.store 0 path_A_b (Some 3)).
  reflexivity.
Defined.

(** ** Searching among unfenced nodes *)

Lemma unfenced_descendants_unfenced (fuel : nat) (st : Store) (n : NodeId)
    (ds : list NodeId) :
  unfenced_descendants fuel st n = Some ds →
  ∃ rest, ds = n :: rest
          ∧ ∀ d, d ∈ rest → ∃ dn, st !! d = Some dn ∧ fenced dn = false.
Proof.
  revert n ds. induction fuel as [|fuel IH]; intros n ds; simpl; [done|].
  destruct (st !! n) as [nd|]; simpl; [|done].
  destruct (foldr _ _ (children nd)) as [rest|] eqn:Hrest; simpl; [|done].
  intros [= <-]. exists rest. split; [done|].
  revert rest Hrest. induction (children nd) as [|c cs IHcs]; intros rest;
    simpl.
  - intros [= <-] d Hd. by apply elem_of_nil in Hd.
  - destruct (st !! c) as [cn|] eqn:Hc; simpl; [|done].
    destruct (foldr _ _ cs) as [r|] eqn:Hr; simpl; [|done].
    destruct (fenced cn) eqn:Hf; [intros [= <-]; by apply IHcs|].
    destruct (unfenced_descendants fuel st c) as [dc|] eqn:Hdc; simpl;
      [|done].
    intros [= <-] d [Hd|Hd]%elem_of_app; [|by apply (IHcs r)].
    destruct (IH c dc Hdc) as (rc & -> & Hrc).
    apply elem_of_cons in Hd as [->|Hd]; [eauto|by apply Hrc].
Qed.

Lemma find_unfenced_from_meaning (st : Store) (p : PathId) (fuel : nat)
    (nss ans : gset string) (seen0 : bool) (n : NodeId)
    (r : option NodeId) (seen : bool) :
  find_unfenced_from fuel st p nss ans seen0 (Some n) = Some (r, seen) →
  match r with
  | Some d =>
      ∃ k a fuel' ds dn nss',
        reaches st k n a ∧ unfenced_descendants fuel' st a = Some ds
        ∧ d ∈ ds ∧ st !! d = Some dn ∧ (d = a ∨ fenced dn = false)
        ∧ _paths_equal (path_id dn) (Some p) nss' = true
        ∧ (seen = true ↔
           seen0 = true
           ∨ ∃ j b bn, j < k ∧ reaches st j n b ∧ st !! b = Some bn
                       ∧ unnest_fence bn = true)
  | None =>
      seen = true ↔
      seen0 = true
      ∨ ∃ j b bn, reaches st j n b ∧ st !! b = Some bn
                  ∧ unnest_fence bn = true
  end.
Proof.
  revert nss ans seen0 n.
  induction fuel as [|fuel IH]; intros nss ans seen0 n; simpl; [done|].
  destruct (st !! n) as [nd|] eqn:Hn; simpl; [|done].
  destruct (unfenced_descendants fuel st n) as [ds|] eqn:Hds; simpl; [|done].
  destruct (find_first st _ ds) as [[d|]|] eqn:Hfirst; simpl; [| |done].
  - intros [= <- <-]. apply find_first_found in Hfirst as (Hin & dn & Hdn & Ht).
    destruct (unfenced_descendants_unfenced _ _ _ _ Hds) as (rest & -> & Hrest).
    exists 0, n, fuel, (n :: rest), dn, nss.
    split; [constructor|]. split; [done|]. split; [done|]. split; [done|].
    split.
    { apply elem_of_cons in Hin as [->|Hin]; [by left|].
      destruct (Hrest d Hin) as (dn' & Hdn' & Hf). right. congruence. }
    split; [done|]. split; [by left|].
    intros [H|(j & b & bn & Hj & _)]; [done|lia].
  - destruct (parent nd) as [q|] eqn:Hq.
    + intros Hrec. specialize (IH _ _ _ _ Hrec). destruct r as [d|].
      * destruct IH as (k & a & fuel' & ds' & dn & nss' & Hr & Hds' & Hin & Hdn
                        & Hfen & Heq & Hseen).
        exists (S k), a, fuel', ds', dn, nss'.
        split; [by eapply reaches_up|]. repeat (split; [done|]).
        rewrite Hseen, orb_true_iff. split.
        -- intros [[H|H]|(j & b & bn & Hj & Hb & Hbn & Hu)]; [by left| |].
           ++ right. exists 0, n, nd. split; [lia|]. split; [constructor|done].
           ++ right. exists (S j), b, bn. split; [lia|].
              split; [by eapply reaches_up|done].
        -- intros [H|(j & b & bn & Hj & Hb & Hbn & Hu)]; [by left; left|].
           inversion Hb as [|j' x xn y z Hx Hy Hrest]; subst.
           ++ left. right. congruence.
           ++ right. exists j', b, bn. split; [lia|].
              split; [|done]. congruence.
      * rewrite IH, orb_true_iff. split.
        -- intros [[H|H]|(j & b & bn & Hb & Hbn & Hu)]; [by left| |].
           ++ right. exists 0, n, nd. split; [constructor|done].
           ++ right. exists (S j), b, bn. split; [by eapply reaches_up|done].
        -- intros [H|(j & b & bn & Hb & Hbn & Hu)]; [by left; left|].
           inversion Hb as [|j' x xn y z Hx Hy Hrest]; subst.
           ++ left. right. congruence.
           ++ right. exists j', b, bn. split; [congruence|done].
    + destruct fuel; simpl; intros [= <- <-]; rewrite orb_true_iff; split.
      all: try (intros [H|H]; [by left|];
                right; exists 0, n, nd; split; [constructor|done]).
      all: intros [H|(j & b & bn & Hb & Hbn & Hu)]; [by left|];
        inversion Hb as [|j' x xn y z Hx Hy Hrest]; subst;
        [right; congruence|congruence].
Qed.

(** X19: a node [find_unfenced] returns is listed among the unfenced
    descendants of an ancestor of [self]: that ancestor itself or a
    node that is not fenced; its path equals the one looked for up to
    namespaces.  The flag returned with it is true exactly when a node
    of the parent chain from [self] up to, but not including, that
    ancestor is marked [unnest_fence]; when nothing is found it tells
    whether any ancestor is marked. *)
Theorem find_unfenced_finds (fuel : nat) (st : Store) (self : NodeId)
    (p : PathId) (r : option NodeId) (seen : bool) :
  find_unfenced fuel st self p = Some (r, seen) →
  match r with
  | Some d =>
      ∃ k a fuel' ds dn nss,
        reaches st k self a ∧ unfenced_descendants fuel' st a = Some ds
        ∧ d ∈ ds ∧ st !! d = Some dn ∧ (d = a ∨ fenced dn = false)
        ∧ _paths_equal (path_id dn) (Some p) nss = true
        ∧ (seen = true ↔
           ∃ j b bn, j < k ∧ reaches st j self b ∧ st !! b = Some bn
                     ∧ unnest_fence bn = true)
  | None =>
      seen = true ↔
      ∃ j b bn, reaches st j self b ∧ st !! b = Some bn
                ∧ unnest_fence bn = true
  end.
Proof.
  intros Hr. apply find_unfenced_from_meaning in Hr. destruct r as [d|].
  - destruct Hr as (k & a & fuel' & ds & dn & nss & H1 & H2 & H3 & H4 & H5
                    & H6 & Hseen).
    exists k, a, fuel', ds, dn, nss. repeat (split; [done|]).
    rewrite Hseen. split; [by intros [?|?]|by right].
  - rewrite Hr. split; [by intros [?|?]|by right].
Qed.

Lemma find_unfenced_finds_witness :
  ∃ k a fuel' ds dn nss,
    reaches scenario_C.store k 3 a
    ∧ unfenced_descendants fuel' scenario_C.store a = Some ds
    ∧ 2 ∈ ds ∧ scenario_C.store !! 2 = Some dn
    ∧ (2 = a ∨ fenced dn = false)
    ∧ _paths_equal (path_id dn) (Some path_A_b) nss = true
    ∧ (true = true ↔
       ∃ j b bn, j < k ∧ reaches scenario_C.store j 3 b
                 ∧ scenario_C.store !! b = Some bn
                 ∧ unnest_fence bn = true).
Proof.
  apply (find_unfenced_finds 5 scenario_C.store 3 path_A_b (Some 2) true).
  reflexivity.
Defined.

(** ** Copying a subtree *)

Lemma shape_children (st st' : Store) (fuel : nat) (cs : list NodeId)
    (ts : list Shape) (P : NodeId → Prop) :
  (∀ c t, P c → shape fuel st c = Some t → shape fuel st' c = Some t) →
  (∀ c, c ∈ cs → P c) →
  mapM (shape fuel st) cs = Some ts → mapM (shape fuel st') cs = Some ts.
Proof.
  intros Hone Hall Hts. apply mapM_Some. apply mapM_Some in Hts.
  induction Hts as [|c t cs ts Hc Hrest IH]; constructor.
  - apply Hone; [apply Hall; left|done].
  - apply IH. intros c' Hc'. apply Hall. by right.
Qed.

(** The shape below a node only depends on a range of the store that is
    closed under children. *)
Lemma shape_agree_range (st st' : Store) (lo hi : nat) :
  (∀ x xn, lo ≤ x < hi → st !! x = Some xn →
           st' !! x = Some xn ∧ ∀ c, c ∈ children xn → lo ≤ c < hi) →
  ∀ fuel n t, lo ≤ n < hi →
    shape fuel st n = Some t → shape fuel st' n = Some t.
Proof.
  intros Hrange. induction fuel as [|fuel IH]; intros n t Hn; simpl; [done|].
  destruct (st !! n) as [nd|] eqn:Hnd; simpl; [|done].
  destruct (Hrange n nd Hn Hnd) as [-> Hkids]. simpl.
  destruct (mapM (shape fuel st) (children nd)) as [ts|] eqn:Hts; simpl;
    [|done].
  by rewrite (shape_children st st' fuel _ _ (λ c, lo ≤ c < hi) IH Hkids Hts).
Qed.

Lemma shape_agree_sub (st st' : Store) :
  (∀ x xn, st !! x = Some xn → st' !! x = Some xn) →
  ∀ fuel n t, shape fuel st n = Some t → shape fuel st' n = Some t.
Proof.
  intros Hsub. induction fuel as [|fuel IH]; intros n t; simpl; [done|].
  destruct (st !! n) as [nd|] eqn:Hnd; simpl; [|done].
  rewrite (Hsub n nd Hnd). simpl.
  destruct (mapM (shape fuel st) (children nd)) as [ts|] eqn:Hts; simpl;
    [|done].
  by rewrite (shape_children st st' fuel _ _ (λ _, True)
                (λ c t _, IH c t) (λ _ _, I) Hts).
Qed.

Lemma with_children_app_nil (cpn : ScopeTreeNode) :
  with_children (λ _, children cpn ++ []) cpn = cpn.
Proof. destruct cpn. unfold with_children. simpl. by rewrite app_nil_r. Qed.

Lemma take_unchanged (L0 : nat) (s s' : Store) :
  L0 ≤ length s → length s ≤ length s' →
  (∀ x, x < L0 → s' !! x = s !! x) → take L0 s' = take L0 s.
Proof.
  intros Hl Hl' Hsame. apply list_eq. intros i.
  destruct (decide (i < L0)) as [Hi|Hi].
  - rewrite !lookup_take_lt by done. by apply Hsame.
  - rewrite !lookup_take_ge by lia. done.
Qed.

(** What the loop of [_copy] over the children [cs] of the original does
    to the store, given what a call on one child does. *)
Lemma copy_children (fuel : nat) (L0 : nat) (st : Store) (cp : NodeId) :
  (∀ self np s t,
     L0 ≤ length s → shape fuel (take L0 s) self = Some t →
     (∀ q, np = Some q → L0 ≤ q < length s) →
     ∃ s',
       _copy fuel self np s = Returns (length s) s'
       ∧ length s < length s'
       ∧ (∀ x, x < length s → np ≠ Some x → s' !! x = s !! x)
       ∧ (∀ q qn, np = Some q → s !! q = Some qn →
            s' !! q = Some (with_children (set_add (length s)) qn))
       ∧ shape fuel s' (length s) = Some t
       ∧ (∀ x xn, length s ≤ x < length s' → s' !! x = Some xn →
            protect_parent xn = false
            ∧ ∀ c, c ∈ children xn → length s < c < length s')
       ∧ ∃ cn, s' !! length s = Some cn ∧ parent cn = np) →
  ∀ cs ts, Forall2 (λ c t, shape fuel (take L0 st) c = Some t) cs ts →
  ∀ s cpn tsdone,
    take L0 s = take L0 st → L0 ≤ cp < length s →
    s !! cp = Some cpn →
    Forall2 (λ c t, shape fuel s c = Some t) (children cpn) tsdone →
    (∀ x xn, cp ≤ x < length s → s !! x = Some xn →
       protect_parent xn = false
       ∧ ∀ c, c ∈ children xn → cp < c < length s) →
    ∃ s' newkids,
      for_each (λ child, _copy fuel child (Some cp) ;; mret ()) cs s
      = Returns () s'
      ∧ length s ≤ length s'
      ∧ (∀ x, x < cp → s' !! x = s !! x)
      ∧ s' !! cp = Some (with_children (λ _, children cpn ++ newkids) cpn)
      ∧ Forall2 (λ c t, shape fuel s' c = Some t)
          (children cpn ++ newkids) (tsdone ++ ts)
      ∧ (∀ x xn, cp ≤ x < length s' → s' !! x = Some xn →
           protect_parent xn = false
           ∧ ∀ c, c ∈ children xn → cp < c < length s').
Proof.
  intros Hcopy cs ts Hcs.
  induction Hcs as [|c t cs ts Hc Hrest IH];
    intros s cpn tsdone Htake Hcp Hcpn Hdone Hclosed.
  - exists s, []. split; [done|]. split; [done|]. split; [done|].
    rewrite with_children_app_nil, !app_nil_r. done.
  - destruct (Hcopy c (Some cp) s t) as (s1 & Hrun & Hlen & Hold & Hpar
                                         & Hshape & Hnew & _);
      [lia|by rewrite Htake|by intros q [= <-]|].
    specialize (Hpar cp cpn eq_refl Hcpn).
    destruct (Hclosed cp cpn) as [Hpp Hkids]; [lia|done|].
    assert (with_children (set_add (length s)) cpn
            = with_children (λ l, l ++ [length s]) cpn) as Hadd.
    { unfold with_children, set_add. rewrite bool_decide_eq_false_2; [done|].
      intros Hin. specialize (Hkids _ Hin). lia. }
    rewrite Hadd in Hpar.
    destruct (IH s1 (with_children (λ l, l ++ [length s]) cpn) (tsdone ++ [t]))
      as (s' & newkids & Hrun' & Hlen' & Hold' & Hcp' & Hshapes & Hclosed').
    + rewrite <- Htake. apply take_unchanged; [lia|lia|].
      intros x Hx. apply Hold; [lia|]. intros [= ->]. lia.
    + lia.
    + done.
    + simpl. apply Forall2_app; [|by repeat constructor].
      apply mapM_Some.
      apply (shape_children s s1 fuel _ _ (λ c, cp < c < length s));
        [|done|by apply mapM_Some].
      intros d td Hd. apply (shape_agree_range s s1 (S cp) (length s)); [|lia].
      intros x xn Hx Hxn. split.
      * rewrite Hold; [done|lia|]. intros [= ->]. lia.
      * intros c' Hc'. destruct (Hclosed x xn) as [_ Hk]; [lia|done|].
        specialize (Hk c' Hc'). lia.
    + intros x xn Hx Hxn. destruct (decide (x = cp)) as [->|Hne].
      * rewrite Hpar in Hxn. injection Hxn as <-. simpl. split; [done|].
        intros c' [Hc'|Hc']%elem_of_app.
        -- specialize (Hkids c' Hc'). lia.
        -- apply list_elem_of_singleton in Hc' as ->. lia.
      * destruct (decide (x < length s)) as [Hlt|Hge].
        -- rewrite Hold in Hxn; [|done|intros [= ->]; lia].
           destruct (Hclosed x xn) as [Hp Hk]; [lia|done|]. split; [done|].
           intros c' Hc'. specialize (Hk c' Hc'). lia.
        -- destruct (Hnew x xn) as [Hp Hk]; [lia|done|]. split; [done|].
           intros c' Hc'. specialize (Hk c' Hc'). lia.
    + exists s', (length s :: newkids).
      split.
      { simpl. erewrite run_bind; [exact Hrun'|].
        by erewrite run_bind by exact Hrun. }
      split; [lia|]. split.
      { intros x Hx. rewrite Hold' by done. apply Hold; [lia|].
        intros [= ->]. lia. }
      split.
      { rewrite Hcp'. f_equal. unfold with_children. simpl.
        by rewrite <- app_assoc. }
      split; [|done].
      simpl in Hshapes. by rewrite <- !app_assoc in Hshapes.
Qed.

Lemma copy_makes_copy (fuel : nat) (L0 : nat) (self : NodeId)
    (np : option NodeId) (s : Store) (t : Shape) :
  L0 ≤ length s → shape fuel (take L0 s) self = Some t →
  (∀ q, np = Some q → L0 ≤ q < length s) →
  ∃ s',
    _copy fuel self np s = Returns (length s) s'
    ∧ length s < length s'
    ∧ (∀ x, x < length s → np ≠ Some x → s' !! x = s !! x)
    ∧ (∀ q qn, np = Some q → s !! q = Some qn →
         s' !! q = Some (with_children (set_add (length s)) qn))
    ∧ shape fuel s' (length s) = Some t
    ∧ (∀ x xn, length s ≤ x < length s' → s' !! x = Some xn →
         protect_parent xn = false
         ∧ ∀ c, c ∈ children xn → length s < c < length s')
    ∧ ∃ cn, s' !! length s = Some cn ∧ parent cn = np.
Proof.
  revert self np s t.
  induction fuel as [|fuel IH]; intros self np s t HL0 Hshape Hnp; [done|].
  simpl in Hshape.
  destruct (take L0 s !! self) as [sn|] eqn:Hself0; simpl in Hshape; [|done].
  destruct (mapM (shape fuel (take L0 s)) (children sn)) as [ts|] eqn:Hts;
    simpl in Hshape; [|done].
  injection Hshape as <-.
  apply lookup_take_Some in Hself0 as [Hself HselfL0].
  set (cp := length s).
  set (cnode := copy_attributes sn (init (path_id sn) (fenced sn) None)).
  set (s2 := <[cp := cnode]> (s ++ [init (path_id sn) (fenced sn) None])).
  assert (length s2 = S (length s)) as Hlen2.
  { unfold s2. rewrite length_insert, length_app. simpl. lia. }
  assert (∀ x, x < length s → s2 !! x = s !! x) as Hold2.
  { intros x Hx. unfold s2, cp. rewrite list_lookup_insert_ne by lia.
    by rewrite lookup_app_l. }
  assert (s2 !! cp = Some cnode) as Hcp2.
  { unfold s2. apply list_lookup_insert_eq. rewrite length_app. simpl.
    unfold cp. lia. }
  (* the store once the copy of [self] is linked to its parent *)
  assert (∃ s3,
            _set_parent cp np s2 = Returns () s3
            ∧ length s3 = S (length s)
            ∧ (∀ x, x < length s → np ≠ Some x → s3 !! x = s !! x)
            ∧ (∀ q qn, np = Some q → s !! q = Some qn →
                 s3 !! q = Some (with_children (set_add cp) qn))
            ∧ s3 !! cp = Some (with_parent np cnode))
    as (s3 & Hrun3 & Hlen3 & Hold3 & Hpar3 & Hcp3).
  { unfold _set_parent. rewrite (run_bind _ _ _ _ _ (get_returns _ _ _ Hcp2)).
    destruct np as [q|]; simpl.
    - destruct (Hnp q eq_refl) as [Hq1 Hq2].
      destruct (lookup_lt_is_Some_2 s q Hq2) as [qn Hqn].
      erewrite run_bind; [|reflexivity]. cbv beta iota.
      erewrite run_bind; [|by apply update_returns].
      assert (<[cp := with_parent (Some q) cnode]> s2 !! q = Some qn) as Hq'.
      { unfold cp. rewrite list_lookup_insert_ne by lia.
        by rewrite Hold2. }
      rewrite (update_returns _ _ _ _ Hq'). eexists. split; [done|].
      split; [by rewrite !length_insert|]. split; [|split].
      + intros x Hx Hne. unfold cp.
        rewrite !list_lookup_insert_ne by (try lia; congruence).
        by apply Hold2.
      + intros q' qn' [= <-] Hqn'. assert (qn' = qn) as -> by congruence.
        apply list_lookup_insert_eq. rewrite length_insert. lia.
      + unfold cp. rewrite list_lookup_insert_ne by lia.
        apply list_lookup_insert_eq. lia.
    - exists s2. split; [done|]. split; [done|]. split; [by intros; apply Hold2|].
      split; [done|]. by rewrite Hcp2. }
  (* the loop over the children *)
  destruct (copy_children fuel L0 s cp (λ self np s t, IH self np s t)
              (children sn) ts (proj1 (mapM_Some _ _ _) Hts)
              s3 (with_parent np cnode) [])
    as (s' & newkids & Hloop & Hlen' & Hold' & Hcp' & Hshapes & Hclosed).
  { apply take_unchanged; [done|lia|].
    intros x Hx. apply Hold3; [lia|].
    intros [= ->]. destruct (Hnp x eq_refl). lia. }
  { unfold cp. lia. }
  { done. }
  { by destruct sn. }
  { intros x xn Hx Hxn. assert (x = cp) as -> by (unfold cp in *; lia).
    rewrite Hcp3 in Hxn. injection Hxn as <-. split; [by destruct sn|].
    intros c Hc. destruct sn; simpl in Hc. by apply elem_of_nil in Hc. }
  assert (s3 !! self = Some sn) as Hself3.
  { rewrite Hold3; [done|by eapply lookup_lt_Some|].
    intros [= ->]. destruct (Hnp self eq_refl). lia. }
  exists s'. split.
  { simpl. rewrite (run_bind _ _ _ _ _ (get_returns _ _ _ Hself)).
    erewrite run_bind; [|reflexivity].
    erewrite run_bind;
      [|apply update_returns; by rewrite lookup_app_r, Nat.sub_diag by lia].
    fold cp cnode s2. erewrite run_bind; [|exact Hrun3].
    rewrite (run_bind _ _ _ _ _ (get_returns _ _ _ Hself3)).
    by erewrite run_bind by exact Hloop. }
  split; [lia|]. split.
  { intros x Hx Hne. rewrite Hold' by (unfold cp; lia). by apply Hold3. }
  split.
  { intros q qn Hq Hqn. destruct (Hnp q Hq).
    rewrite Hold' by (unfold cp; lia). by apply Hpar3. }
  split; [|split; [done|]].
  - simpl. fold cp. rewrite Hcp'. simpl. simpl in Hshapes.
    by rewrite (mapM_Some_2 _ _ _ Hshapes).
  - fold cp. rewrite Hcp'. eexists. split; [done|]. by destruct np.
Qed.

(** X20: [copy] returns a new node without parent under which it has
    built a copy of the subtree below [self]: the same shape, child by
    child in the same order, with the unique ids, path ids, [fenced],
    [unnest_fence] and [optional] flags and namespaces of the original.
    The nodes that were there before are untouched, and no node of the
    copy is marked [protect_parent]. *)
Theorem copy_is_a_copy (fuel : nat) (st : Store) (self : NodeId)
    (t : Shape) :
  shape fuel st self = Some t →
  ∃ st' cn,
    copy fuel self st = Returns (length st) st'
    ∧ shape fuel st' (length st) = Some t
    ∧ take (length st) st' = st
    ∧ st' !! length st = Some cn ∧ parent cn = None
    ∧ ∀ x xn, length st ≤ x → st' !! x = Some xn → protect_parent xn = false.
Proof.
  intros Hshape.
  destruct (copy_makes_copy fuel (length st) self None st t)
    as (st' & Hrun & Hlen & Hold & _ & Hcopy & Hnew & cn & Hcn & Hpar);
    [done|by rewrite firstn_all|done|].
  exists st', cn. split; [done|]. split; [done|]. split.
  { rewrite <- (firstn_all st) at 2. apply take_unchanged; [done|lia|].
    intros x Hx. by apply Hold. }
  split; [done|]. split; [done|].
  intros x xn Hx Hxn. apply (Hnew x xn); [|done].
  split; [done|]. by eapply lookup_lt_Some.
Qed.

Lemma copy_is_a_copy_witness :
  ∃ st' cn,
    copy 5 0 family.store = Returns (length family.store) st'
    ∧ shape 5 st' (length family.store)
      = Some (SNode None None true false false ∅
                [SNode None (Some path_A) false false false ∅ [];
                 SNode None None false false false ∅
                   [SNode (Some 7%Z) (Some path_A_b) false false false ∅ []]])
    ∧ take (length family.store) st' = family.store
    ∧ st' !! length family.store = Some cn ∧ parent cn = None
    ∧ ∀ x xn, length family.store ≤ x → st' !! x = Some xn →
              protect_parent xn = false.
Proof.
  apply (copy_is_a_copy 5 family.store 0). reflexivity.
Defined.

(** ** Removing the descendants that match a path *)

Lemma remove_edited (n : NodeId) (st st' : Store) :
  remove n st = Returns () st' →
  ∃ nd, st !! n = Some nd ∧ edited (set_parent_edit n None (parent nd)) st st'.
Proof.
  unfold remove. intros Hrun.
  apply bind_returns in Hrun as (nd & st0 & Hget & Hrun).
  unfold get, query in Hget. destruct (st !! n) as [nd0|] eqn:Hn; [|done].
  injection Hget as -> <-. exists nd. split; [done|].
  destruct (parent nd) as [p|] eqn:Hpar.
  - unfold remove_subtree in Hrun.
    apply bind_returns in Hrun as (pn & st1 & Hget & Hrun).
    unfold get, query in Hget. destruct (st !! p) as [pn0|]; [|done].
    injection Hget as -> <-. case_bool_decide; [|done].
    rewrite <- Hpar. by eapply set_parent_edited.
  - injection Hrun as <-. eapply edited_ext; [|apply edited_refl].
    intros x xn _. unfold set_parent_edit. by rewrite decide_True.
Qed.

Lemma same_attributes_trans (a b c : ScopeTreeNode) :
  same_attributes a b → same_attributes b c → same_attributes a c.
Proof.
  unfold same_attributes.
  intros (A1 & A2 & A3 & A4 & A5 & A6 & A7) (B1 & B2 & B3 & B4 & B5 & B6 & B7).
  repeat split; congruence.
Qed.

(** Removing the nodes of [l] one after the other. *)
Lemma for_each_remove (l : list NodeId) (st st' : Store) :
  for_each remove l st = Returns () st' →
  length st' = length st
  ∧ ∀ x xn, st !! x = Some xn →
      ∃ xn', st' !! x = Some xn' ∧ same_attributes xn xn'
             ∧ (parent xn' = parent xn ∨ parent xn' = None)
             ∧ (x ∈ l → parent xn' = None)
             ∧ (x ∉ l → parent xn' = parent xn).
Proof.
  revert st. induction l as [|n l IH]; intros st; simpl.
  - intros [= <-]. split; [done|]. intros x xn Hx. exists xn.
    split; [done|]. split; [by repeat split|]. split; [by left|].
    split; [by intros ?%elem_of_nil|done].
  - intros Hrun. apply bind_returns in Hrun as ([] & st1 & Hrem & Hrest).
    destruct (remove_edited _ _ _ Hrem) as (nd & Hn & Hlen1 & Hed).
    destruct (IH _ Hrest) as [Hlen Hnodes]. split; [congruence|].
    intros x xn Hx. specialize (Hed x xn Hx).
    destruct (Hnodes _ _ Hed) as (xn' & Hx' & Hattr & Hpar & Hin & Hout).
    exists xn'. split; [done|].
    split; [eapply same_attributes_trans;
            [apply set_parent_edit_attributes|exact Hattr]|].
    assert (parent (set_parent_edit n None (parent nd) x xn)
            = if decide (x = n) then None else parent xn) as Hp1.
    { destruct (decide (None = parent nd)) as [Heq|Hne].
      - unfold set_parent_edit. rewrite decide_True by done.
        case_decide; [|done]. subst. congruence.
      - by rewrite set_parent_edit_parent. }
    rewrite Hp1 in Hpar, Hout. split; [|split].
    + destruct Hpar as [-> | ->]; [|by right]. case_decide; [by right|by left].
    + intros [->|Hl]%elem_of_cons; [|by apply Hin].
      destruct Hpar as [-> | ->]; [|done]. by rewrite decide_True.
    + intros Hnot. rewrite Hout.
      * rewrite decide_False; [done|]. intros ->. apply Hnot. left.
      * intros Hl. apply Hnot. by right.
Qed.

Lemma reaches_last (st : Store) (k : nat) (d n : NodeId) :
  reaches st (S k) d n →
  ∃ c cn, reaches st k d c ∧ st !! c = Some cn ∧ parent cn = Some n.
Proof.
  revert d. induction k as [|k IH]; intros d Hr.
  - inversion Hr as [|k' d' nd p n' Hd Hp Hrest]; subst.
    inversion Hrest; subst. exists d, nd. split; [constructor|done].
  - inversion Hr as [|k' d' nd p n' Hd Hp Hrest]; subst.
    destruct (IH p Hrest) as (c & cn & Hc & Hcn & Hpar).
    exists c, cn. split; [by eapply reaches_up|done].
Qed.

Lemma strict_descendants_child (fuel : nat) (st : Store) (cs : list NodeId)
    (ds : list NodeId) (c : NodeId) :
  foldr (λ child rest,
           ds ← strict_descendants fuel st child;
           r ← rest;
           Some (child :: ds ++ r)) (Some []) cs = Some ds →
  c ∈ cs →
  ∃ dc, strict_descendants fuel st c = Some dc
        ∧ c ∈ ds ∧ ∀ d, d ∈ dc → d ∈ ds.
Proof.
  revert ds. induction cs as [|x cs IH]; intros ds; simpl;
    [by intros _ ?%elem_of_nil|].
  destruct (strict_descendants fuel st x) as [dx|] eqn:Hdx; simpl; [|done].
  destruct (foldr _ _ cs) as [r|] eqn:Hr; simpl; [|done].
  intros [= <-] [->|Hin]%elem_of_cons.
  - exists dx. split; [done|]. split; [left|].
    intros d Hd. right. apply elem_of_app. by left.
  - destruct (IH r eq_refl Hin) as (dc & Hdc & Hc & Hsub).
    exists dc. split; [done|]. split.
    + right. apply elem_of_app. by right.
    + intros d Hd. right. apply elem_of_app. right. by apply Hsub.
Qed.

(** On consistent links every node that climbs to [n] is listed among
    the strict descendants of [n]. *)
Lemma reaches_strict_descendants (st : Store) (fuel : nat) :
  consistent st = true →
  ∀ n ds d k,
    strict_descendants fuel st n = Some ds → reaches st (S k) d n → d ∈ ds.
Proof.
  intros Hcons. induction fuel as [|fuel IH]; intros n ds d k; simpl; [done|].
  destruct (st !! n) as [nd|] eqn:Hn; simpl; [|done].
  intros Hds Hr. destruct (reaches_last _ _ _ _ Hr) as (c & cn & Hrc & Hc & Hpar).
  destruct (consistent_parent st Hcons c cn n Hc Hpar) as (nd' & Hn' & Hin).
  assert (nd' = nd) as -> by congruence.
  destruct (strict_descendants_child _ _ _ _ _ Hds Hin) as (dc & Hdc & Hcds & Hsub).
  destruct k as [|k].
  - inversion Hrc; subst. done.
  - apply Hsub. by eapply IH.
Qed.

(** X21: on consistent links, once [remove_descendants] has returned no
    node strictly below [self] matches the path: every descendant that
    matched has been cut off from its parent.  The links stay
    consistent, every node keeps its attributes, and a node that does
    not match keeps its parent. *)
Theorem remove_descendants_removes (fuel : nat) (st st' : Store)
    (self : NodeId) (p : PathId) :
  consistent st = true →
  remove_descendants fuel self p st = Returns () st' →
  consistent st' = true
  ∧ (∀ k d dn, reaches st' (S k) d self → st' !! d = Some dn →
       _paths_equal_to_shortest_ns (path_id dn) (Some p) = false)
  ∧ (∀ x xn, st !! x = Some xn →
       ∃ xn', st' !! x = Some xn' ∧ same_attributes xn xn'
              ∧ (_paths_equal_to_shortest_ns (path_id xn) (Some p) = false →
                 parent xn' = parent xn)).
Proof.
  intros Hcons Hrun.
  assert (consistent st' = true) as Hcons'.
  { apply consistent_links. apply consistent_links in Hcons.
    destruct links_invariant_laws as (H1 & H2 & H3 & H4).
    by eapply (keeps_remove_descendants links_ok). }
  split; [done|].
  unfold remove_descendants in Hrun.
  apply bind_returns in Hrun as (matching & st0 & Hq & Hloop).
  unfold query in Hq.
  destruct (descendants fuel st self) as [ds|] eqn:Hds; simpl in Hq; [|done].
  injection Hq as <- <-.
  destruct (for_each_remove _ _ _ Hloop) as [Hlen Hnodes].
  assert (∀ x xn', st' !! x = Some xn' →
            ∃ xn, st !! x = Some xn ∧ st' !! x = Some xn'
                  ∧ same_attributes xn xn'
                  ∧ (parent xn' = parent xn ∨ parent xn' = None)
                  ∧ (x ∈ filter (λ d, matches_shortest_ns st p d) ds →
                     parent xn' = None)) as Hback.
  { intros x xn' Hx'. pose proof (lookup_lt_Some _ _ _ Hx') as Hlt.
    rewrite Hlen in Hlt. destruct (lookup_lt_is_Some_2 _ _ Hlt) as [xn Hx].
    destruct (Hnodes x xn Hx) as (xn0 & Hx0 & Hattr & Hpar & Hin & _).
    assert (xn0 = xn') as -> by congruence. exists xn.
    do 4 (split; [done|]). done. }
  split.
  - intros k d dn Hr Hd.
    destruct (matches_shortest_ns st p d) eqn:Hmatch.
    + exfalso.
      assert (∀ j a b, reaches st' j a b → reaches st j a b) as Hshrunk.
      { intros j a b Hab. induction Hab as [a|j a an q b Ha Hq Hrest IH];
          [constructor|].
        destruct (Hback a an Ha) as (an0 & Ha0 & _ & _ & [Hpar|Hpar] & _);
          [|congruence].
        eapply reaches_up; [exact Ha0|by rewrite <- Hpar|done]. }
      unfold descendants in Hds.
      destruct (strict_descendants fuel st self) as [sd|] eqn:Hsd; [|done].
      simpl in Hds. injection Hds as <-.
      pose proof (reaches_strict_descendants st fuel Hcons _ _ _ _ Hsd
                    (Hshrunk _ _ _ Hr)) as Hin.
      destruct (Hback d dn Hd) as (dn0 & Hd0 & _ & _ & _ & Hcut).
      assert (parent dn = None) as Hnone.
      { apply Hcut. apply list_elem_of_filter.
        split; [by rewrite Hmatch|by right]. }
      inversion Hr as [|k' d' nd q n' Hd' Hq Hrest]; subst. congruence.
    + destruct (Hback d dn Hd) as (dn0 & Hd0 & _ & Hattr & _).
      unfold matches_shortest_ns in Hmatch. rewrite Hd0 in Hmatch.
      destruct Hattr as (_ & Hpath & _). by rewrite Hpath.
  - intros x xn Hx.
    destruct (Hnodes x xn Hx) as (xn' & Hx' & Hattr & _ & _ & Hout).
    exists xn'. split; [done|]. split; [done|]. intros Hno. apply Hout.
    intros [Hm _]%list_elem_of_filter.
    unfold matches_shortest_ns in Hm. rewrite Hx, Hno in Hm. done.
Qed.

Lemma remove_descendants_removes_witness :
  consistent family.pruned = true
  ∧ (∀ k d dn, reaches family.pruned (S k) d 0 →
       family.pruned !! d = Some dn →
       _paths_equal_to_shortest_ns (path_id dn) (Some path_A_b) = false)
  ∧ (∀ x xn, family.store !! x = Some xn →
       ∃ xn', family.pruned !! x = Some xn' ∧ same_attributes xn xn'
              ∧ (_paths_equal_to_shortest_ns (path_id xn) (Some path_A_b)
                 = false → parent xn' = parent xn)).
Proof.
  apply (remove_descendants_removes 5 family.store family.pruned 0 path_A_b).
  - reflexivity.
  - reflexivity.
Defined.

(** ** The root of a tree and the scope recorded on a set *)

Lemma root_reaches (st : Store) (fuel : nat) (n r : NodeId) :
  root fuel st n = Some r →
  ∃ k rn, reaches st k n r ∧ st !! r = Some rn ∧ parent rn = None.
Proof.
  revert n. induction fuel as [|fuel IH]; intros n; simpl; [done|].
  destruct (st !! n) as [nd|] eqn:Hn; simpl; [|done].
  destruct (parent nd) as [q|] eqn:Hq.
  - intros Hr. destruct (IH q Hr) as (k & rn & Hreach & Hrn & Hpar).
    exists (S k), rn. split; [by eapply reaches_up|done].
  - intros [= <-]. exists 0, nd. split; [constructor|done].
Qed.

(** X22: [get_set_scope] answers [None] for a set without recorded
    scope; otherwise it searches the whole tree the context's scope
    belongs to: the node it returns lies in the tree below the topmost
    ancestor of that scope and carries the recorded unique id, and it
    returns nothing only if no node of that tree carries it. *)
Theorem get_set_scope_finds (fuel : nat) (st : Store) (ir_set : IrSet)
    (ctx : ContextLevel) (r : option NodeId) :
  get_set_scope fuel st ir_set ctx = Some r →
  match path_scope_id ir_set with
  | None => r = None
  | Some uid =>
      ∃ k top tn ds,
        reaches st k (path_scope ctx) top
        ∧ st !! top = Some tn ∧ parent tn = None
        ∧ descendants fuel st top = Some ds
        ∧ match r with
          | Some d => d ∈ ds ∧ ∃ dn, st !! d = Some dn
                                     ∧ unique_id dn = Some uid
          | None => ∀ d dn, d ∈ ds → st !! d = Some dn →
                            unique_id dn ≠ Some uid
          end
  end.
Proof.
  unfold get_set_scope. destruct (path_scope_id ir_set) as [uid|];
    [|by intros [= <-]].
  destruct (root fuel st (path_scope ctx)) as [top|] eqn:Hroot; simpl; [|done].
  destruct (root_reaches _ _ _ _ Hroot) as (k & tn & Hreach & Htn & Hpar).
  unfold find_by_unique_id.
  destruct (descendants fuel st top) as [ds|] eqn:Hds; simpl; [|done].
  intros Hfind. exists k, top, tn, ds. do 4 (split; [done|]).
  destruct r as [d|].
  - apply find_first_found in Hfind as (Hin & dn & Hdn & Ht).
    split; [done|]. exists dn. split; [done|]. by apply bool_decide_eq_true in Ht.
  - intros d dn Hin Hdn. rewrite find_first_none in Hfind.
    destruct (Hfind d Hin) as (dn' & Hdn' & Ht).
    assert (dn' = dn) as -> by congruence. by apply bool_decide_eq_false in Ht.
Qed.

Lemma get_set_scope_finds_witness :
  ∃ k top tn ds,
    reaches family.store k 1 top
    ∧ family.store !! top = Some tn ∧ parent tn = None
    ∧ descendants 5 family.store top = Some ds
    ∧ (3 ∈ ds ∧ ∃ dn, family.store !! 3 = Some dn
                      ∧ unique_id dn = Some 7%Z).
Proof.
  apply (get_set_scope_finds 5 family.store (mkSet path_A (Some 7%Z))
           (mkContext [] 1) (Some 3)).
  reflexivity.
Defined.

(** ** The paths of a node *)

(** X23: every path [get_all_paths] lists is found from the node at
    once: on consistent links [find_visible] returns, without climbing,
    the node itself or one of its children, whatever truth value path
    ids have. *)
Theorem get_all_paths_found (truth_value : PathId → bool) (fuel : nat)
    (st : Store) (self : NodeId) (sn : ScopeTreeNode) (ps : list PathId)
    (p : PathId) :
  consistent st = true → st !! self = Some sn →
  get_all_paths truth_value st self = Some ps → p ∈ ps →
  ∃ v, find_visible (S fuel) st self p = Some (Some v)
       ∧ (v = self ∨ v ∈ children sn).
Proof.
  intros Hcons Hself Hall Hin.
  assert (path_id sn = Some p
          ∨ ∃ c cn, c ∈ children sn ∧ st !! c = Some cn
                    ∧ path_id cn = Some p) as Hfound.
  { unfold get_all_paths in Hall. rewrite Hself in Hall. simpl in Hall.
    assert (∀ ps0,
              (path_children st self ≫= paths_of st (λ _, true)) = Some ps0 →
              p ∈ ps0 →
              ∃ c cn, c ∈ children sn ∧ st !! c = Some cn
                      ∧ path_id cn = Some p) as Hkids.
    { intros ps0 Hps0 Hin0. unfold path_children in Hps0.
      rewrite Hself in Hps0. simpl in Hps0.
      destruct (paths_of_origin _ _ _ _ _ Hps0 Hin0) as (c & cn & Hc & Hcn).
      apply list_elem_of_filter in Hc as [_ Hc]. eauto. }
    destruct (path_id sn) as [q|] eqn:Hq; [|right; by eapply Hkids].
    destruct (truth_value q); [|right; by eapply Hkids].
    injection Hall as <-. apply list_elem_of_singleton in Hin as ->. by left. }
  unfold find_visible. simpl. rewrite Hself. simpl.
  destruct (_paths_equal (path_id sn) (Some p) ∅) eqn:Hown;
    [exists self; split; [done|by left]|].
  destruct Hfound as [Hp|(c & cn & Hc & Hcn & Hp)].
  { rewrite Hp, paths_equal_refl in Hown. done. }
  destruct (find_first_hit st (λ c, _paths_equal (path_id c) (Some p) ∅)
              (children sn) c cn) as [c' Hc'];
    [by apply (children_allocated st Hcons self sn)|done|done
    |by rewrite Hp, paths_equal_refl|].
  rewrite Hc'. simpl. exists c'. split; [done|]. right.
  by apply find_first_found in Hc' as [? _].
Qed.

Lemma get_all_paths_found_witness :
  ∃ v, find_visible (S 0) family.store 2 path_A_b = Some (Some v)
       ∧ (v = 2
          ∨ v ∈ children (mkNode None None false false false false [3] ∅
                                 (Some 0))).
Proof.
  apply (get_all_paths_found (λ _, true) 0 family.store 2
           (mkNode None None false false false false [3] ∅ (Some 0))
           [path_A_b] path_A_b).
  - reflexivity.
  - reflexivity.
  - reflexivity.
  - set_unfold. tauto.
Defined.

(** ** Visible prefixes *)

Lemma find_visible_from_walk (st : Store) (p : PathId) (fuel : nat)
    (nss ans : gset string) (node : option NodeId) :
  find_visible_from fuel st p nss ans node = Some None →
  ∃ la, ancestors_from fuel st node = Some la.
Proof.
  revert nss ans node. induction fuel as [|fuel IH]; intros nss ans node.
  - destruct node; simpl; [done|eauto].
  - destruct node as [n|]; simpl; [|eauto].
    destruct (st !! n) as [nd|]; simpl; [|done].
    destruct (_paths_equal (path_id nd) (Some p) nss); [done|].
    destruct (find_first st _ (children nd)) as [[c|]|]; simpl; [done| |done].
    intros Hrec. destruct (IH _ _ _ Hrec) as [la ->]. simpl. eauto.
Qed.

Lemma ancestors_from_below (st : Store) (k : nat) (d n : NodeId) :
  reaches st k d n →
  ∀ fuel la, ancestors_from fuel st (Some n) = Some la →
             ∃ la', ancestors_from (k + fuel) st (Some d) = Some la'.
Proof.
  induction 1 as [n|k d nd q n Hd Hq Hr IH]; intros fuel la Hla; [eauto|].
  destruct (IH fuel la Hla) as [la' Hla']. simpl. rewrite Hd. simpl.
  rewrite Hq, Hla'. simpl. eauto.
Qed.

Lemma any_visible_below (st : Store) (k : nat) (d n : NodeId) (fuel : nat)
    (prefixes : list PathId) :
  consistent st = true → reaches st k d n →
  any_visible fuel st n prefixes = Some true →
  any_visible (k + fuel) st d prefixes = Some true.
Proof.
  intros Hcons Hreach. induction prefixes as [|prefix prefixes IH]; simpl;
    [done|].
  destruct (find_visible fuel st n prefix) as [[v|]|] eqn:Hv; simpl; [| |done].
  - intros _.
    destruct (find_visible_from_below st Hcons prefix k d n Hreach fuel
                ∅ ∅ ∅ ∅ v) as [w Hw]; [done..|].
    unfold find_visible. rewrite Hw. simpl. done.
  - intros Hrest.
    destruct (find_visible_from_walk _ _ _ _ _ _ Hv) as [la Hla].
    destruct (ancestors_from_below _ _ _ _ Hreach _ _ Hla) as [la' Hla'].
    destruct (find_visible_from_total st Hcons prefix (k + fuel) ∅ ∅
                (Some d) la' Hla') as [r Hr].
    unfold find_visible. rewrite Hr. simpl.
    case_bool_decide; [done|]. by apply IH.
Qed.

(** X24: on consistent links, when [is_any_prefix_visible] answers true
    at a node it answers true at every node below it: a scope nested in
    another sees a prefix of every path the outer one sees a prefix
    of. *)
Theorem is_any_prefix_visible_below (st : Store) (k : nat) (d n : NodeId)
    (fuel : nat) (path : PathId) :
  consistent st = true → reaches st k d n →
  is_any_prefix_visible fuel st n path = Some true →
  is_any_prefix_visible (k + fuel) st d path = Some true.
Proof. intros Hcons Hreach. by apply any_visible_below. Qed.

Lemma is_any_prefix_visible_below_witness :
  is_any_prefix_visible (1 + 5) family.store 3 path_A_b_c = Some true.
Proof.
  apply (is_any_prefix_visible_below family.store 1 3 2 5 path_A_b_c).
  - reflexivity.
  - eapply reaches_up; [reflexivity|reflexivity|constructor].
  - reflexivity.
Defined.

(** ** What the walks list *)

(** X25: on consistent links, [strict_descendants] lists exactly the
    nodes that climb to the node by one or more parent links, and
    [ancestors] lists exactly the nodes the node climbs to. *)
Theorem walks_follow_the_links (st : Store) (fuel : nat) (n : NodeId) :
  consistent st = true →
  (∀ ds d, strict_descendants fuel st n = Some ds →
           (d ∈ ds ↔ ∃ k, reaches st (S k) d n))
  ∧ (∀ la a, ancestors fuel st n = Some la →
             (a ∈ la ↔ ∃ k, reaches st k n a)).
Proof.
  intros Hcons. split.
  - intros ds d Hds. split.
    + intros Hin.
      destruct (strict_descendants_reaches st Hcons fuel n ds d Hds Hin)
        as (k & _ & Hr). eauto.
    + intros [k Hr]. by eapply reaches_strict_descendants.
  - intros la a Hla. split.
    + intros Hin. destruct (ancestors_from_reaches _ _ _ _ _ Hla Hin)
        as (k & an & Hr & _). eauto.
    + intros [k Hr]. by eapply reaches_ancestors.
Qed.

Lemma walks_follow_the_links_witness :
  (∀ ds d, strict_descendants 5 family.store 0 = Some ds →
           (d ∈ ds ↔ ∃ k, reaches family.store (S k) d 0))
  ∧ (∀ la a, ancestors 5 family.store 0 = Some la →
             (a ∈ la ↔ ∃ k, reaches family.store k 0 a)).
Proof.
  apply (walks_follow_the_links family.store 5 0). reflexivity.
Defined.

(** ** The nearest fence *)

Lemma first_fenced_meaning (st : Store) (fuel : nat) (n : NodeId)
    (r : option NodeId) :
  first_fenced fuel st (Some n) = Some r →
  match r with
  | Some f =>
      ∃ k fn, reaches st k n f ∧ st !! f = Some fn ∧ fenced fn = true
              ∧ ∀ j b bn, j < k → reaches st j n b → st !! b = Some bn →
                          fenced bn = false
  | None =>
      ∀ j b bn, reaches st j n b → st !! b = Some bn → fenced bn = false
  end.
Proof.
  revert n. induction fuel as [|fuel IH]; intros n; simpl; [done|].
  destruct (st !! n) as [nd|] eqn:Hn; simpl; [|done].
  destruct (fenced nd) eqn:Hf.
  { intros [= <-]. exists 0, nd. split; [constructor|].
    split; [done|]. split; [done|]. intros j b bn Hj. lia. }
  destruct (parent nd) as [q|] eqn:Hq.
  - intros Hr. specialize (IH q Hr). destruct r as [f|].
    + destruct IH as (k & fn & Hreach & Hfn & Hfen & Hbelow).
      exists (S k), fn. split; [by eapply reaches_up|].
      split; [done|]. split; [done|]. intros j b bn Hj Hb Hbn.
      inversion Hb as [|j' x xn y z Hx Hy Hrest]; subst; [congruence|].
      apply (Hbelow j' b bn); [lia| |done]. congruence.
    + intros j b bn Hb Hbn.
      inversion Hb as [|j' x xn y z Hx Hy Hrest]; subst; [congruence|].
      apply (IH j' b bn); [|done]. congruence.
  - destruct fuel; simpl; intros [= <-]; intros j b bn Hb Hbn;
      (inversion Hb as [|j' x xn y z Hx Hy Hrest]; subst; congruence).
Qed.

(** X26: [fence] returns the nearest fenced node of the parent chain,
    the node itself included, and [parent_fence] the nearest one above
    the node: the node returned is fenced and no node met before it on
    the way up is; when nothing is returned no node on the way up is
    fenced. *)
Theorem fences_are_nearest (fuel : nat) (st : Store) (n : NodeId)
    (r : option NodeId) (strict : bool) :
  (if strict then parent_fence fuel st n else fence fuel st n) = Some r →
  match r with
  | Some f =>
      ∃ k fn, reaches st k n f ∧ st !! f = Some fn ∧ fenced fn = true
              ∧ (strict = true → 0 < k)
              ∧ ∀ j b bn, (strict = true → 0 < j) → j < k →
                          reaches st j n b → st !! b = Some bn →
                          fenced bn = false
  | None =>
      ∀ j b bn, (strict = true → 0 < j) → reaches st j n b →
                st !! b = Some bn → fenced bn = false
  end.
Proof.
  assert (∀ r,
    parent_fence fuel st n = Some r →
    match r with
    | Some f =>
        ∃ k fn, reaches st k n f ∧ st !! f = Some fn ∧ fenced fn = true
                ∧ 0 < k
                ∧ ∀ j b bn, 0 < j → j < k → reaches st j n b →
                            st !! b = Some bn → fenced bn = false
    | None =>
        ∀ j b bn, 0 < j → reaches st j n b → st !! b = Some bn →
                  fenced bn = false
    end) as Hstrict.
  { intros r'. unfold parent_fence.
    destruct (st !! n) as [nd|] eqn:Hn; simpl; [|done].
    destruct (parent nd) as [q|] eqn:Hq.
    - intros Hr. apply first_fenced_meaning in Hr. destruct r' as [f|].
      + destruct Hr as (k & fn & Hreach & Hfn & Hfen & Hbelow).
        exists (S k), fn. split; [by eapply reaches_up|].
        split; [done|]. split; [done|]. split; [lia|].
        intros j b bn Hj0 Hj Hb Hbn.
        inversion Hb as [|j' x xn y z Hx Hy Hrest]; subst; [lia|].
        apply (Hbelow j' b bn); [lia| |done]. congruence.
      + intros j b bn Hj0 Hb Hbn.
        inversion Hb as [|j' x xn y z Hx Hy Hrest]; subst; [lia|].
        apply (Hr j' b bn); [|done]. congruence.
    - destruct fuel; simpl; intros [= <-]; intros j b bn Hj0 Hb Hbn;
        (inversion Hb as [|j' x xn y z Hx Hy Hrest]; subst; [lia|congruence]). }
  destruct strict.
  - intros Hr. specialize (Hstrict r Hr). destruct r as [f|].
    + destruct Hstrict as (k & fn & H1 & H2 & H3 & H4 & H5).
      exists k, fn. do 4 (split; [done|]). intros j b bn Hj. by apply H5, Hj.
    + intros j b bn Hj. by apply Hstrict, Hj.
  - unfold fence. destruct (st !! n) as [nd|] eqn:Hn; simpl; [|done].
    destruct (fenced nd) eqn:Hf.
    + intros [= <-]. exists 0, nd. split; [constructor|].
      split; [done|]. split; [done|]. split; [done|].
      intros j b bn _ Hj. lia.
    + intros Hr. specialize (Hstrict r Hr). destruct r as [f|].
      * destruct Hstrict as (k & fn & H1 & H2 & H3 & H4 & H5).
        exists k, fn. do 3 (split; [done|]). split; [done|].
        intros j b bn _ Hj Hb Hbn. destruct j as [|j].
        -- inversion Hb; subst. congruence.
        -- apply (H5 (S j) b bn); [lia|done..].
      * intros j b bn _ Hb Hbn. destruct j as [|j].
        -- inversion Hb; subst. congruence.
        -- apply (Hstrict (S j) b bn); [lia|done..].
Qed.

Lemma fences_are_nearest_witness :
  ∃ k fn, reaches family.store k 3 0 ∧ family.store !! 0 = Some fn
          ∧ fenced fn = true
          ∧ (false = true → 0 < k)
          ∧ ∀ j b bn, (false = true → 0 < j) → j < k →
                      reaches family.store j 3 b →
                      family.store !! b = Some bn → fenced bn = false.
Proof.
  apply (fences_are_nearest 5 family.store 3 (Some 0) false). reflexivity.
Defined.
